(** * OpenReviewScope: consensus, deduplication, state store and workflow driver

    A shallow embedding of the orchestration core of the repository:

    - [state/schemas.ts]   the data model (studies, votes, consensus
                           decisions, PRISMA counters, the global state);
    - [workflows/consensus.ts]  [calculateConsensus], [createConsensusDecision];
    - [tools/dedupe.ts]    [deduplicateStudies], [findDuplicate] and the
                           normalisation helpers;
    - [state/store.ts]     [StateStore] ([init], [load], [save], [update],
                           [append]);
    - [workflows/scopingReview.real.ts]  the driver [ScopingReviewWorkflow]
                           ([run], [shouldRunStage] and the stages).

    Conventions.  JavaScript strings are modelled as [string] (ASCII);
    integer counters as [Z]; similarity scores, which the code computes as
    quotients of two small integers, as exact rationals [Q].  Exceptions are
    values of [Exn]; code that can throw returns a [result].  The store and
    the disk are threaded explicitly, and a thrown exception keeps the
    mutations made before it, as in JavaScript.  Wall-clock fields
    ([timestamp], [created_at], [updated_at]) and the reviewers' metadata
    ([model], [prompt_hash], [seed]) are read by none of the modelled
    functions and are left out of the records. *)

From Stdlib Require Import ZArith QArith Lia Ascii String.
From stdpp Require Import base list strings pretty.

Close Scope Q_scope.
Local Open Scope string_scope.
Local Open Scope list_scope.

(** ** Exceptions and results *)

Inductive Exn : Type :=
| ExpectedThreeVotes (got : nat)  (* Error(`Expected 3 votes, got ${n}`) *)
| RationaleRequired               (* 'Adjudicator rationale required ...' *)
| ImpossibleCast                  (* see [createConsensusDecision] *)
| CriteriaNotSet                  (* 'Criteria not set' *)
| StateNotInitialized             (* 'State not initialized' *)
| NoStateToSave                   (* 'No state to save' *)
| LoadFailed                      (* 'Failed to load state from ...' *)
| SchemaInvalid                   (* ZodError of GlobalStateSchema.parse *)
| WriteFailed                     (* rejected fs.mkdir / fs.writeFile *)
| TypeError                       (* reading a property of undefined *)
| OracleFailed (who : string).    (* a rejected call of a collaborator *)

Inductive result (A : Type) : Type :=
| Ok (a : A)
| Throw (e : Exn).
Arguments Ok {A} a.
Arguments Throw {A} e.

Definition is_ok {A} (r : result A) : bool :=
  match r with Ok _ => true | Throw _ => false end.

#[global] Instance Exn_eq_dec : EqDecision Exn.
Proof. solve_decision. Defined.

(** ** Data model ([state/schemas.ts]) *)

(** [z.enum(['include', 'exclude', 'unsure'])] *)
Inductive VoteValue : Type := DInclude | DExclude | DUnsure.

(** [z.enum(['include', 'exclude', 'escalate_to_adjudicator'])] *)
Inductive Consensus : Type := CInclude | CExclude | CEscalate.

(** [z.enum(['include', 'exclude'])] *)
Inductive FinalDecision : Type := FInclude | FExclude.

(** [z.enum(['abstract', 'fulltext'])] *)
Inductive ScreenStage : Type := Abstract | Fulltext.

#[global] Instance VoteValue_eq_dec : EqDecision VoteValue.
Proof. solve_decision. Defined.
#[global] Instance Consensus_eq_dec : EqDecision Consensus.
Proof. solve_decision. Defined.
#[global] Instance FinalDecision_eq_dec : EqDecision FinalDecision.
Proof. solve_decision. Defined.
#[global] Instance ScreenStage_eq_dec : EqDecision ScreenStage.
Proof. solve_decision. Defined.

Record EvidenceQuote : Type := {
  text : string;
  location : string
}.

(** [ScreeningDecisionSchema]: one reviewer's vote. *)
Record ScreeningDecision : Type := {
  vote_stage : ScreenStage;
  agent_id : string;
  vote_study_id : string;
  decision : VoteValue;
  reasons : list string;
  evidence_quotes : list EvidenceQuote
}.

(** [ConsensusDecisionSchema]: the resolved outcome for one study and stage. *)
Record ConsensusDecision : Type := {
  cd_stage : ScreenStage;
  cd_study_id : string;
  votes : list ScreeningDecision;
  consensus : Consensus;
  final_decision : FinalDecision;
  adjudicator_rationale : option string
}.

(** [AdjudicatorResponseSchema] *)
Record AdjudicatorResponse : Type := {
  adj_final_decision : FinalDecision;
  adj_rationale : string
}.

(** ** Consensus ([workflows/consensus.ts]) *)

Record ConsensusResult : Type := {
  needsAdjudication : bool;
  preliminaryConsensus : Consensus
}.

(** [votes.filter((v) => v.decision === d).length] *)
Definition countDecision (d : VoteValue) (vs : list ScreeningDecision) : nat :=
  length (filter (λ v, decision v = d) vs).

Definition calculateConsensus (vs : list ScreeningDecision)
  : result ConsensusResult :=
  if negb (Nat.eqb (length vs) 3) then Throw (ExpectedThreeVotes (length vs))
  else
    let includeCount := countDecision DInclude vs in
    let excludeCount := countDecision DExclude vs in
    let unsureCount := countDecision DUnsure vs in
    if Nat.ltb 0 unsureCount then
      Ok {| needsAdjudication := true; preliminaryConsensus := CEscalate |}
    else if Nat.leb 2 includeCount then
      Ok {| needsAdjudication := false; preliminaryConsensus := CInclude |}
    else if Nat.leb 2 excludeCount then
      Ok {| needsAdjudication := false; preliminaryConsensus := CExclude |}
    else
      Ok {| needsAdjudication := true; preliminaryConsensus := CEscalate |}.

(** JavaScript truthiness of an optional string: [undefined], [null] and the
    empty string are falsy. *)
Definition truthy (o : option string) : bool :=
  match o with
  | Some s => negb (String.eqb s "")
  | None => false
  end.

(** [createConsensusDecision].  In the branch without adjudication the code
    casts [preliminaryConsensus as 'include' | 'exclude']; the cast is erased
    at run time.  That branch is entered only with [needsAdjudication] false,
    where [calculateConsensus] has returned include or exclude; on the third
    constructor the model throws [ImpossibleCast], which lemma
    [createConsensusDecision_cast_ok] shows never happens. *)
Definition createConsensusDecision (studyId : string)
    (vs : list ScreeningDecision) (stage : ScreenStage)
    (adjudicatorRationale : option string) : result ConsensusDecision :=
  match calculateConsensus vs with
  | Throw e => Throw e
  | Ok r =>
    let finalDecision : result FinalDecision :=
      if needsAdjudication r then
        if negb (truthy adjudicatorRationale) then Throw RationaleRequired
        else Ok FInclude (* Placeholder *)
      else
        match preliminaryConsensus r with
        | CInclude => Ok FInclude
        | CExclude => Ok FExclude
        | CEscalate => Throw ImpossibleCast
        end in
    match finalDecision with
    | Throw e => Throw e
    | Ok fd =>
      Ok {| cd_stage := stage;
            cd_study_id := studyId;
            votes := vs;
            consensus := preliminaryConsensus r;
            final_decision := fd;
            (* adjudicatorRationale || null *)
            adjudicator_rationale :=
              if truthy adjudicatorRationale then adjudicatorRationale
              else None |}
    end
  end.

(** The assignment [consensus.final_decision = adjudication.final_decision]
    made by the driver on the object returned by [createConsensusDecision]. *)
Definition set_final_decision (fd : FinalDecision) (c : ConsensusDecision)
  : ConsensusDecision :=
  {| cd_stage := cd_stage c;
     cd_study_id := cd_study_id c;
     votes := votes c;
     consensus := consensus c;
     final_decision := fd;
     adjudicator_rationale := adjudicator_rationale c |}.

(** ** Studies *)

(** [StudySchema].  [raw_record], [keywords] and [publisher_url] are read by
    none of the modelled functions. *)
Record Study : Type := {
  study_id : string;
  title : string;
  authors : list string;
  year : Z;
  journal : string;
  doi : option string;
  abstract : option string;
  source_file : string
}.

(** ** Deduplication ([tools/dedupe.ts]) *)

(** *** Character classes of the regular expressions *)

(** [\s] on ASCII: space, \t, \n, \v, \f, \r. *)
Definition is_space (c : ascii) : bool :=
  let n := nat_of_ascii c in
  Nat.eqb n 32 || (Nat.leb 9 n && Nat.leb n 13).

(** [\w] is [[A-Za-z0-9_]]. *)
Definition is_word (c : ascii) : bool :=
  let n := nat_of_ascii c in
  (Nat.leb 65 n && Nat.leb n 90) || (Nat.leb 97 n && Nat.leb n 122)
  || (Nat.leb 48 n && Nat.leb n 57) || Nat.eqb n 95.

Definition to_lower (c : ascii) : ascii :=
  let n := nat_of_ascii c in
  if Nat.leb 65 n && Nat.leb n 90 then ascii_of_nat (n + 32) else c.

Definition toLowerCase (s : string) : string :=
  string_of_list_ascii (map to_lower (list_ascii_of_string s)).

(** [.replace(/\s+/g, ' ')]: every maximal run of white space becomes one
    space; [in_run] tells whether the previous character was white space. *)
Fixpoint collapse_spaces (in_run : bool) (l : list ascii) : list ascii :=
  match l with
  | [] => []
  | c :: l' =>
    if is_space c then
      if in_run then collapse_spaces true l'
      else " "%char :: collapse_spaces true l'
    else c :: collapse_spaces false l'
  end.

Fixpoint drop_spaces (l : list ascii) : list ascii :=
  match l with
  | [] => []
  | c :: l' => if is_space c then drop_spaces l' else l
  end.

(** [.trim()] *)
Definition trim_chars (l : list ascii) : list ascii :=
  rev (drop_spaces (rev (drop_spaces l))).

(** [normalizeTitle]: lower case, [.replace(/[^\w\s]/g, '')],
    [.replace(/\s+/g, ' ')], [.trim()]. *)
Definition normalizeTitle (t : string) : string :=
  let lowered := map to_lower (list_ascii_of_string t) in
  let kept := filter (λ c, is_word c || is_space c = true) lowered in
  string_of_list_ascii (trim_chars (collapse_spaces false kept)).

(** [normalizeAuthor] has the same body as [normalizeTitle]. *)
Definition normalizeAuthor (name : string) : string :=
  let lowered := map to_lower (list_ascii_of_string name) in
  let kept := filter (λ c, is_word c || is_space c = true) lowered in
  string_of_list_ascii (trim_chars (collapse_spaces false kept)).

(** [s.replace(/^p/i, '')] for a literal, lower-case prefix [p]. *)
Definition strip_prefix_ci (p : string) (s : string) : string :=
  if String.prefix p (toLowerCase s)
  then String.substring (String.length p) (String.length s - String.length p) s
  else s.

(** [s.replace(/^https?:\/\/doi\.org\//i, '')] *)
Definition strip_doi_url (s : string) : string :=
  if String.prefix "https://doi.org/" (toLowerCase s)
  then strip_prefix_ci "https://doi.org/" s
  else strip_prefix_ci "http://doi.org/" s.

(** [s.replace(/^doi:\s*/i, '')] *)
Definition strip_doi_scheme (s : string) : string :=
  if String.prefix "doi:" (toLowerCase s)
  then string_of_list_ascii
         (drop_spaces (list_ascii_of_string (strip_prefix_ci "doi:" s)))
  else s.

(** [normalizeDoi]: "Normalize DOI (strip URL prefix, normalize case)". *)
Definition normalizeDoi (d : option string) : option string :=
  if negb (truthy d) then None
  else
    match d with
    | None => None
    | Some s =>
      Some (string_of_list_ascii (trim_chars (list_ascii_of_string
              (toLowerCase (strip_doi_scheme (strip_doi_url s))))))
    end.

(** The [reason] string of a duplicate entry.  The two numeric reasons are
    rendered by the code with [toFixed(2)]; the model keeps the number. *)
Inductive DedupeReason : Type :=
| ExactDoiMatch                      (* 'Exact DOI match' *)
| TitleSimilarity (score : Q)        (* `Title similarity: ${score}` *)
| SameAuthorsYearTitle (overlap : Q).
    (* `Same authors (${overlap}) + year + similar title` *)

Record DuplicateEntry : Type := {
  kept : string;
  removed : list string;
  reason : DedupeReason
}.

Record DedupeResult : Type := {
  unique : list Study;
  duplicates : list DuplicateEntry
}.

(** [a > b] and [a >= b] on scores. *)
Definition Qgtb (a b : Q) : bool := negb (Qle_bool a b).
Definition Qgeb (a b : Q) : bool := Qle_bool b a.

(** [authorsOverlap]: Jaccard similarity of the two sets of normalised
    names. *)
Definition authorsOverlap (authors1 authors2 : list string) : Q :=
  if Nat.eqb (length authors1) 0 || Nat.eqb (length authors2) 0 then 0%Q
  else
    let normalized1 := remove_dups (map normalizeAuthor authors1) in
    let normalized2 := remove_dups (map normalizeAuthor authors2) in
    let intersection := filter (λ a, a ∈ normalized2) normalized1 in
    let union := remove_dups (normalized1 ++ normalized2) in
    Qmake (Z.of_nat (length intersection)) (Pos.of_nat (length union)).

Section Dedupe.
(** [stringSimilarity.compareTwoStrings] of the npm package
    [string-similarity], which is not part of the repository. *)
Variable compareTwoStrings : string → string → Q.

Definition compareTitles (title1 title2 : string) : Q :=
  compareTwoStrings (normalizeTitle title1) (normalizeTitle title2).

(** The body of the loop of [findDuplicate] for one candidate. *)
Definition matchCandidate (study candidate : Study)
    (titleSimilarityThreshold : Q) : option DedupeReason :=
  if truthy (doi study) && truthy (doi candidate)
     && bool_decide (doi study = doi candidate)
  then Some ExactDoiMatch
  else
    let titleSimilarity := compareTitles (title study) (title candidate) in
    if Qgeb titleSimilarity titleSimilarityThreshold
    then Some (TitleSimilarity titleSimilarity)
    else if bool_decide (year study = year candidate)
            && Qgtb (authorsOverlap (authors study) (authors candidate))
                    (1 # 2)
            && Qgtb titleSimilarity (7 # 10)
    then Some (SameAuthorsYearTitle
                 (authorsOverlap (authors study) (authors candidate)))
    else None.

Fixpoint findDuplicate (study : Study) (existing : list Study)
    (titleSimilarityThreshold : Q) : option (Study * DedupeReason) :=
  match existing with
  | [] => None
  | candidate :: rest =>
    match matchCandidate study candidate titleSimilarityThreshold with
    | Some r => Some (candidate, r)
    | None => findDuplicate study rest titleSimilarityThreshold
    end
  end.

(** [duplicates.find((d) => d.kept === id)] followed by either
    [existingEntry.removed.push(...)] on the entry found (the first one
    with that [kept]) or [duplicates.push({...})]. *)
Fixpoint trackDuplicate (keptId removedId : string) (r : DedupeReason)
    (ds : list DuplicateEntry) : list DuplicateEntry :=
  match ds with
  | [] => [ {| kept := keptId; removed := [removedId]; reason := r |} ]
  | d :: ds' =>
    if bool_decide (kept d = keptId)
    then {| kept := kept d; removed := removed d ++ [removedId];
            reason := reason d |} :: ds'
    else d :: trackDuplicate keptId removedId r ds'
  end.

(** The [for (const study of studies)] loop of [deduplicateStudies], with
    the two arrays it grows. *)
Fixpoint dedupeLoop (studies : list Study) (titleSimilarityThreshold : Q)
    (uniq : list Study) (dups : list DuplicateEntry) : DedupeResult :=
  match studies with
  | [] => {| unique := uniq; duplicates := dups |}
  | study :: rest =>
    match findDuplicate study uniq titleSimilarityThreshold with
    | Some (m, r) =>
      dedupeLoop rest titleSimilarityThreshold uniq
        (trackDuplicate (study_id m) (study_id study) r dups)
    | None =>
      dedupeLoop rest titleSimilarityThreshold (uniq ++ [study]) dups
    end
  end.

Definition deduplicateStudies (studies : list Study)
    (titleSimilarityThreshold : Q) : DedupeResult :=
  dedupeLoop studies titleSimilarityThreshold [] [].

(** Every element of [l] found no duplicate among [acc] followed by the
    elements of [l] before it: the condition under which the loop keeps
    all of [l]. *)
Fixpoint fresh_from (thr : Q) (acc l : list Study) : Prop :=
  match l with
  | [] => True
  | u :: l' =>
    findDuplicate u acc thr = None ∧ fresh_from thr (acc ++ [u]) l'
  end.
End Dedupe.

(** All removed ids, over the entries of [duplicates]. *)
Definition removedIds (ds : list DuplicateEntry) : list string :=
  concat (map removed ds).

(** The default value of [titleSimilarityThreshold], 0.85. *)
Definition defaultTitleSimilarityThreshold : Q := 17 # 20.

(** ** The global state ([state/schemas.ts]) *)

Record PCC : Type := {
  population : string;
  concept : string;
  context : string
}.

Record Criteria : Type := {
  pcc : PCC;
  inclusion : list string;
  exclusion : list string
}.

Record FullTextExclusion : Type := {
  fx_study_id : string;
  fx_reason : string
}.

(** [PrismaCountsSchema]: every counter is [z.number().int()]. *)
Record PrismaCounts : Type := {
  identified : Z;
  deduplicated : Z;
  title_abstract_screened : Z;
  abstract_excluded : Z;
  fulltext_retrieved : Z;
  fulltext_excluded : list FullTextExclusion;
  included : Z
}.

(** The enum of [current_stage]. *)
Inductive WorkflowStage : Type :=
| Init | Ingested | AbstractScreening | PdfFetching | PdfToMarkdown
| FulltextScreening | Extraction | Synthesis | Complete.

#[global] Instance WorkflowStage_eq_dec : EqDecision WorkflowStage.
Proof. solve_decision. Defined.

(** [ExtractedPdf] ([tools/pdfExtract.ts]); the page table and the metadata
    are not read by the driver. *)
Record ExtractedPdf : Type := {
  pdf_study_id : string;
  full_text : string
}.

(** [ExtractionRecordSchema]; its descriptive, nullable fields are not read
    by the driver. *)
Record ExtractionRecord : Type := {
  er_study_id : string
}.

(** [GlobalStateSchema].  [config] ([z.record(z.any())]) and
    [pdf_fetch_results] (never written by the driver) are left out. *)
Record GlobalState : Type := {
  run_id : string;
  criteria : option Criteria;
  prospero_protocol : option string;
  studies : list Study;
  prisma_counts : PrismaCounts;
  abstract_decisions : list ScreeningDecision;
  abstract_consensus : list ConsensusDecision;
  fulltext_decisions : list ScreeningDecision;
  fulltext_consensus : list ConsensusDecision;
  extractions : list ExtractionRecord;
  missing_pdfs : list string;
  current_stage : WorkflowStage
}.

(** [ConfigSchema], restricted to the settings the driver itself reads; the
    model name, temperatures and seed only parameterise the reviewers. *)
Record Config : Type := {
  title_similarity : Q;
  ocr_enabled : bool;
  pdfs_dir : string;
  logs_dir : string
}.

(** *** Field updates *)

Definition with_counts (p : PrismaCounts) (s : GlobalState) : GlobalState :=
  {| run_id := run_id s; criteria := criteria s;
     prospero_protocol := prospero_protocol s; studies := studies s;
     prisma_counts := p;
     abstract_decisions := abstract_decisions s;
     abstract_consensus := abstract_consensus s;
     fulltext_decisions := fulltext_decisions s;
     fulltext_consensus := fulltext_consensus s;
     extractions := extractions s; missing_pdfs := missing_pdfs s;
     current_stage := current_stage s |}.

Definition with_stage (st : WorkflowStage) (s : GlobalState) : GlobalState :=
  {| run_id := run_id s; criteria := criteria s;
     prospero_protocol := prospero_protocol s; studies := studies s;
     prisma_counts := prisma_counts s;
     abstract_decisions := abstract_decisions s;
     abstract_consensus := abstract_consensus s;
     fulltext_decisions := fulltext_decisions s;
     fulltext_consensus := fulltext_consensus s;
     extractions := extractions s; missing_pdfs := missing_pdfs s;
     current_stage := st |}.

Definition with_studies (l : list Study) (s : GlobalState) : GlobalState :=
  {| run_id := run_id s; criteria := criteria s;
     prospero_protocol := prospero_protocol s; studies := l;
     prisma_counts := prisma_counts s;
     abstract_decisions := abstract_decisions s;
     abstract_consensus := abstract_consensus s;
     fulltext_decisions := fulltext_decisions s;
     fulltext_consensus := fulltext_consensus s;
     extractions := extractions s; missing_pdfs := missing_pdfs s;
     current_stage := current_stage s |}.

Definition with_criteria (c : option Criteria) (p : option string)
    (s : GlobalState) : GlobalState :=
  {| run_id := run_id s; criteria := c;
     prospero_protocol := p; studies := studies s;
     prisma_counts := prisma_counts s;
     abstract_decisions := abstract_decisions s;
     abstract_consensus := abstract_consensus s;
     fulltext_decisions := fulltext_decisions s;
     fulltext_consensus := fulltext_consensus s;
     extractions := extractions s; missing_pdfs := missing_pdfs s;
     current_stage := current_stage s |}.

Definition with_abstract_decisions (l : list ScreeningDecision)
    (s : GlobalState) : GlobalState :=
  {| run_id := run_id s; criteria := criteria s;
     prospero_protocol := prospero_protocol s; studies := studies s;
     prisma_counts := prisma_counts s;
     abstract_decisions := l;
     abstract_consensus := abstract_consensus s;
     fulltext_decisions := fulltext_decisions s;
     fulltext_consensus := fulltext_consensus s;
     extractions := extractions s; missing_pdfs := missing_pdfs s;
     current_stage := current_stage s |}.

Definition with_abstract_consensus (l : list ConsensusDecision)
    (s : GlobalState) : GlobalState :=
  {| run_id := run_id s; criteria := criteria s;
     prospero_protocol := prospero_protocol s; studies := studies s;
     prisma_counts := prisma_counts s;
     abstract_decisions := abstract_decisions s;
     abstract_consensus := l;
     fulltext_decisions := fulltext_decisions s;
     fulltext_consensus := fulltext_consensus s;
     extractions := extractions s; missing_pdfs := missing_pdfs s;
     current_stage := current_stage s |}.

Definition with_fulltext_decisions (l : list ScreeningDecision)
    (s : GlobalState) : GlobalState :=
  {| run_id := run_id s; criteria := criteria s;
     prospero_protocol := prospero_protocol s; studies := studies s;
     prisma_counts := prisma_counts s;
     abstract_decisions := abstract_decisions s;
     abstract_consensus := abstract_consensus s;
     fulltext_decisions := l;
     fulltext_consensus := fulltext_consensus s;
     extractions := extractions s; missing_pdfs := missing_pdfs s;
     current_stage := current_stage s |}.

Definition with_fulltext_consensus (l : list ConsensusDecision)
    (s : GlobalState) : GlobalState :=
  {| run_id := run_id s; criteria := criteria s;
     prospero_protocol := prospero_protocol s; studies := studies s;
     prisma_counts := prisma_counts s;
     abstract_decisions := abstract_decisions s;
     abstract_consensus := abstract_consensus s;
     fulltext_decisions := fulltext_decisions s;
     fulltext_consensus := l;
     extractions := extractions s; missing_pdfs := missing_pdfs s;
     current_stage := current_stage s |}.

Definition with_extractions (l : list ExtractionRecord)
    (s : GlobalState) : GlobalState :=
  {| run_id := run_id s; criteria := criteria s;
     prospero_protocol := prospero_protocol s; studies := studies s;
     prisma_counts := prisma_counts s;
     abstract_decisions := abstract_decisions s;
     abstract_consensus := abstract_consensus s;
     fulltext_decisions := fulltext_decisions s;
     fulltext_consensus := fulltext_consensus s;
     extractions := l; missing_pdfs := missing_pdfs s;
     current_stage := current_stage s |}.

Definition with_missing_pdfs (l : list string)
    (s : GlobalState) : GlobalState :=
  {| run_id := run_id s; criteria := criteria s;
     prospero_protocol := prospero_protocol s; studies := studies s;
     prisma_counts := prisma_counts s;
     abstract_decisions := abstract_decisions s;
     abstract_consensus := abstract_consensus s;
     fulltext_decisions := fulltext_decisions s;
     fulltext_consensus := fulltext_consensus s;
     extractions := extractions s; missing_pdfs := l;
     current_stage := current_stage s |}.

(** [state.prisma_counts.identified = a; state.prisma_counts.deduplicated = b] *)
Definition counts_ingested (a b : Z) (p : PrismaCounts) : PrismaCounts :=
  {| identified := a; deduplicated := b;
     title_abstract_screened := title_abstract_screened p;
     abstract_excluded := abstract_excluded p;
     fulltext_retrieved := fulltext_retrieved p;
     fulltext_excluded := fulltext_excluded p;
     included := included p |}.

(** [title_abstract_screened = a; abstract_excluded = b] *)
Definition counts_screened (a b : Z) (p : PrismaCounts) : PrismaCounts :=
  {| identified := identified p; deduplicated := deduplicated p;
     title_abstract_screened := a;
     abstract_excluded := b;
     fulltext_retrieved := fulltext_retrieved p;
     fulltext_excluded := fulltext_excluded p;
     included := included p |}.

(** [fulltext_retrieved = a] *)
Definition counts_retrieved (a : Z) (p : PrismaCounts) : PrismaCounts :=
  {| identified := identified p; deduplicated := deduplicated p;
     title_abstract_screened := title_abstract_screened p;
     abstract_excluded := abstract_excluded p;
     fulltext_retrieved := a;
     fulltext_excluded := fulltext_excluded p;
     included := included p |}.

(** [fulltext_excluded.push(x)] *)
Definition counts_push_excluded (x : FullTextExclusion) (p : PrismaCounts)
  : PrismaCounts :=
  {| identified := identified p; deduplicated := deduplicated p;
     title_abstract_screened := title_abstract_screened p;
     abstract_excluded := abstract_excluded p;
     fulltext_retrieved := fulltext_retrieved p;
     fulltext_excluded := fulltext_excluded p ++ [x];
     included := included p |}.

(** [included = a] *)
Definition counts_included (a : Z) (p : PrismaCounts) : PrismaCounts :=
  {| identified := identified p; deduplicated := deduplicated p;
     title_abstract_screened := title_abstract_screened p;
     abstract_excluded := abstract_excluded p;
     fulltext_retrieved := fulltext_retrieved p;
     fulltext_excluded := fulltext_excluded p;
     included := a |}.

(** *** Schema validation *)

(** [ScreeningDecisionSchema]: [reasons] has at least 2 entries and
    [evidence_quotes] at least 1; the enums and strings are typed. *)
Definition ScreeningDecisionSchema_ok (v : ScreeningDecision) : bool :=
  Nat.leb 2 (length (reasons v)) && Nat.leb 1 (length (evidence_quotes v)).

Definition ConsensusDecisionSchema_ok (c : ConsensusDecision) : bool :=
  forallb ScreeningDecisionSchema_ok (votes c).

(** [GlobalStateSchema.parse] succeeds.  The counters are only required to
    be integers, which [Z] makes them. *)
Definition GlobalStateSchema_ok (s : GlobalState) : bool :=
  forallb ScreeningDecisionSchema_ok (abstract_decisions s)
  && forallb ConsensusDecisionSchema_ok (abstract_consensus s)
  && forallb ScreeningDecisionSchema_ok (fulltext_decisions s)
  && forallb ConsensusDecisionSchema_ok (fulltext_consensus s).

(** The funnel order of the counters:
    identified ≥ deduplicated ≥ screened ≥ retrieved ≥ included. *)
Definition funnel_ok (p : PrismaCounts) : Prop :=
  (identified p >= deduplicated p)%Z
  ∧ (deduplicated p >= title_abstract_screened p)%Z
  ∧ (title_abstract_screened p >= fulltext_retrieved p)%Z
  ∧ (fulltext_retrieved p >= included p)%Z.

#[global] Instance funnel_ok_dec p : Decision (funnel_ok p).
Proof. unfold funnel_ok. apply _. Defined.

(** ** The world: workflow object, store and disk *)

(** [mem] is [StateStore.state] ([None] for [null]); [disk] lists the
    successive contents written to [state.json], newest first; [config] is
    the [config] field of the workflow object, [None] standing for the [{}]
    the constructor puts there until [init] has read the configuration. *)
Record World : Type := {
  mem : option GlobalState;
  disk : list GlobalState;
  config : option Config
}.

Definition set_mem (m : option GlobalState) (w : World) : World :=
  {| mem := m; disk := disk w; config := config w |}.
Definition push_disk (s : GlobalState) (w : World) : World :=
  {| mem := mem w; disk := s :: disk w; config := config w |}.
Definition set_config (c : option Config) (w : World) : World :=
  {| mem := mem w; disk := disk w; config := c |}.

(** A computation of the driver: it may change the world and either returns
    or throws; the world reached is kept in both cases. *)
Definition M (A : Type) : Type := World → World * result A.

#[global] Instance M_ret : MRet M := λ A a w, (w, Ok a).
#[global] Instance M_bind : MBind M := λ A B k m w,
  match m w with
  | (w', Ok a) => k a w'
  | (w', Throw e) => (w', Throw e)
  end.

Definition throw {A} (e : Exn) : M A := λ w, (w, Throw e).
Definition lift {A} (r : result A) : M A := λ w, (w, r).

(** [try { m } catch (error) { h }] *)
Definition try_catch {A} (m : M A) (h : Exn → M A) : M A :=
  λ w, match m w with
       | (w', Ok a) => (w', Ok a)
       | (w', Throw e) => h e w'
       end.

(** [for (const x of l) { acc = body(x, acc) }] *)
Fixpoint for_each {A B} (body : A → B → M B) (l : list A) (acc : B) : M B :=
  match l with
  | [] => mret acc
  | x :: l' => acc' ← body x acc; for_each body l' acc'
  end.

(** [Promise.all(l.map(f))].  When several calls are rejected, the code
    rejects with the reason of the call rejected first in time; the model
    takes the first in the list, as when the calls settle in order.
    [extractBatch], whose result shows the difference, has a model of its
    own below. *)
Fixpoint all_results {A B} (f : A → result B) (l : list A) : result (list B) :=
  match l with
  | [] => Ok []
  | x :: l' =>
    match f x with
    | Throw e => Throw e
    | Ok b =>
      match all_results f l' with
      | Throw e => Throw e
      | Ok bs => Ok (b :: bs)
      end
    end
  end.

(** ** External collaborators *)

(** Everything the driver calls but the repository core does not decide:
    the reviewers, the adjudicator, the parsers, the file system and the
    similarity library. *)
Record Oracles : Type := {
  (** [stringSimilarity.compareTwoStrings] *)
  compareTwoStrings : string → string → Q;
  (** reading [config.yaml] through [ConfigSchema.parse] *)
  readConfig : result Config;
  (** reading and parsing one search export *)
  parseSearchFile : string → result (list Study);
  (** [agent.screen] of the i-th abstract reviewer *)
  abstractAgent : nat → Study → Criteria → result ScreeningDecision;
  (** [agent.screen] of the i-th full-text reviewer *)
  fulltextAgent :
    nat → Study → ExtractedPdf → option Criteria → result ScreeningDecision;
  (** [adjudicator.adjudicate] *)
  adjudicate :
    Study → list ScreeningDecision → option Criteria → ScreenStage →
    option ExtractedPdf → result AdjudicatorResponse;
  (** [fs.mkdir] and [fs.readdir] on the PDF directory *)
  readPdfDir : result unit;
  (** the PDF directory holds a readable, valid [<study_id>.pdf] *)
  validPdf : string → bool;
  (** [extractPdfText] on [<pdfs_dir>/<study_id>.pdf] *)
  extractPdfText : string → result ExtractedPdf;
  (** [extractor.extractBatch] *)
  extractBatch : list (Study * ExtractedPdf) → result (list ExtractionRecord);
  (** [fs.mkdir] and [fs.writeFile] of [StateStore.save] succeed *)
  fs_mkdir : GlobalState → bool;
  fs_writeFile : GlobalState → bool;
  (** writing a report, table or figure of the given name *)
  writeArtifact : string → result unit
}.

Section Driver.
Variable env : Oracles.

(** *** [StateStore] ([state/store.ts]) *)

(** The body of [save] once the state is known not to be [null]: create the
    directory, validate against the schema, write the file. *)
Definition writeState (s : GlobalState) : result unit :=
  if negb (fs_mkdir env s) then Throw WriteFailed
  else if negb (GlobalStateSchema_ok s) then Throw SchemaInvalid
  else if negb (fs_writeFile env s) then Throw WriteFailed
  else Ok ().

(** [StateStore.save] *)
Definition save : M unit :=
  λ w, match mem w with
       | None => (w, Throw NoStateToSave)
       | Some s =>
         match writeState s with
         | Ok _ => (push_disk s w, Ok ())
         | Throw e => (w, Throw e)
         end
       end.

Definition initialCounts : PrismaCounts :=
  {| identified := 0; deduplicated := 0; title_abstract_screened := 0;
     abstract_excluded := 0; fulltext_retrieved := 0;
     fulltext_excluded := []; included := 0 |}.

Definition initialState (runId : string) : GlobalState :=
  {| run_id := runId; criteria := None; prospero_protocol := None;
     studies := []; prisma_counts := initialCounts;
     abstract_decisions := []; abstract_consensus := [];
     fulltext_decisions := []; fulltext_consensus := [];
     extractions := []; missing_pdfs := [];
     current_stage := Init |}.

(** [StateStore.init] *)
Definition store_init (runId : string) : M unit :=
  λ w, save (set_mem (Some (initialState runId)) w).

(** [StateStore.load]: read the file, [JSON.parse], [GlobalStateSchema.parse];
    every failure is rethrown as one error. *)
Definition load : M unit :=
  λ w, match disk w with
       | s :: _ =>
         if GlobalStateSchema_ok s then (set_mem (Some s) w, Ok ())
         else (w, Throw LoadFailed)
       | [] => (w, Throw LoadFailed)
       end.

(** [StateStore.getState] *)
Definition getState : M GlobalState :=
  λ w, match mem w with
       | Some s => (w, Ok s)
       | None => (w, Throw StateNotInitialized)
       end.

(** An assignment to a field of the object returned by [getState]. *)
Definition assign (f : GlobalState → GlobalState) : M unit :=
  λ w, (set_mem (f <$> mem w) w, Ok ()).

(** [StateStore.update] *)
Definition update (updates : GlobalState → GlobalState) : M unit :=
  λ w, match mem w with
       | None => (w, Throw StateNotInitialized)
       | Some s => save (set_mem (Some (updates s)) w)
       end.

(** [StateStore.append]; [push] is [state[key] = [...current, ...items]]
    for the key of the call. *)
Definition append (push : GlobalState → GlobalState) : M unit :=
  λ w, match mem w with
       | None => (w, Throw StateNotInitialized)
       | Some s => save (set_mem (Some (push s)) w)
       end.

Definition push_abstract_decisions (vs : list ScreeningDecision)
  : GlobalState → GlobalState :=
  λ s, with_abstract_decisions (abstract_decisions s ++ vs) s.
Definition push_abstract_consensus (c : ConsensusDecision)
  : GlobalState → GlobalState :=
  λ s, with_abstract_consensus (abstract_consensus s ++ [c]) s.
Definition push_fulltext_decisions (vs : list ScreeningDecision)
  : GlobalState → GlobalState :=
  λ s, with_fulltext_decisions (fulltext_decisions s ++ vs) s.
Definition push_fulltext_consensus (c : ConsensusDecision)
  : GlobalState → GlobalState :=
  λ s, with_fulltext_consensus (fulltext_consensus s ++ [c]) s.

(** *** [ScopingReviewWorkflow] *)

Definition stageOrder : list WorkflowStage :=
  [Init; Ingested; AbstractScreening; PdfFetching; PdfToMarkdown;
   FulltextScreening; Extraction; Synthesis; Complete].

(** [Array.prototype.indexOf] *)
Fixpoint indexOf (x : WorkflowStage) (l : list WorkflowStage) : Z :=
  match l with
  | [] => -1
  | y :: l' =>
    if bool_decide (y = x) then 0
    else let i := indexOf x l' in if (i <? 0)%Z then -1 else (i + 1)%Z
  end.

Definition shouldRunStage (currentStage targetStage : WorkflowStage) : bool :=
  let currentIndex := indexOf currentStage stageOrder in
  let targetIndex := indexOf targetStage stageOrder in
  (targetIndex >=? currentIndex)%Z.

(** Reading a nested setting such as [this.config.temperature.screening]:
    on the [{}] left by the constructor the inner read is a property access
    on [undefined]. *)
Definition readSettings : M Config :=
  λ w, match config w with
       | Some c => (w, Ok c)
       | None => (w, Throw TypeError)
       end.

(** [state.abstract_consensus.filter((c) => c.final_decision === 'include')
      .map((c) => state.studies.find((s) => s.study_id === c.study_id)!)
      .filter(Boolean)] *)
Definition includedStudiesOf (cs : list ConsensusDecision)
    (ss : list Study) : list Study :=
  omap (λ c, find (λ s, bool_decide (study_id s = cd_study_id c)) ss)
       (filter (λ c, final_decision c = FInclude) cs).

(** [this.config = ...] *)
Definition setConfig (cfg : Config) : M unit :=
  λ w, (set_config (Some cfg) w, Ok ()).

(** [init] *)
Definition init (crit : Criteria) (runId : string) : M unit :=
  cfg ← lift (readConfig env);
  setConfig cfg ;;
  store_init runId ;;
  update (λ s, with_stage Init (with_criteria (Some crit) None s)).

(** [ingest] *)
Definition ingest (searchFiles : list string) : M unit :=
  allStudies ← for_each
    (λ file acc, studies ← lift (parseSearchFile env file);
                 mret (acc ++ studies))
    searchFiles [];
  cfg ← readSettings;
  let r := deduplicateStudies (compareTwoStrings env) allStudies
             (title_similarity cfg) in
  update (λ s, with_stage Ingested (with_studies (unique r) s)) ;;
  assign (λ s, with_counts
                 (counts_ingested (Z.of_nat (length allStudies))
                                  (Z.of_nat (length (unique r)))
                                  (prisma_counts s)) s) ;;
  save.

(** [generatePdfDownloadTable] *)
Definition generatePdfDownloadTable : M unit :=
  state ← getState;
  let includedStudies :=
    includedStudiesOf (abstract_consensus state) (studies state) in
  if Nat.eqb (length includedStudies) 0 then mret ()
  else lift (writeArtifact env "studies_for_fulltext_screening.csv").

(** The resolution of one study's votes, shared by both screening stages:
    [calculateConsensus], then either the adjudicator's answer written over
    the object made by [createConsensusDecision], or that object as is. *)
Definition resolveVotes (study : Study) (vs : list ScreeningDecision)
    (crit : option Criteria) (stage : ScreenStage)
    (pdfText : option ExtractedPdf) : result ConsensusDecision :=
  match calculateConsensus vs with
  | Throw e => Throw e
  | Ok r =>
    if needsAdjudication r then
      match adjudicate env study vs crit stage pdfText with
      | Throw e => Throw e
      | Ok adjudication =>
        match createConsensusDecision (study_id study) vs stage
                (Some (adj_rationale adjudication)) with
        | Throw e => Throw e
        | Ok c => Ok (set_final_decision (adj_final_decision adjudication) c)
        end
      end
    else createConsensusDecision (study_id study) vs stage None
  end.

(** The body of the loop of [abstractScreening]; the accumulator is
    [(includedCount, excludedCount)]. *)
Definition abstractScreeningStep (crit : Criteria) (study : Study)
    (counts : Z * Z) : M (Z * Z) :=
  vs ← lift (all_results (λ i, abstractAgent env i study crit) [0; 1; 2]%nat);
  cons ← lift (resolveVotes study vs (Some crit) Abstract None);
  let counts' :=
    if bool_decide (final_decision cons = FInclude)
    then (counts.1 + 1, counts.2)%Z else (counts.1, counts.2 + 1)%Z in
  append (push_abstract_decisions vs) ;;
  append (push_abstract_consensus cons) ;;
  (if ((counts'.1 + counts'.2) mod 10 =? 0)%Z then save else mret ()) ;;
  mret counts'.

(** [abstractScreening] *)
Definition abstractScreening : M unit :=
  state ← getState;
  match criteria state with
  | None => throw CriteriaNotSet
  | Some crit =>
    _ ← readSettings;
    counts ← for_each (abstractScreeningStep crit) (studies state) (0, 0)%Z;
    assign (λ s, with_stage AbstractScreening
                   (with_counts
                      (counts_screened (Z.of_nat (length (studies state)))
                                       counts.2 (prisma_counts s)) s)) ;;
    save ;;
    if (counts.1 >? 0)%Z then generatePdfDownloadTable else mret ()
  end.

(** [PdfFetcher.checkAvailablePdfs] ([tools/pdfFetch.ts]), once the PDF
    directory has been listed: [available] is a [Map] keyed by study id, of
    which the driver reads only the size; [missing] is an array. *)
Definition checkAvailablePdfs (ss : list Study) : list string * list string :=
  (remove_dups (filter (λ i, validPdf env i = true) (map study_id ss)),
   filter (λ i, validPdf env i = false) (map study_id ss)).

(** [pdfFetchingGate] *)
Definition pdfFetchingGate : M unit :=
  state ← getState;
  let includedStudies :=
    includedStudiesOf (abstract_consensus state) (studies state) in
  _ ← readSettings;
  lift (readPdfDir env) ;;
  let '(available, missing) := checkAvailablePdfs includedStudies in
  (if Nat.ltb 0 (length missing)
   then lift (writeArtifact env "missing_pdfs.json") else mret ()) ;;
  assign (λ s, with_counts
                 (counts_retrieved (Z.of_nat (length available))
                                   (prisma_counts s))
                 (with_stage PdfFetching (with_missing_pdfs missing s))) ;;
  save.

(** [consensus.votes[0].reasons[0] || 'See decision log'] *)
Definition exclusionReason (c : ConsensusDecision) : string :=
  match votes c with
  | v :: _ =>
    match reasons v with
    | r :: _ => if String.eqb r "" then "See decision log" else r
    | [] => "See decision log"
    end
  | [] => "See decision log"
  end.

(** The first loop of [fullTextScreening]: the [Map] of the extractions that
    succeed, as an association list with the newest entry first, so that a
    later [set] for the same id hides the earlier one. *)
Fixpoint extractAll (ss : list Study) (m : list (string * ExtractedPdf))
  : list (string * ExtractedPdf) :=
  match ss with
  | [] => m
  | study :: rest =>
    match extractPdfText env (study_id study) with
    | Ok extraction => extractAll rest ((study_id study, extraction) :: m)
    | Throw _ => extractAll rest m
    end
  end.

(** [Map.prototype.get] *)
Definition map_get (m : list (string * ExtractedPdf)) (k : string)
  : option ExtractedPdf :=
  snd <$> find (λ kv, bool_decide (kv.1 = k)) m.

(** The body of the second loop of [fullTextScreening]; the accumulator is
    [includedCount]. *)
Definition fullTextScreeningStep (crit : option Criteria)
    (pdfs : list (string * ExtractedPdf)) (study : Study)
    (includedCount : Z) : M Z :=
  match map_get pdfs (study_id study) with
  | None => mret includedCount
  | Some pdfText =>
    vs ← lift (all_results (λ i, fulltextAgent env i study pdfText crit)
                 [0; 1; 2]%nat);
    cons ← lift (resolveVotes study vs crit Fulltext (Some pdfText));
    (if bool_decide (final_decision cons = FInclude) then mret ()
     else assign (λ s, with_counts
                         (counts_push_excluded
                            {| fx_study_id := study_id study;
                               fx_reason := exclusionReason cons |}
                            (prisma_counts s)) s)) ;;
    append (push_fulltext_decisions vs) ;;
    append (push_fulltext_consensus cons) ;;
    mret (if bool_decide (final_decision cons = FInclude)
          then (includedCount + 1)%Z else includedCount)
  end.

(** [fullTextScreening] *)
Definition fullTextScreening : M unit :=
  state ← getState;
  let includedStudies :=
    includedStudiesOf (abstract_consensus state) (studies state) in
  _ ← readSettings;
  let pdfs := extractAll includedStudies [] in
  includedCount ←
    for_each (fullTextScreeningStep (criteria state) pdfs)
             includedStudies 0%Z;
  assign (λ s, with_counts (counts_included includedCount (prisma_counts s))
                 (with_stage FulltextScreening s)) ;;
  save.

(** [dataExtraction] *)
Definition dataExtraction : M unit :=
  state ← getState;
  let finalIncluded :=
    includedStudiesOf (fulltext_consensus state) (studies state) in
  _ ← readSettings;
  let studiesWithPdfs :=
    omap (λ study, match extractPdfText env (study_id study) with
                   | Ok pdfText => Some (study, pdfText)
                   | Throw _ => None
                   end) finalIncluded in
  ex ← lift (extractBatch env studiesWithPdfs);
  assign (λ s, with_stage Extraction (with_extractions ex s)) ;;
  save.

(** [synthesis] *)
Definition synthesis : M unit :=
  _ ← getState;
  lift (writeArtifact env "figures") ;;
  assign (with_stage Synthesis) ;;
  save.

(** [export] *)
Definition export : M unit :=
  _ ← getState;
  lift (writeArtifact env "manuscript and tables") ;;
  assign (with_stage Complete) ;;
  save.

(** [checkForExistingState] *)
Definition checkForExistingState : M bool :=
  @try_catch bool (load ;; mret true) (λ _, mret false).

(** [if (this.shouldRunStage(state.current_stage, target)) await stage()],
    [state] being the live object returned by [getState]. *)
Definition runStageIfDue (target : WorkflowStage) (stage : M unit) : M unit :=
  state ← getState;
  if shouldRunStage (current_stage state) target then stage else mret ().

(** [WorkflowInput]; the optional PROSPERO protocol and the configuration
    path are only handed to the collaborators. *)
Record WorkflowInput : Type := {
  input_criteria : Criteria;
  searchFiles : list string
}.

(** [run] *)
Definition run (runId : string) (input : WorkflowInput) : M unit :=
  @try_catch unit
    (checkForExistingState ≫= λ isResume : bool,
     (if isResume then load
      else
        init (input_criteria input) runId ;;
        if Nat.ltb 0 (length (searchFiles input))
        then ingest (searchFiles input) else mret ()) ;;
     _ ← getState;
     runStageIfDue AbstractScreening abstractScreening ;;
     runStageIfDue PdfFetching pdfFetchingGate ;;
     runStageIfDue FulltextScreening fullTextScreening ;;
     runStageIfDue Extraction dataExtraction ;;
     runStageIfDue Synthesis synthesis ;;
     runStageIfDue Complete export)
    (λ error, save ;; throw error).
End Driver.

(** ** An instance of the collaborators, for running the model *)

(** [compareTwoStrings] as the package [string-similarity] computes it: white
    space is removed; equal strings score 1; a string shorter than two
    characters scores 0; otherwise twice the number of shared bigrams (each
    occurrence counted once) over the total number of bigrams. *)
Definition bigrams (l : list ascii) : list (ascii * ascii) :=
  zip l (tail l).

Fixpoint take_bigram (b : ascii * ascii) (m : list (ascii * ascii))
  : option (list (ascii * ascii)) :=
  match m with
  | [] => None
  | x :: m' =>
    if bool_decide (x = b) then Some m'
    else match take_bigram b m' with
         | Some m'' => Some (x :: m'')
         | None => None
         end
  end.

Fixpoint intersectionSize (second firstBigrams : list (ascii * ascii)) : nat :=
  match second with
  | [] => 0
  | b :: rest =>
    match take_bigram b firstBigrams with
    | Some m' => S (intersectionSize rest m')
    | None => intersectionSize rest firstBigrams
    end
  end.

Definition bigramSimilarity (first second : string) : Q :=
  let f := filter (λ c, is_space c = false) (list_ascii_of_string first) in
  let s := filter (λ c, is_space c = false) (list_ascii_of_string second) in
  if bool_decide (f = s) then 1%Q
  else if Nat.ltb (length f) 2 || Nat.ltb (length s) 2 then 0%Q
  else Qmake (2 * Z.of_nat (intersectionSize (bigrams s) (bigrams f)))
             (Pos.of_nat (length f + length s - 2)).

Definition demoQuote : EvidenceQuote :=
  {| text := "Quote"; location := "Abstract" |}.

Definition demoVote (stage : ScreenStage) (d : VoteValue) (i : nat)
    (study : Study) : ScreeningDecision :=
  {| vote_stage := stage;
     agent_id := match i with
                 | 0 => "screener-1" | 1 => "screener-2" | _ => "screener-3"
                 end;
     vote_study_id := study_id study;
     decision := d;
     reasons := ["Reason 1"; "Reason 2"];
     evidence_quotes := [demoQuote; demoQuote] |}.

Definition demoConfig : Config :=
  {| title_similarity := defaultTitleSimilarityThreshold;
     ocr_enabled := true; pdfs_dir := "pdfs/"; logs_dir := "outputs/" |}.

Definition demoCriteria : Criteria :=
  {| pcc := {| population := "adults"; concept := "sleep";
               context := "primary care" |};
     inclusion := ["peer reviewed"]; exclusion := ["editorials"] |}.

Definition studyA : Study :=
  {| study_id := "a1"; title := "Sleep hygiene in adults";
     authors := ["Ng, P"]; year := 2019; journal := "J Sleep";
     doi := Some "10.1/ABC"; abstract := None; source_file := "a.ris" |}.

(** Same DOI as [studyA] up to letter case; a different title and year. *)
Definition studyB : Study :=
  {| study_id := "b2"; title := "Kidney function outcomes";
     authors := ["Roy, M"]; year := 2021; journal := "Nephron";
     doi := Some "10.1/abc"; abstract := None; source_file := "b.ris" |}.

(** Collaborators that always succeed: every reviewer votes [d], the
    adjudicator answers [fd], every PDF is present and extracts. *)
Definition steadyOracles (d : VoteValue) (fd : FinalDecision) : Oracles :=
  {| compareTwoStrings := bigramSimilarity;
     readConfig := Ok demoConfig;
     parseSearchFile := λ _, Ok [studyA; studyB];
     abstractAgent := λ i study _, Ok (demoVote Abstract d i study);
     fulltextAgent := λ i study _ _, Ok (demoVote Fulltext d i study);
     adjudicate := λ _ _ _ _ _,
       Ok {| adj_final_decision := fd; adj_rationale := "criteria not met" |};
     readPdfDir := Ok ();
     validPdf := λ _, true;
     extractPdfText := λ i, Ok {| pdf_study_id := i; full_text := "text" |};
     extractBatch := λ l, Ok (map (λ p, {| er_study_id := study_id p.1 |}) l);
     fs_mkdir := λ _, true;
     fs_writeFile := λ _, true;
     writeArtifact := λ _, Ok () |}.

(** As [steadyOracles DInclude FInclude], except that the abstract reviewers
    are unreachable for [studyB]. *)
Definition flakyOracles : Oracles :=
  {| compareTwoStrings := bigramSimilarity;
     readConfig := Ok demoConfig;
     parseSearchFile := λ _, Ok [studyA; studyB];
     abstractAgent := λ i study _,
       if bool_decide (study_id study = "b2")
       then Throw (OracleFailed "abstract reviewer")
       else Ok (demoVote Abstract DInclude i study);
     fulltextAgent := λ i study _ _, Ok (demoVote Fulltext DInclude i study);
     adjudicate := λ _ _ _ _ _,
       Ok {| adj_final_decision := FInclude; adj_rationale := "meets PCC" |};
     readPdfDir := Ok ();
     validPdf := λ _, true;
     extractPdfText := λ i, Ok {| pdf_study_id := i; full_text := "text" |};
     extractBatch := λ l, Ok (map (λ p, {| er_study_id := study_id p.1 |}) l);
     fs_mkdir := λ _, true;
     fs_writeFile := λ _, true;
     writeArtifact := λ _, Ok () |}.

(** The three votes of the scenario include / exclude / unsure. *)
Definition splitVotes (study : Study) : list ScreeningDecision :=
  [demoVote Abstract DInclude 0 study; demoVote Abstract DExclude 1 study;
   demoVote Abstract DUnsure 2 study].

(** As [steadyOracles], the three abstract reviewers voting include, exclude
    and unsure. *)
Definition splitOracles (fd : FinalDecision) : Oracles :=
  {| compareTwoStrings := bigramSimilarity;
     readConfig := Ok demoConfig;
     parseSearchFile := λ _, Ok [studyA; studyB];
     abstractAgent := λ i study _,
       Ok (demoVote Abstract
             (match i with 0 => DInclude | 1 => DExclude | _ => DUnsure end)
             i study);
     fulltextAgent := λ i study _ _, Ok (demoVote Fulltext DInclude i study);
     adjudicate := λ _ _ _ _ _,
       Ok {| adj_final_decision := fd; adj_rationale := "criteria not met" |};
     readPdfDir := Ok ();
     validPdf := λ _, true;
     extractPdfText := λ i, Ok {| pdf_study_id := i; full_text := "text" |};
     extractBatch := λ l, Ok (map (λ p, {| er_study_id := study_id p.1 |}) l);
     fs_mkdir := λ _, true;
     fs_writeFile := λ _, true;
     writeArtifact := λ _, Ok () |}.

(** A new workflow object with nothing on disk. *)
Definition emptyWorld : World :=
  {| mem := None; disk := []; config := None |}.

Definition demoInput : WorkflowInput :=
  {| input_criteria := demoCriteria; searchFiles := ["a.ris"] |}.

(** The world left by a first [run] that the unreachable reviewers of
    [studyB] abort, after the verdict of [studyA] has been stored. *)
Definition interruptedWorld : World :=
  (run flakyOracles "run-1" demoInput emptyWorld).1.

(** The world after [run] is called again on the same workflow object, the
    reviewers being reachable. *)
Definition retriedWorld : World :=
  (run (steadyOracles DInclude FInclude) "run-1" demoInput interruptedWorld).1.



(** The world after [init] and [ingest]. *)
Definition ingestedWorld : World :=
  ((init (splitOracles FExclude) demoCriteria "run-1" ;;
    ingest (splitOracles FExclude) ["a.ris"]) emptyWorld).1.

(** The verdicts and the votes stored for one study at the abstract stage. *)
Definition verdictsFor (id : string) (s : GlobalState)
  : list ConsensusDecision :=
  filter (λ c, cd_study_id c = id) (abstract_consensus s).
Definition votesFor (id : string) (s : GlobalState)
  : list ScreeningDecision :=
  filter (λ v, vote_study_id v = id) (abstract_decisions s).

(** ** Specifications of driver computations *)

(** [hoare P m Q E]: from a world satisfying [P], the computation [m] either
    returns [a] in a world satisfying [Q a] or throws in a world satisfying
    [E].  Computations of [M] are total functions, so a triple also says
    that [m] ends. *)
Definition hoare {A} (P : World → Prop) (m : M A)
    (Q : A → World → Prop) (E : World → Prop) : Prop :=
  ∀ w, P w → match m w with
             | (w', Ok a) => Q a w'
             | (w', Throw _) => E w'
             end.

(** [keeps I m]: [m] preserves [I], whether it returns or throws. *)
Definition keeps {A} (I : World → Prop) (m : M A) : Prop :=
  hoare I m (λ _, I) I.

(** An invariant of the world made of a predicate [p] on the state in
    memory and a predicate [D] on the history of the disk; with [strict] the
    store moreover holds a state. *)
Definition winv (strict : bool) (p : GlobalState → Prop)
    (D : list GlobalState → Prop) (w : World) : Prop :=
  (if strict then is_Some (mem w) else True)
  ∧ (∀ s, mem w = Some s → p s) ∧ D (disk w).

(** [D] is kept by writing a state that satisfies [p]. *)
Definition disk_closed (p : GlobalState → Prop)
    (D : list GlobalState → Prop) : Prop :=
  ∀ s d, p s → D d → D (s :: d).

(** What is read back from a disk satisfying [D] satisfies [p]. *)
Definition disk_sound (p : GlobalState → Prop)
    (D : list GlobalState → Prop) : Prop :=
  ∀ s d, D (s :: d) → p s.




(** [p] is kept by the state updates of the three last stages. *)
Definition final_stages_closed (p : GlobalState → Prop) : Prop :=
  (∀ s ex, p s → p (with_stage Extraction (with_extractions ex s)))
  ∧ (∀ s, p s → p (with_stage Synthesis s))
  ∧ (∀ s, p s → p (with_stage Complete s)).

(** [p] is kept by the state updates of one record of full-text
    screening. *)
Definition fulltext_step_closed (p : GlobalState → Prop) : Prop :=
  (∀ s x, p s → p (with_counts (counts_push_excluded x (prisma_counts s)) s))
  ∧ (∀ s vs, p s → p (with_fulltext_decisions (fulltext_decisions s ++ vs) s))
  ∧ (∀ s c, p s → p (with_fulltext_consensus (fulltext_consensus s ++ [c]) s)).


(** After the records [done], starting from the verdict ids [ids0] and
    [n0] votes: the state in memory is the newest snapshot on disk and holds
    one more verdict per record, in order, and three more votes per
    record. *)
Definition abstractCheckpoint (ids0 : list string) (n0 : nat)
    (done : list Study) (w : World) : Prop :=
  ∃ st, mem w = Some st ∧ head (disk w) = Some st
        ∧ cd_study_id <$> abstract_consensus st = ids0 ++ (study_id <$> done)
        ∧ length (abstract_decisions st) = n0 + 3 * length done.

(** The newest snapshot on disk holds the verdicts of the records [done]. *)
Definition abstractSalvage (ids0 : list string) (done : list Study)
    (w : World) : Prop :=
  ∃ sd, head (disk w) = Some sd
        ∧ cd_study_id <$> abstract_consensus sd = ids0 ++ (study_id <$> done).



(** The counters left by the retried run of [retriedWorld]. *)
Definition brokenCounts : PrismaCounts :=
  {| identified := 2; deduplicated := 2; title_abstract_screened := 2;
     abstract_excluded := 0; fulltext_retrieved := 2;
     fulltext_excluded := []; included := 3 |}.


(** ** The funnel in a run from an empty store *)

(** The counters as [StateStore.init] sets them. *)
Definition zero_counts (c : PrismaCounts) : Prop :=
  identified c = 0%Z ∧ deduplicated c = 0%Z
  ∧ title_abstract_screened c = 0%Z ∧ fulltext_retrieved c = 0%Z
  ∧ included c = 0%Z.

(** The counters before abstract screening has written its own: nothing
    screened, retrieved or included yet, and at least [n] records
    deduplicated. *)
Definition ready_counts (n : Z) (c : PrismaCounts) : Prop :=
  (identified c >= deduplicated c)%Z ∧ (deduplicated c >= n)%Z ∧ (n >= 0)%Z
  ∧ title_abstract_screened c = 0%Z ∧ fulltext_retrieved c = 0%Z
  ∧ included c = 0%Z.

Definition funnelS (s : GlobalState) : Prop := funnel_ok (prisma_counts s).

(** Every snapshot on disk and the state in memory are in funnel order. *)
Definition funnelWorld : World → Prop :=
  winv false funnelS (Forall funnelS).

(** The store holds a state satisfying [P]. *)
Definition inState (P : GlobalState → Prop) (w : World) : Prop :=
  ∃ s, mem w = Some s ∧ P s.

(** The state after [init]. *)
Definition pristine (s : GlobalState) : Prop :=
  zero_counts (prisma_counts s) ∧ studies s = []
  ∧ abstract_consensus s = [] ∧ current_stage s = Init.

(** The state when abstract screening starts in a run from an empty
    store. *)
Definition fresh_ready (s : GlobalState) : Prop :=
  ready_counts (Z.of_nat (length (studies s))) (prisma_counts s)
  ∧ abstract_consensus s = []
  ∧ NoDup (study_id <$> studies s)
  ∧ (current_stage s = Init ∨ current_stage s = Ingested).

(** The state when abstract screening has completed. *)
Definition screened_ok (s : GlobalState) : Prop :=
  funnelS s
  ∧ title_abstract_screened (prisma_counts s) = Z.of_nat (length (studies s))
  ∧ fulltext_retrieved (prisma_counts s) = 0%Z
  ∧ included (prisma_counts s) = 0%Z
  ∧ cd_study_id <$> abstract_consensus s = study_id <$> studies s
  ∧ NoDup (study_id <$> studies s)
  ∧ current_stage s = AbstractScreening.

(** The state when the PDF gate has completed. *)
Definition gated (env : Oracles) (s : GlobalState) : Prop :=
  funnelS s
  ∧ included (prisma_counts s) = 0%Z
  ∧ fulltext_retrieved (prisma_counts s) =
    Z.of_nat (length (checkAvailablePdfs env
                        (includedStudiesOf (abstract_consensus s)
                                           (studies s))).1)
  ∧ NoDup (study_id <$> includedStudiesOf (abstract_consensus s) (studies s))
  ∧ current_stage s = PdfFetching.

(** Assumptions on the collaborators.  Records with the same id have the
    same normalised title (the parsers derive the id from title, authors and
    year by a hash). *)
Definition ids_follow_titles (env : Oracles) : Prop :=
  ∀ f1 f2 l1 l2 a b,
    parseSearchFile env f1 = Ok l1 → parseSearchFile env f2 = Ok l2 →
    a ∈ l1 → b ∈ l2 → study_id a = study_id b →
    normalizeTitle (title a) = normalizeTitle (title b).

(** A title is at least as similar to itself as the configured threshold. *)
Definition self_similar (env : Oracles) : Prop :=
  ∀ cfg t, readConfig env = Ok cfg →
           (title_similarity cfg <= compareTwoStrings env t t)%Q.

(** A PDF that [extractPdfText] reads is one that [checkAvailablePdfs]
    accepted. *)
Definition stable_pdfs (env : Oracles) : Prop :=
  ∀ i pdf, extractPdfText env i = Ok pdf → validPdf env i = true.

(** The configuration of the workflow object is the one [init] has read. *)
Definition configured (env : Oracles) (w : World) : Prop :=
  ∃ cfg, config w = Some cfg ∧ readConfig env = Ok cfg.

(** Every record of [l] comes from a search export. *)
Definition parsed (env : Oracles) (l : list Study) : Prop :=
  ∀ a, a ∈ l → ∃ f lf, parseSearchFile env f = Ok lf ∧ a ∈ lf.

(** The study has an entry in the map of extractions. *)
Definition has_pdf (pdfs : list (string * ExtractedPdf)) (s : Study) : Prop :=
  is_Some (map_get pdfs (study_id s)).

(** ** Further functions of the embedded modules *)

(** *** [batchConsensus] ([workflows/consensus.ts]) *)

(** [Map.prototype.set] on a [Map] kept as the list of its entries in
    insertion order: the value of an existing key is replaced in place, a new
    key is added at the end. *)
Fixpoint map_set {V} (k : string) (v : V) (m : list (string * V))
  : list (string * V) :=
  match m with
  | [] => [(k, v)]
  | kv :: m' =>
    if bool_decide (kv.1 = k) then (k, v) :: m' else kv :: map_set k v m'
  end.

(** [object[key]] on an object kept as the list of its entries. *)
Definition lookupEntry {V} (m : list (string * V)) (k : string) : option V :=
  snd <$> find (λ kv, bool_decide (kv.1 = k)) m.

Record BatchResult : Type := {
  decisions : list ConsensusDecision;
  batch_needsAdjudication : list (string * list ScreeningDecision)
}.

(** The [for (const [studyId, votes] of studyVotes.entries())] loop of
    [batchConsensus], with the array and the [Map] it grows. *)
Fixpoint batchLoop (stage : ScreenStage)
    (entries : list (string * list ScreeningDecision))
    (ds : list ConsensusDecision)
    (needs : list (string * list ScreeningDecision)) : result BatchResult :=
  match entries with
  | [] => Ok {| decisions := ds; batch_needsAdjudication := needs |}
  | (studyId, vs) :: rest =>
    match calculateConsensus vs with
    | Throw e => Throw e
    | Ok r =>
      if needsAdjudication r
      then batchLoop stage rest ds (map_set studyId vs needs)
      else
        match createConsensusDecision studyId vs stage None with
        | Throw e => Throw e
        | Ok d => batchLoop stage rest (ds ++ [d]) needs
        end
    end
  end.

(** [batchConsensus]; [studyVotes] is a [Map], given by its entries in
    insertion order. *)
Definition batchConsensus
    (studyVotes : list (string * list ScreeningDecision))
    (stage : ScreenStage) : result BatchResult :=
  batchLoop stage studyVotes [] [].

(** The three votes call for the adjudicator. *)
Definition escalates (vs : list ScreeningDecision) : bool :=
  match calculateConsensus vs with
  | Ok r => needsAdjudication r
  | Throw _ => false
  end.

(** A decision made without the adjudicator carries the majority. *)
Definition majority_decision (stage : ScreenStage) (d : ConsensusDecision)
  : Prop :=
  cd_stage d = stage ∧ adjudicator_rationale d = None
  ∧ ((consensus d = CInclude ∧ final_decision d = FInclude)
     ∨ (consensus d = CExclude ∧ final_decision d = FExclude)).

(** *** [String.prototype.trim], from the end ([tools/dedupe.ts]) *)

(** What [trim_chars] does to the end of a string that does not start with
    white space: the white space after the last other character goes. *)
Fixpoint drop_end (l : list ascii) : list ascii :=
  match l with
  | [] => []
  | c :: l' => if forallb is_space l then [] else c :: drop_end l'
  end.

(** The characters a normalised string may hold: a space, or a word
    character that is not an upper-case letter. *)
Definition plain (c : ascii) : Prop :=
  c = " "%char ∨ (is_word c = true ∧ to_lower c = c).

(** *** States reached by the screening stages *)

(** The state [s] after the verdicts [cs] and their votes have been appended
    at the abstract stage, record by record. *)
Definition with_abstract_verdicts (cs : list ConsensusDecision)
    (s : GlobalState) : GlobalState :=
  with_abstract_consensus (abstract_consensus s ++ cs)
    (with_abstract_decisions
       (abstract_decisions s ++ concat (votes <$> cs)) s).

(** The entry that full-text screening adds to [fulltext_excluded] for an
    exclude verdict. *)
Definition exclusionOf (c : ConsensusDecision) : FullTextExclusion :=
  {| fx_study_id := cd_study_id c; fx_reason := exclusionReason c |}.

(** The state [s] after the verdicts [cs] and their votes have been appended
    at the full-text stage, the exclusions being noted in the counters. *)
Definition with_fulltext_verdicts (cs : list ConsensusDecision)
    (s : GlobalState) : GlobalState :=
  with_fulltext_consensus (fulltext_consensus s ++ cs)
    (with_fulltext_decisions
       (fulltext_decisions s ++ concat (votes <$> cs))
       (with_counts
          {| identified := identified (prisma_counts s);
             deduplicated := deduplicated (prisma_counts s);
             title_abstract_screened :=
               title_abstract_screened (prisma_counts s);
             abstract_excluded := abstract_excluded (prisma_counts s);
             fulltext_retrieved := fulltext_retrieved (prisma_counts s);
             fulltext_excluded :=
               fulltext_excluded (prisma_counts s)
               ++ (exclusionOf <$>
                     filter (λ c, final_decision c = FExclude) cs);
             included := included (prisma_counts s) |} s)).

(** Number of verdicts of [cs] with the final decision [fd]. *)
Definition countFinal (fd : FinalDecision) (cs : list ConsensusDecision)
  : Z :=
  Z.of_nat (length (filter (λ c, final_decision c = fd) cs)).

(** *** [PrismaFlowGenerator.validateCounts] ([tools/prismaFlow.ts]) *)

(** The counters are JavaScript numbers that hold integers
    ([z.number().int()]): IEEE 754 doubles, each written here as the integer
    it holds.  Comparing two such numbers compares the integers.
    Subtracting them rounds the exact difference to the nearest double, a
    tie going to the even significand, and gives an infinity when the
    rounded value does not fit. *)

(** The exponent of the spacing of the doubles around [x]: below [2^53] in
    magnitude every integer is a double, from [2^53] to [2^54] every second
    one, and so on. *)
Definition ulpExponent (x : Z) : Z := Z.max 0 (Z.log2 (Z.abs x) - 52).

(** The double nearest to the integer [x], were the exponent unbounded. *)
Definition roundToDouble (x : Z) : Z :=
  let u := (2 ^ ulpExponent x)%Z in
  let q := (x / u)%Z in
  let r := (x mod u)%Z in
  if (2 * r <? u)%Z then (q * u)%Z
  else if (u <? 2 * r)%Z then ((q + 1) * u)%Z
  else if Z.even q then (q * u)%Z else ((q + 1) * u)%Z.

(** A number that holds an integer, or one of the infinities. *)
Inductive JsNumber : Type :=
| Finite (z : Z)
| PlusInfinity
| MinusInfinity.

#[global] Instance JsNumber_eq_dec : EqDecision JsNumber.
Proof. solve_decision. Defined.

(** [a - b] *)
Definition doubleSub (a b : Z) : JsNumber :=
  let d := roundToDouble (a - b) in
  if (2 ^ 1024 <=? d)%Z then PlusInfinity
  else if (d <=? - 2 ^ 1024)%Z then MinusInfinity
  else Finite d.

(** The messages pushed on [errors]; the last one quotes the two numbers. *)
Inductive CountError : Type :=
| IdentifiedBelowDeduplicated
    (* 'Identified count must be >= deduplicated count' *)
| DeduplicatedBelowScreened
    (* 'Deduplicated count must be >= screened count' *)
| ScreenedBelowRetrieved
    (* 'Screened count must be >= full-text retrieved' *)
| RetrievedBelowIncluded
    (* 'Full-text retrieved must be >= included count' *)
| AbstractExcludedMismatch (got : Z) (expected : JsNumber).
    (* `Abstract excluded count (${got}) doesn't match expected (...)` *)

#[global] Instance CountError_eq_dec : EqDecision CountError.
Proof. solve_decision. Defined.

Record CountsValidation : Type := {
  valid : bool;
  errors : list CountError
}.

Definition validateCounts (counts : PrismaCounts) : CountsValidation :=
  let errors :=
    (if (identified counts <? deduplicated counts)%Z
     then [IdentifiedBelowDeduplicated] else [])
    ++ (if (deduplicated counts <? title_abstract_screened counts)%Z
        then [DeduplicatedBelowScreened] else [])
    ++ (if (title_abstract_screened counts <? fulltext_retrieved counts)%Z
        then [ScreenedBelowRetrieved] else [])
    ++ (if (fulltext_retrieved counts <? included counts)%Z
        then [RetrievedBelowIncluded] else [])
    ++ (let expectedExcluded :=
          doubleSub (title_abstract_screened counts)
                    (fulltext_retrieved counts) in
        (* counts.abstract_excluded !== expectedExcluded *)
        if negb (bool_decide
                   (Finite (abstract_excluded counts) = expectedExcluded))
        then [AbstractExcludedMismatch (abstract_excluded counts)
                expectedExcluded]
        else []) in
  {| valid := Nat.eqb (length errors) 0; errors := errors |}.

(** Counters beyond [2^53] that [validateCounts] accepts although
    [abstract_excluded] is not the difference of the other two. *)
Definition roundedCounts : PrismaCounts :=
  {| identified := 2 ^ 53 + 2; deduplicated := 2 ^ 53 + 2;
     title_abstract_screened := 2 ^ 53 + 2;
     abstract_excluded := 2 ^ 53; fulltext_retrieved := 1;
     fulltext_excluded := []; included := 1 |}.

(** Counters of a small review that [validateCounts] accepts. *)
Definition soundCounts : PrismaCounts :=
  {| identified := 12; deduplicated := 10; title_abstract_screened := 10;
     abstract_excluded := 6; fulltext_retrieved := 4;
     fulltext_excluded := []; included := 3 |}.


(** *** [escapeCsv] ([workflows/scopingReview.real.ts]) *)

(** Line feed, carriage return and the double quote. *)
Definition LF : ascii := "010"%char.
Definition CR : ascii := "013"%char.
Definition DQUOTE : ascii := "034"%char.

(** [field.replace(/\n/g, ' ').replace(/\r/g, '').trim()] *)
Definition cleanCsv (field : list ascii) : list ascii :=
  trim_chars
    (filter (λ c, c ≠ CR)
       (map (λ c, if bool_decide (c = LF) then " "%char else c) field)).

(** The [replace] of [escapeCsv] that writes every double quote twice. *)
Definition doubleQuotes (l : list ascii) : list ascii :=
  flat_map (λ c, if bool_decide (c = DQUOTE) then [DQUOTE; DQUOTE] else [c]) l.

(** [cleaned.includes(c)] for a one-character string. *)
Definition includesChar (c : ascii) (l : list ascii) : bool :=
  existsb (λ x, bool_decide (x = c)) l.

(** [escapeCsv]; the test [!field] holds of the empty string. *)
Definition escapeCsv (field : string) : string :=
  if String.eqb field "" then ""
  else
    let cleaned := cleanCsv (list_ascii_of_string field) in
    if includesChar ","%char cleaned || includesChar DQUOTE cleaned
       || includesChar LF cleaned
    then string_of_list_ascii (DQUOTE :: doubleQuotes cleaned ++ [DQUOTE])
    else string_of_list_ascii cleaned.

(** Number of double quotes in a string. *)
Definition countQuotes (l : list ascii) : nat :=
  length (filter (λ c, c = DQUOTE) l).


(** *** PDF files ([tools/pdfFetch.ts], [tools/pdfExtract.ts]) *)

(** A [Buffer] is a list of bytes.  The code decodes a slice of the buffer
    as UTF-8 and looks for an ASCII text in the result; a character of that
    text can only be decoded from the byte of the same code, so the search
    is the search of the bytes in the slice. *)

(** [s.startsWith(p)] *)
Fixpoint startsWith (p l : list ascii) : bool :=
  match p, l with
  | [], _ => true
  | a :: p', b :: l' => bool_decide (a = b) && startsWith p' l'
  | _ :: _, [] => false
  end.

(** [s.includes(p)] *)
Fixpoint includes (p l : list ascii) : bool :=
  startsWith p l
  || match l with
     | [] => false
     | _ :: l' => includes p l'
     end.

(** [buffer.subarray(-n)]: the last [n] bytes, or all of them. *)
Definition lastBytes (n : nat) (buffer : list ascii) : list ascii :=
  drop (length buffer - n) buffer.

Definition pdfHeader : list ascii := list_ascii_of_string "%PDF-".
Definition pdfEof : list ascii := list_ascii_of_string "%%EOF".

(** [PdfFetcher.isValidPdf] ([tools/pdfFetch.ts]) *)
Definition isValidPdf (buffer : list ascii) : bool :=
  if negb (startsWith pdfHeader (take 5 buffer)) then false
  else if negb (includes pdfEof (lastBytes 1024 buffer)) then false
  else true.

(** The functions of [tools/pdfExtract.ts]; the driver reaches them through
    the collaborator [extractPdfText] of [Oracles]. *)
Module PdfExtract.

(** [isPdfValid] *)
Definition isPdfValid (buffer : list ascii) : bool :=
  let header := take 5 buffer in
  if negb (startsWith pdfHeader header) then false
  else
    let tail := lastBytes 1024 buffer in
    if negb (includes pdfEof tail) then false else true.

(** Failures of [extractPdfText]. *)
Inductive PdfError : Type :=
| ReadError            (* rejected [fs.readFile] *)
| InvalidPdfFile       (* Error(`Invalid PDF file: ${filePath}`) *)
| ParseError           (* rejected call of the PDF library *)
| TextMissing.         (* TypeError of [text.split] on a missing text *)

Inductive outcome (A : Type) : Type :=
| Done (a : A)
| Failed (e : PdfError).
Arguments Done {A} a.
Arguments Failed {A} e.

Inductive ExtractionMethod : Type := Native | Ocr | Hybrid.

(** [ExtractedPage] *)
Record ExtractedPage : Type := {
  page_number : nat;
  page_text : list ascii;
  has_ocr : bool
}.

Section PdfExtract.
(** The metadata dictionary of a PDF, and the empty one. *)
Variable Info : Type.
Variable emptyInfo : Info.

(** What the PDF library returns; [text] and [info] may be missing. *)
Record PdfData : Type := {
  numpages : nat;
  pdf_text : option (list ascii);
  pdf_info : option Info
}.

(** [ExtractedPdf], in full.  [xp_metadata] is [None] when the code stores
    a missing [info] there. *)
Record ExtractedPdfFile : Type := {
  xp_study_id : string;
  xp_file_path : string;
  total_pages : nat;
  xp_pages : list ExtractedPage;
  xp_full_text : list ascii;
  xp_metadata : option Info;
  extraction_method : ExtractionMethod
}.

(** [fs.readFile] and the PDF library, which answers the same on the same
    buffer. *)
Variable readFile : string → outcome (list ascii).
Variable pdfParse : list ascii → outcome PdfData.

Definition FF : ascii := "012"%char.

(** [text.split(/\f|\n{5,}/)]: [cur] is the piece being read, reversed, and
    [pending] the number of line feeds just read, which end the piece if
    they are five or more and belong to it otherwise. *)
Definition flushPending (pending : nat) (cur : list ascii)
    (pieces : list (list ascii)) : list ascii * list (list ascii) :=
  if Nat.leb 5 pending then ([], pieces ++ [rev cur])
  else (replicate pending LF ++ cur, pieces).

Fixpoint splitPages (l : list ascii) (pending : nat) (cur : list ascii)
    (pieces : list (list ascii)) : list (list ascii) :=
  match l with
  | [] =>
    let '(cur', pieces') := flushPending pending cur pieces in
    pieces' ++ [rev cur']
  | c :: l' =>
    if bool_decide (c = LF) then splitPages l' (S pending) cur pieces
    else
      let '(cur', pieces') := flushPending pending cur pieces in
      if bool_decide (c = FF)
      then splitPages l' 0 [] (pieces' ++ [rev cur'])
      else splitPages l' 0 (c :: cur') pieces'
  end.

(** [extractPageTexts] *)
Definition extractPageTexts (dataBuffer : list ascii)
  : outcome (list (list ascii)) :=
  match pdfParse dataBuffer with
  | Failed e => Failed e
  | Done pdfData =>
    match pdf_text pdfData with
    | None => Failed TextMissing
    | Some text => Done (splitPages text 0 [] [])
    end
  end.

(** [extractWithOcr], a placeholder that reads nothing. *)
Definition extractWithOcr (filePath studyId : string)
    (metadata : option Info) : ExtractedPdfFile :=
  {| xp_study_id := studyId; xp_file_path := filePath; total_pages := 0;
     xp_pages := []; xp_full_text := []; xp_metadata := metadata;
     extraction_method := Ocr |}.

(** [pageTexts[i] || ''] *)
Definition pageTextAt (pageTexts : list (list ascii)) (i : nat)
  : list ascii :=
  default [] (pageTexts !! i).

(** [pageText.trim().length > 50] *)
Definition hasContent (pageText : list ascii) : bool :=
  Nat.ltb 50 (length (trim_chars pageText)).

(** [pages.map((p) => p.text).join('\n\n')] *)
Fixpoint joinPages (texts : list (list ascii)) : list ascii :=
  match texts with
  | [] => []
  | [t] => t
  | t :: rest => t ++ [LF; LF] ++ joinPages rest
  end.

(** The body of the [try] block of [extractPdfText]. *)
Definition extractNative (filePath studyId : string) (ocrEnabled : bool)
    (dataBuffer : list ascii) : outcome ExtractedPdfFile :=
  match pdfParse dataBuffer with
  | Failed e => Failed e
  | Done pdfData =>
    match extractPageTexts dataBuffer with
    | Failed e => Failed e
    | Done pageTexts =>
      let pages :=
        map (λ i, {| page_number := i + 1;
                     page_text := pageTextAt pageTexts i;
                     has_ocr := false |})
            (seq 0 (numpages pdfData)) in
      let hasText := existsb (λ p, hasContent (page_text p)) pages in
      if negb hasText && ocrEnabled && Nat.leb (numpages pdfData) 50
      then Done (extractWithOcr filePath studyId (pdf_info pdfData))
      else
        Done {| xp_study_id := studyId; xp_file_path := filePath;
                total_pages := numpages pdfData;
                xp_pages := pages;
                xp_full_text := joinPages (map page_text pages);
                xp_metadata := Some (default emptyInfo (pdf_info pdfData));
                extraction_method := Native |}
    end
  end.

(** [extractPdfText] *)
Definition extractPdfText (filePath studyId : string) (ocrEnabled : bool)
  : outcome ExtractedPdfFile :=
  match readFile filePath with
  | Failed e => Failed e
  | Done dataBuffer =>
    if negb (isPdfValid dataBuffer) then Failed InvalidPdfFile
    else
      match extractNative filePath studyId ocrEnabled dataBuffer with
      | Done r => Done r
      | Failed error =>
        if ocrEnabled
        then Done (extractWithOcr filePath studyId (Some emptyInfo))
        else Failed error
      end
  end.
End PdfExtract.
End PdfExtract.

(** *** [DataExtractorAgent.extractBatch] ([agents/DataExtractor.ts]) *)

Section ExtractBatch.
(** [this.extract], which asks the model for one study. *)
Variable extract : Study * ExtractedPdf → result ExtractionRecord.

(** The calls of one batch run side by side, and [Promise.all] rejects with
    the reason of the call that is rejected first in time, which the
    arguments do not determine.  [firstRejected i reasons] is that reason
    for the batch that starts at index [i], [reasons] being the reasons of
    the rejected calls in the order of the batch. *)
Variable firstRejected : nat → list Exn → Exn.

(** The values of the fulfilled calls and the reasons of the rejected
    ones, in order. *)
Definition fulfilled {B} (rs : list (result B)) : list B :=
  omap (λ r, match r with Ok b => Some b | Throw _ => None end) rs.

Definition rejected {B} (rs : list (result B)) : list Exn :=
  omap (λ r, match r with Ok _ => None | Throw e => Some e end) rs.

(** [await Promise.all(batch.map(...))] in the round that starts at [i] *)
Definition awaitAll {B} (i : nat) (rs : list (result B)) : result (list B) :=
  match rejected rs with
  | [] => Ok (fulfilled rs)
  | e :: es => Throw (firstRejected i (e :: es))
  end.

(** The [for (let i = 0; i < studiesWithPdfs.length; i += batchSize)] loop.
    The loop does not end when [batchSize] is 0, so the model counts its
    rounds with [fuel] and answers [None] when it runs out. *)
Fixpoint extractBatchLoop (fuel : nat)
    (studiesWithPdfs : list (Study * ExtractedPdf)) (batchSize i : nat)
    (extractions : list ExtractionRecord)
  : option (result (list ExtractionRecord)) :=
  match fuel with
  | 0 => None
  | S fuel' =>
    if Nat.ltb i (length studiesWithPdfs) then
      (* studiesWithPdfs.slice(i, i + batchSize) *)
      let batch := take batchSize (drop i studiesWithPdfs) in
      match awaitAll i (extract <$> batch) with
      | Throw e => Some (Throw e)
      | Ok batchExtractions =>
        extractBatchLoop fuel' studiesWithPdfs batchSize (i + batchSize)
          (extractions ++ batchExtractions)
      end
    else Some (Ok extractions)
  end.

Definition extractBatchWith (fuel : nat)
    (studiesWithPdfs : list (Study * ExtractedPdf)) (batchSize : nat)
  : option (result (list ExtractionRecord)) :=
  extractBatchLoop fuel studiesWithPdfs batchSize 0 [].
End ExtractBatch.

(** Two extractions that fail for different reasons, of which the second is
    rejected first. *)
Definition failingExtract (x : Study * ExtractedPdf)
  : result ExtractionRecord :=
  if bool_decide (study_id x.1 = "a1")
  then Throw (OracleFailed "extraction of a1")
  else Throw (OracleFailed "extraction of b2").

Definition lastRejected (i : nat) (reasons : list Exn) : Exn :=
  default TypeError (last reasons).

Definition failingPair : list (Study * ExtractedPdf) :=
  [(studyA, {| pdf_study_id := "a1"; full_text := "text" |});
   (studyB, {| pdf_study_id := "b2"; full_text := "text" |})].


(** *** Search exports ([tools/risParser.ts], [tools/pubmedParser.ts]) *)

(** [content.split(/\r?\n/)]; [cur] is the line being read, reversed. *)
Fixpoint splitLines (l : list ascii) (cur : list ascii)
  : list (list ascii) :=
  match l with
  | [] => [rev cur]
  | c :: l' =>
    if bool_decide (c = LF) then rev cur :: splitLines l' []
    else if bool_decide (c = CR) then
      match l' with
      | c' :: l'' =>
        if bool_decide (c' = LF) then rev cur :: splitLines l'' []
        else splitLines l' (c :: cur)
      | [] => splitLines l' (c :: cur)
      end
    else splitLines l' (c :: cur)
  end.

(** [lines.join('\n')] *)
Fixpoint joinLines (lines : list (list ascii)) : list ascii :=
  match lines with
  | [] => []
  | [line] => line
  | line :: rest => line ++ LF :: joinLines rest
  end.

(** [r.trim().length > 0] *)
Definition nonBlank (r : list ascii) : bool :=
  Nat.ltb 0 (length (trim_chars r)).

Definition is_upper (c : ascii) : bool :=
  let n := nat_of_ascii c in Nat.leb 65 n && Nat.leb n 90.

Definition is_digit (c : ascii) : bool :=
  let n := nat_of_ascii c in Nat.leb 48 n && Nat.leb n 57.

(** The characters that [.] of a regular expression does not match. *)
Definition is_terminator (c : ascii) : bool :=
  bool_decide (c = LF) || bool_decide (c = CR).

(** **** RIS *)

Definition risTypeTag : list ascii := list_ascii_of_string "TY  -".

(** The loop of [splitRisRecords], with the two arrays it grows. *)
Fixpoint risRecordsLoop (lines currentRecord records : list (list ascii))
  : list (list ascii) :=
  match lines with
  | [] =>
    if Nat.ltb 0 (length currentRecord)
    then records ++ [joinLines currentRecord] else records
  | line :: rest =>
    if startsWith risTypeTag (trim_chars line)
       && Nat.ltb 0 (length currentRecord)
    then risRecordsLoop rest [line] (records ++ [joinLines currentRecord])
    else risRecordsLoop rest (currentRecord ++ [line]) records
  end.

Definition splitRisRecords (content : list ascii) : list (list ascii) :=
  filter (λ r, nonBlank r = true)
         (risRecordsLoop (splitLines content []) [] []).

(** [line.match] of [parseRisRecord]: an upper-case letter, an upper-case
    letter or a digit, two spaces, a hyphen, a space, and the rest of the
    line, which [.] matches only if it holds no line terminator.  The result
    is the tag and the rest. *)
Definition matchRisLine (line : list ascii)
  : option (string * list ascii) :=
  match line with
  | a :: b :: c1 :: c2 :: c3 :: c4 :: rest =>
    if is_upper a && (is_upper b || is_digit b)
       && bool_decide (c1 = " "%char) && bool_decide (c2 = " "%char)
       && bool_decide (c3 = "-"%char) && bool_decide (c4 = " "%char)
       && negb (existsb is_terminator rest)
    then Some (string_of_list_ascii [a; b], rest)
    else None
  | _ => None
  end.

(** A value of a [RisRecord]: a text, or the array of a tag that may be
    repeated. *)
Inductive RisValue : Type :=
| RisText (value : string)
| RisList (values : list string).

(** [record[tag]] *)
Definition risGet (record : list (string * RisValue)) (tag : string)
  : option RisValue :=
  lookupEntry record tag.

(** The value is an array, or a text other than the empty string. *)
Definition risTruthy (v : option RisValue) : bool :=
  match v with
  | Some (RisText s) => negb (String.eqb s "")
  | Some (RisList _) => true
  | None => false
  end.

Definition risMultiTag (tag : string) : bool :=
  String.eqb tag "AU" || String.eqb tag "A1" || String.eqb tag "KW".

(** The body of the loop of [parseRisRecord]. *)
Definition parseRisLine (record : list (string * RisValue))
    (line : list ascii) : list (string * RisValue) :=
  match matchRisLine line with
  | None => record
  | Some (tag, rest) =>
    let value := string_of_list_ascii (trim_chars rest) in
    if risMultiTag tag then
      let current :=
        match risGet record tag with
        | Some (RisList l) => l
        | _ => []
        end in
      map_set tag (RisList (current ++ [value])) record
    else if risTruthy (risGet record tag) then record
    else map_set tag (RisText value) record
  end.

(** [parseRisRecord]; [None] is [null]. *)
Definition parseRisRecord (recordText : list ascii)
  : option (list (string * RisValue)) :=
  let record := foldl parseRisLine [] (splitLines recordText []) in
  if Nat.ltb 0 (length record) then Some record else None.

(** [a || b] on values that are [undefined], [null] or a text. *)
Definition textOf (v : option RisValue) : option string :=
  match v with
  | Some (RisText s) => if String.eqb s "" then None else Some s
  | _ => None
  end.

Definition listOf (v : option RisValue) : option (list string) :=
  match v with
  | Some (RisList l) => Some l
  | _ => None
  end.

Definition orElse {A} (a b : option A) : option A :=
  match a with
  | Some _ => a
  | None => b
  end.

Definition digitValue (c : ascii) : Z := Z.of_nat (nat_of_ascii c - 48).

(** [s.match(/\d{4}/)] followed by [parseInt]: the number written by the
    first four digits in a row. *)
Fixpoint firstYear (s : list ascii) : option Z :=
  match s with
  | [] => None
  | a :: s' =>
    match s' with
    | b :: c :: d :: _ =>
      if is_digit a && is_digit b && is_digit c && is_digit d
      then Some (1000 * digitValue a + 100 * digitValue b
                 + 10 * digitValue c + digitValue d)%Z
      else firstYear s'
    | _ => None
    end
  end.

Section RisStudy.
(** [createHash('sha256').update(s).digest('hex')] and
    [new Date().getFullYear()]. *)
Variable sha256hex : string → string.
Variable currentYear : Z.

(** [generateStudyId] *)
Definition generateStudyId (title : string) (authors : list string)
    (year : Z) : string :=
  let normalized :=
    (toLowerCase title ++ "_" ++ String.concat "_" authors ++ "_"
     ++ pretty year)%string in
  String.substring 0 16 (sha256hex normalized).

(** [risRecordToStudy]; [None] is [null].  The fields [keywords],
    [raw_record] and [publisher_url] are not part of [Study] here. *)
Definition risRecordToStudy (ris : list (string * RisValue))
    (sourceFile : string) : option Study :=
  match orElse (textOf (risGet ris "TI")) (textOf (risGet ris "T1")) with
  | None => None
  | Some title =>
    let authors :=
      default [] (orElse (listOf (risGet ris "AU"))
                         (listOf (risGet ris "A1"))) in
    let yearString :=
      default "" (orElse (textOf (risGet ris "PY"))
                         (textOf (risGet ris "Y1"))) in
    let year :=
      default currentYear (firstYear (list_ascii_of_string yearString)) in
    let journal :=
      default "Unknown"
        (orElse (textOf (risGet ris "JO"))
                (orElse (textOf (risGet ris "JF"))
                        (textOf (risGet ris "T2")))) in
    Some {| study_id := generateStudyId title authors year;
            title := title;
            authors := authors;
            year := year;
            journal := journal;
            doi := textOf (risGet ris "DO");
            abstract := orElse (textOf (risGet ris "AB"))
                               (textOf (risGet ris "N2"));
            source_file := sourceFile |}
  end.

(** [parseRisFile] *)
Definition parseRisFile (content : list ascii) (sourceFile : string)
  : list Study :=
  omap (λ record,
          match parseRisRecord record with
          | None => None
          | Some parsed => risRecordToStudy parsed sourceFile
          end)
       (splitRisRecords content).
End RisStudy.

(** **** MEDLINE *)

(** The loop of [splitMedlineRecords]. *)
Fixpoint medlineRecordsLoop (lines currentRecord records : list (list ascii))
  : list (list ascii) :=
  match lines with
  | [] =>
    if Nat.ltb 0 (length currentRecord)
    then records ++ [joinLines currentRecord] else records
  | line :: rest =>
    if negb (nonBlank line) && Nat.ltb 0 (length currentRecord)
    then medlineRecordsLoop rest [] (records ++ [joinLines currentRecord])
    else if nonBlank line
    then medlineRecordsLoop rest (currentRecord ++ [line]) records
    else medlineRecordsLoop rest currentRecord records
  end.

Definition splitMedlineRecords (content : list ascii)
  : list (list ascii) :=
  filter (λ r, nonBlank r = true)
         (medlineRecordsLoop (splitLines content []) [] []).

(** The longest prefix of upper-case letters, and what follows it. *)
Fixpoint spanUpper (l : list ascii) : list ascii * list ascii :=
  match l with
  | c :: l' =>
    if is_upper c
    then let '(u, r) := spanUpper l' in (c :: u, r)
    else ([], l)
  | [] => ([], [])
  end.

(** [line.match] of [parseMedlineRecord]: two to four upper-case letters,
    a hyphen that white space may surround, and the rest of the line.  The
    tag must be the whole run of upper-case letters at the start, since a
    letter can be neither white space nor the hyphen; the rest, after the
    white space, must hold no line terminator. *)
Definition matchMedlineLine (line : list ascii)
  : option (string * list ascii) :=
  let '(tag, afterTag) := spanUpper line in
  if Nat.leb 2 (length tag) && Nat.leb (length tag) 4 then
    match drop_spaces afterTag with
    | c :: afterHyphen =>
      if bool_decide (c = "-"%char)
         && negb (existsb is_terminator (drop_spaces afterHyphen))
      then Some (string_of_list_ascii tag, drop_spaces afterHyphen)
      else None
    | [] => None
    end
  else None.

(** The object and the two variables of the loop of
    [parseMedlineRecord]. *)
Record MedlineState : Type := {
  ml_record : list (string * list string);
  currentTag : string;
  currentValue : list ascii
}.

(** [if (!record[tag]) record[tag] = []; record[tag].push(value)] *)
Definition medlinePush (record : list (string * list string))
    (tag : string) (value : list ascii) : list (string * list string) :=
  let current := default [] (lookupEntry record tag) in
  map_set tag (current ++ [string_of_list_ascii (trim_chars value)]) record.

(** [if (currentTag) { ... }] *)
Definition medlineFlush (st : MedlineState) : list (string * list string) :=
  if String.eqb (currentTag st) "" then ml_record st
  else medlinePush (ml_record st) (currentTag st) (currentValue st).

Definition continuationMark : list ascii := list_ascii_of_string "      ".

(** The body of the loop of [parseMedlineRecord]. *)
Definition parseMedlineLine (st : MedlineState) (line : list ascii)
  : MedlineState :=
  match matchMedlineLine line with
  | Some (tag, value) =>
    {| ml_record := medlineFlush st; currentTag := tag;
       currentValue := value |}
  | None =>
    if startsWith continuationMark (trim_chars line)
    then {| ml_record := ml_record st; currentTag := currentTag st;
            currentValue :=
              currentValue st ++ " "%char :: trim_chars line |}
    else st
  end.

Definition parseMedlineLines (lines : list (list ascii))
  : option (list (string * list string)) :=
  let st := foldl parseMedlineLine
              {| ml_record := []; currentTag := "";
                 currentValue := [] |} lines in
  let record := medlineFlush st in
  if Nat.ltb 0 (length record) then Some record else None.

(** [parseMedlineRecord]; [None] is [null]. *)
Definition parseMedlineRecord (recordText : list ascii)
  : option (list (string * list string)) :=
  parseMedlineLines (splitLines recordText []).

(** **** Vocabulary for the parsers *)

(** The values that the lines of a RIS record give for a tag, in order. *)
Definition risValuesOf (tag : string) (lines : list (list ascii))
  : list string :=
  omap (λ line,
          match matchRisLine line with
          | Some (t, rest) =>
            if String.eqb t tag
            then Some (string_of_list_ascii (trim_chars rest)) else None
          | None => None
          end) lines.

(** The first value that is not the empty string. *)
Definition firstNonEmpty (vs : list string) : option string :=
  find (λ v, negb (String.eqb v "")) vs.

(** The values that the tag lines of a MEDLINE record give for a tag. *)
Definition medlineValuesOf (tag : string) (lines : list (list ascii))
  : list string :=
  omap (λ line,
          match matchMedlineLine line with
          | Some (t, rest) =>
            if String.eqb t tag
            then Some (string_of_list_ascii (trim_chars rest)) else None
          | None => None
          end) lines.

(** The value of a tag after one more line. *)
Definition risAdd (tag : string) (cur : option RisValue) (v : string)
  : option RisValue :=
  if risMultiTag tag then
    Some (RisList (match cur with Some (RisList l) => l | _ => [] end
                   ++ [v]))
  else if risTruthy cur then cur else Some (RisText v).

(** * Properties *)

(** ** Consensus *)

Section ConsensusFacts.
Implicit Types (v : ScreeningDecision) (vs : list ScreeningDecision).

Lemma three_votes vs :
  length vs = 3 → ∃ v1 v2 v3, vs = [v1; v2; v3].
Proof.
  destruct vs as [|v1 [|v2 [|v3 [|v4 vs]]]]; simpl; intros H;
    try discriminate. eauto.
Qed.

Lemma calculateConsensus_wrong_count vs :
  length vs ≠ 3 → calculateConsensus vs = Throw (ExpectedThreeVotes (length vs)).
Proof.
  intros H. unfold calculateConsensus.
  destruct (Nat.eqb_spec (length vs) 3); [contradiction | reflexivity].
Qed.

(** The result on three votes depends on the three decisions only. *)
Lemma calculateConsensus_three v1 v2 v3 :
  calculateConsensus [v1; v2; v3] =
  Ok (match decision v1, decision v2, decision v3 with
      | DUnsure, _, _ | _, DUnsure, _ | _, _, DUnsure =>
        {| needsAdjudication := true; preliminaryConsensus := CEscalate |}
      | DInclude, DInclude, _ | DInclude, _, DInclude
      | _, DInclude, DInclude =>
        {| needsAdjudication := false; preliminaryConsensus := CInclude |}
      | _, _, _ =>
        {| needsAdjudication := false; preliminaryConsensus := CExclude |}
      end).
Proof.
  unfold calculateConsensus, countDecision. simpl length at 1.
  cbn [Nat.eqb negb].
  rewrite !filter_cons, !filter_nil.
  destruct (decision v1), (decision v2), (decision v3); reflexivity.
Qed.

(** [needsAdjudication] is false exactly when the preliminary consensus is
    include or exclude. *)
Lemma calculateConsensus_flag vs r :
  calculateConsensus vs = Ok r →
  needsAdjudication r = bool_decide (preliminaryConsensus r = CEscalate).
Proof.
  unfold calculateConsensus. intros H.
  repeat case_match; simplify_eq; reflexivity.
Qed.

Lemma createConsensusDecision_cast_ok id vs stage rationale :
  createConsensusDecision id vs stage rationale ≠ Throw ImpossibleCast.
Proof.
  unfold createConsensusDecision.
  destruct (calculateConsensus vs) as [r|e] eqn:Hc.
  - pose proof (calculateConsensus_flag _ _ Hc) as Hf.
    destruct r as [n p]; simpl in *. subst n.
    destruct p; simpl; repeat case_match; congruence.
  - unfold calculateConsensus in Hc.
    repeat case_match; simplify_eq. congruence.
Qed.

Lemma countDecision_pos d vs :
  (0 < countDecision d vs)%nat ↔ ∃ v, v ∈ vs ∧ decision v = d.
Proof.
  unfold countDecision. split.
  - intros H. destruct (filter (λ v, decision v = d) vs) as [|v l] eqn:E;
      [simpl in H; lia|].
    assert (Hv : v ∈ filter (λ v, decision v = d) vs)
      by (rewrite E; left).
    apply list_elem_of_filter in Hv as [Hd Hin]. eauto.
  - intros (v & Hin & Hd).
    assert (Hv : v ∈ filter (λ v, decision v = d) vs)
      by (apply list_elem_of_filter; done).
    destruct (filter (λ v, decision v = d) vs);
      [by apply elem_of_nil in Hv | simpl; lia].
Qed.
End ConsensusFacts.

(** C4.  On exactly three votes the consensus follows the ordered rule: an
    unsure vote escalates whatever the other two are; otherwise two or more
    include votes decide include; otherwise two or more exclude votes decide
    exclude.  In particular include-include-include and
    include-include-exclude decide include, exclude-exclude-exclude and
    exclude-exclude-include decide exclude, and include-unsure-include
    escalates. *)
Theorem consensus_ordered_rule (vs : list ScreeningDecision) :
  length vs = 3 →
  ((∃ v, v ∈ vs ∧ decision v = DUnsure) →
     calculateConsensus vs =
     Ok {| needsAdjudication := true; preliminaryConsensus := CEscalate |})
  ∧ ((¬ ∃ v, v ∈ vs ∧ decision v = DUnsure) →
     (2 ≤ countDecision DInclude vs)%nat →
     calculateConsensus vs =
     Ok {| needsAdjudication := false; preliminaryConsensus := CInclude |})
  ∧ ((¬ ∃ v, v ∈ vs ∧ decision v = DUnsure) →
     ¬ (2 ≤ countDecision DInclude vs)%nat →
     (2 ≤ countDecision DExclude vs)%nat →
     calculateConsensus vs =
     Ok {| needsAdjudication := false; preliminaryConsensus := CExclude |})
  ∧ (decision <$> vs = [DInclude; DInclude; DInclude]
     ∨ decision <$> vs = [DInclude; DInclude; DExclude] →
     calculateConsensus vs =
     Ok {| needsAdjudication := false; preliminaryConsensus := CInclude |})
  ∧ (decision <$> vs = [DExclude; DExclude; DExclude]
     ∨ decision <$> vs = [DExclude; DExclude; DInclude] →
     calculateConsensus vs =
     Ok {| needsAdjudication := false; preliminaryConsensus := CExclude |})
  ∧ (∀ d, decision <$> vs = [DInclude; DUnsure; d] →
     calculateConsensus vs =
     Ok {| needsAdjudication := true; preliminaryConsensus := CEscalate |}).
Proof.
  intros Hlen.
  assert (Hcnt : ∀ d, (0 < countDecision d vs)%nat ↔
                      ∃ v, v ∈ vs ∧ decision v = d)
    by (intros d; apply countDecision_pos).
  unfold calculateConsensus. rewrite Hlen. cbn [Nat.eqb negb].
  repeat split.
  - intros Hu. apply Hcnt in Hu.
    destruct (Nat.ltb_spec 0 (countDecision DUnsure vs)); [done | lia].
  - intros Hu Hi.
    destruct (Nat.ltb_spec 0 (countDecision DUnsure vs)) as [H|H];
      [apply Hcnt in H; contradiction|].
    destruct (Nat.leb_spec 2 (countDecision DInclude vs)); [done | lia].
  - intros Hu Hi He.
    destruct (Nat.ltb_spec 0 (countDecision DUnsure vs)) as [H|H];
      [apply Hcnt in H; contradiction|].
    destruct (Nat.leb_spec 2 (countDecision DInclude vs)); [lia|].
    destruct (Nat.leb_spec 2 (countDecision DExclude vs)); [done | lia].
  - destruct (three_votes _ Hlen) as (v1 & v2 & v3 & ->).
    unfold countDecision. rewrite !filter_cons, !filter_nil.
    intros [H|H]; simpl in H; simplify_eq;
      repeat match goal with H : decision _ = _ |- _ => rewrite H end;
      reflexivity.
  - destruct (three_votes _ Hlen) as (v1 & v2 & v3 & ->).
    unfold countDecision. rewrite !filter_cons, !filter_nil.
    intros [H|H]; simpl in H; simplify_eq;
      repeat match goal with H : decision _ = _ |- _ => rewrite H end;
      reflexivity.
  - destruct (three_votes _ Hlen) as (v1 & v2 & v3 & ->).
    unfold countDecision. rewrite !filter_cons, !filter_nil.
    intros d H; simpl in H; simplify_eq.
    repeat match goal with H : decision _ = _ |- _ => rewrite H end.
    destruct (decision v3); reflexivity.
Qed.

Lemma consensus_ordered_rule_witness :
  length (splitVotes studyA) = 3
  ∧ calculateConsensus (splitVotes studyA) =
    Ok {| needsAdjudication := true; preliminaryConsensus := CEscalate |}.
Proof.
  split; [reflexivity|].
  refine (proj1 (consensus_ordered_rule (splitVotes studyA) eq_refl) _).
  exists (demoVote Abstract DUnsure 2 studyA). split; [|reflexivity].
  unfold splitVotes. do 2 right. left.
Defined.

(** C5.  The consensus throws if and only if the number of votes is not 3;
    the exception thrown is the one reporting the count received, and with
    exactly 3 votes a result is returned. *)
Theorem consensus_throws_iff_not_three (vs : list ScreeningDecision) :
  ((∃ e, calculateConsensus vs = Throw e) ↔ length vs ≠ 3)
  ∧ (length vs ≠ 3 →
     calculateConsensus vs = Throw (ExpectedThreeVotes (length vs)))
  ∧ (length vs = 3 → ∃ r, calculateConsensus vs = Ok r).
Proof.
  assert (H3 : length vs = 3 → ∃ r, calculateConsensus vs = Ok r).
  { intros Hlen. destruct (three_votes _ Hlen) as (v1 & v2 & v3 & ->).
    rewrite calculateConsensus_three. eauto. }
  repeat split.
  - intros [e He] Hlen. destruct (H3 Hlen) as [r Hr]. congruence.
  - intros Hlen. eexists. by apply calculateConsensus_wrong_count.
  - apply calculateConsensus_wrong_count.
  - exact H3.
Qed.

Lemma consensus_throws_iff_not_three_witness :
  calculateConsensus
    [demoVote Abstract DInclude 0 studyA; demoVote Abstract DInclude 1 studyA]
  = Throw (ExpectedThreeVotes 2).
Proof.
  refine (proj1 (proj2 (consensus_throws_iff_not_three
    [demoVote Abstract DInclude 0 studyA; demoVote Abstract DInclude 1 studyA]))
    _).
  simpl. lia.
Defined.

(** C9.  On exactly three votes none of which is unsure, the consensus is a
    decision, include or exclude, without adjudication: the final escalate
    branch is not reached. *)
Theorem consensus_decided_without_unsure (vs : list ScreeningDecision) :
  length vs = 3 →
  Forall (λ v, decision v ≠ DUnsure) vs →
  ∃ c, calculateConsensus vs =
       Ok {| needsAdjudication := false; preliminaryConsensus := c |}
       ∧ (c = CInclude ∨ c = CExclude).
Proof.
  intros Hlen Hall.
  destruct (three_votes _ Hlen) as (v1 & v2 & v3 & ->).
  rewrite calculateConsensus_three.
  repeat match goal with
         | H : Forall _ (_ :: _) |- _ => apply Forall_cons in H as [? H]
         end.
  destruct (decision v1), (decision v2), (decision v3); try congruence;
    eexists; (split; [reflexivity|]); auto.
Qed.

Lemma consensus_decided_without_unsure_witness :
  ∃ c, calculateConsensus
         [demoVote Abstract DInclude 0 studyA;
          demoVote Abstract DExclude 1 studyA;
          demoVote Abstract DExclude 2 studyA] =
       Ok {| needsAdjudication := false; preliminaryConsensus := c |}
       ∧ (c = CInclude ∨ c = CExclude).
Proof.
  apply consensus_decided_without_unsure; [reflexivity|].
  repeat constructor; simpl; discriminate.
Defined.

(** ** Deduplication *)

Section DedupeFacts.
Variable sim : string → string → Q.
Variable thr : Q.

Lemma dedupeLoop_fresh l : ∀ acc dups,
  fresh_from sim thr acc l →
  dedupeLoop sim l thr acc dups = {| unique := acc ++ l; duplicates := dups |}.
Proof.
  induction l as [|u l IH]; intros acc dups Hf; simpl.
  - by rewrite app_nil_r.
  - destruct Hf as [Hu Hf]. rewrite Hu, (IH _ _ Hf).
    by rewrite <- app_assoc.
Qed.

Lemma dedupeLoop_unique_fresh l : ∀ acc dups,
  ∃ l', unique (dedupeLoop sim l thr acc dups) = acc ++ l'
        ∧ fresh_from sim thr acc l'.
Proof.
  induction l as [|s l IH]; intros acc dups; simpl.
  - exists []. by rewrite app_nil_r.
  - destruct (findDuplicate sim s acc thr) as [[m r]|] eqn:Hfd.
    + apply IH.
    + destruct (IH (acc ++ [s]) dups) as (l' & Hl' & Hf).
      exists (s :: l'). rewrite Hl', <- app_assoc. by split.
Qed.

Lemma findDuplicate_match s existing m r :
  findDuplicate sim s existing thr = Some (m, r) → m ∈ existing.
Proof.
  induction existing as [|c rest IH]; simpl; [discriminate|].
  destruct (matchCandidate sim s c thr).
  - intros [= <- <-]. left.
  - intros H. right. auto.
Qed.

Lemma trackDuplicate_removed k i r ds :
  removedIds (trackDuplicate k i r ds) ≡ₚ i :: removedIds ds.
Proof.
  unfold removedIds. induction ds as [|d ds IH]; simpl; [done|].
  case_bool_decide; simpl.
  - rewrite <- app_assoc. simpl.
    by rewrite <- Permutation_middle.
  - rewrite IH. by rewrite <- Permutation_middle.
Qed.

Lemma trackDuplicate_kept k i r ds d :
  d ∈ trackDuplicate k i r ds → kept d = k ∨ ∃ d', d' ∈ ds ∧ kept d = kept d'.
Proof.
  induction ds as [|d0 ds IH]; simpl.
  - intros ->%list_elem_of_singleton. by left.
  - case_bool_decide as Hk.
    + intros [->|Hin]%elem_of_cons; simpl; [by left|].
      right. exists d. split; [by right | done].
    + intros [->|Hin]%elem_of_cons.
      * right. exists d0. split; [by left | done].
      * destruct (IH Hin) as [?|(d' & ? & ?)]; [by left|].
        right. exists d'. split; [by right | done].
Qed.

(** What the loop maintains: the ids still to process, the ids of the
    unique list and the removed ids together are a rearrangement of the
    same ids; every [kept] names a unique record. *)
Lemma dedupeLoop_partition l : ∀ acc dups,
  let r := dedupeLoop sim l thr acc dups in
  (study_id <$> unique r) ++ removedIds (duplicates r)
    ≡ₚ (study_id <$> l) ++ (study_id <$> acc) ++ removedIds dups
  ∧ (Forall (λ d, kept d ∈ study_id <$> acc) dups →
     Forall (λ d, kept d ∈ study_id <$> unique r) (duplicates r)).
Proof.
  induction l as [|s l IH]; intros acc dups; simpl.
  - split; [done | auto].
  - destruct (findDuplicate sim s acc thr) as [[m r]|] eqn:Hfd.
    + destruct (IH acc (trackDuplicate (study_id m) (study_id s) r dups))
        as [Hperm Hkept].
      split.
      * rewrite Hperm, trackDuplicate_removed.
        rewrite <- !Permutation_middle. done.
      * intros Hd. apply Hkept. apply Forall_forall.
        intros d [->|(d' & Hd' & ->)]%trackDuplicate_kept.
        -- apply list_elem_of_fmap. exists m. split; [done|].
           eapply findDuplicate_match; eauto.
        -- rewrite Forall_forall in Hd. auto.
    + destruct (IH (acc ++ [s]) dups) as [Hperm Hkept].
      split.
      * rewrite Hperm, fmap_app. simpl.
        rewrite <- !app_assoc. simpl.
        rewrite <- !Permutation_middle. done.
      * intros Hd. apply Hkept. eapply Forall_impl; [exact Hd|].
        simpl. intros d Hin. rewrite fmap_app.
        apply elem_of_app. by left.
Qed.
End DedupeFacts.

(** C7.  Deduplication is idempotent: for every similarity function, input
    and threshold, deduplicating the unique list of a deduplication returns
    that same list as unique and finds no duplicate. *)
Theorem deduplicate_idempotent (sim : string → string → Q)
    (X : list Study) (thr : Q) :
  deduplicateStudies sim (unique (deduplicateStudies sim X thr)) thr =
  {| unique := unique (deduplicateStudies sim X thr); duplicates := [] |}.
Proof.
  unfold deduplicateStudies.
  destruct (dedupeLoop_unique_fresh sim thr X [] []) as (l' & Hl' & Hf).
  simpl in Hl'. rewrite Hl'.
  by rewrite (dedupeLoop_fresh sim thr l' [] [] Hf).
Qed.

(** C10.  Deduplication partitions its input: the ids of the unique records
    together with all removed ids are a rearrangement of the input ids (each
    input record is output exactly once, as a unique record or in one
    entry's removed list), so the two lengths add up to the input length;
    and the [kept] id of every duplicate entry is the id of a unique
    record. *)
Theorem deduplicate_partitions (sim : string → string → Q)
    (X : list Study) (thr : Q) :
  let r := deduplicateStudies sim X thr in
  (study_id <$> unique r) ++ concat (map removed (duplicates r))
    ≡ₚ study_id <$> X
  ∧ (length (unique r) + length (concat (map removed (duplicates r))) =
     length X)%nat
  ∧ Forall (λ d, ∃ u, u ∈ unique r ∧ kept d = study_id u) (duplicates r).
Proof.
  intros r. subst r. unfold deduplicateStudies.
  destruct (dedupeLoop_partition sim thr X [] []) as [Hperm Hkept].
  simpl in Hperm. rewrite app_nil_r in Hperm.
  unfold removedIds in *. split; [exact Hperm|]. split.
  - apply Permutation_length in Hperm.
    rewrite length_app, !length_fmap in Hperm. exact Hperm.
  - specialize (Hkept (Forall_nil_2 _)).
    eapply Forall_impl; [exact Hkept|]. simpl.
    intros d (u & -> & Hu)%list_elem_of_fmap. eauto.
Qed.

(** ** Code at the input of C3 *)

(** C3.  Two records whose DOIs are equal up to letter case: the helper
    [normalizeDoi] maps both DOIs to the same string, yet [findDuplicate]
    compares the raw strings, so that, whenever the titles score below 0.7,
    both records are kept as unique and no duplicate entry is made. *)
Theorem dedupe_doi_compared_raw (sim : string → string → Q) :
  (sim (normalizeTitle (title studyB)) (normalizeTitle (title studyA))
   < 7 # 10)%Q →
  normalizeDoi (doi studyA) = normalizeDoi (doi studyB)
  ∧ deduplicateStudies sim [studyA; studyB] defaultTitleSimilarityThreshold =
    {| unique := [studyA; studyB]; duplicates := [] |}.
Proof.
  intros Hsim. split; [reflexivity|].
  unfold deduplicateStudies. cbn [dedupeLoop findDuplicate app].
  unfold matchCandidate, compareTitles.
  change (truthy (doi studyB) && truthy (doi studyA)
          && bool_decide (doi studyB = doi studyA)) with false.
  cbn match.
  set (q := sim (normalizeTitle (title studyB)) (normalizeTitle (title studyA))).
  change (bool_decide (year studyB = year studyA)) with false.
  cbn [andb].
  destruct (Qgeb q defaultTitleSimilarityThreshold) eqn:Hge; [|reflexivity].
  exfalso. unfold Qgeb in Hge. apply Qle_bool_iff in Hge.
  pose proof (Qle_lt_trans _ _ _ Hge Hsim) as Habs.
  revert Habs. unfold defaultTitleSimilarityThreshold, Qlt. simpl. lia.
Qed.

Lemma dedupe_doi_compared_raw_witness :
  normalizeDoi (doi studyA) = normalizeDoi (doi studyB)
  ∧ deduplicateStudies bigramSimilarity [studyA; studyB]
      defaultTitleSimilarityThreshold =
    {| unique := [studyA; studyB]; duplicates := [] |}.
Proof.
  apply (dedupe_doi_compared_raw bigramSimilarity).
  vm_compute. reflexivity.
Defined.

(** ** Rules for driver computations *)

Section Rules.
Context {A B : Type}.
Implicit Types (P E : World → Prop) (w : World).

Lemma hoare_conseq P P' (m : M A) Q Q' E E' :
  hoare P m Q E →
  (∀ w, P' w → P w) → (∀ a w, Q a w → Q' a w) → (∀ w, E w → E' w) →
  hoare P' m Q' E'.
Proof.
  intros H HP HQ HE w Hw. specialize (H w (HP w Hw)).
  destruct (m w) as [w' [a|e]]; auto.
Qed.

Lemma hoare_pre P P' (m : M A) Q E :
  hoare P m Q E → (∀ w, P' w → P w) → hoare P' m Q E.
Proof. intros H HP. eapply hoare_conseq; eauto. Qed.

Lemma hoare_post P (m : M A) Q Q' E E' :
  hoare P m Q E → (∀ a w, Q a w → Q' a w) → (∀ w, E w → E' w) →
  hoare P m Q' E'.
Proof. intros H HQ HE. eapply hoare_conseq; eauto. Qed.

Lemma hoare_ret P (a : A) Q E :
  (∀ w, P w → Q a w) → hoare P (mret a) Q E.
Proof. intros H w Hw. exact (H w Hw). Qed.

Lemma hoare_throw P e (Q : A → World → Prop) E :
  (∀ w, P w → E w) → hoare P (throw e) Q E.
Proof. intros H w Hw. apply H, Hw. Qed.

Lemma hoare_lift P (r : result A) Q E :
  (∀ a w, r = Ok a → P w → Q a w) → (∀ e w, r = Throw e → P w → E w) →
  hoare P (lift r) Q E.
Proof. intros H1 H2 w Hw. unfold lift. destruct r; eauto. Qed.

Lemma hoare_bind P (m : M A) (k : A → M B) R Q E :
  hoare P m R E → (∀ a, hoare (R a) (k a) Q E) → hoare P (m ≫= k) Q E.
Proof.
  intros Hm Hk w Hw. specialize (Hm w Hw).
  unfold mbind, M_bind. destruct (m w) as [w' [a|e]]; [|done].
  apply Hk, Hm.
Qed.

Lemma hoare_try_catch P (m : M A) h Q E1 E :
  hoare P m Q E1 → (∀ e, hoare E1 (h e) Q E) → hoare P (try_catch m h) Q E.
Proof.
  intros Hm Hh w Hw. specialize (Hm w Hw).
  unfold try_catch. destruct (m w) as [w' [a|e]]; [done|].
  apply Hh, Hm.
Qed.

Lemma hoare_for_each (I : B → World → Prop) (body : A → B → M B) E l :
  (∀ x acc, x ∈ l → hoare (I acc) (body x acc) I E) →
  ∀ acc, hoare (I acc) (for_each body l acc) I E.
Proof.
  unfold hoare. induction l as [|x l IH]; intros Hbody acc w Hw.
  - exact Hw.
  - cbn [for_each]. unfold mbind, M_bind.
    pose proof (Hbody x acc (list_elem_of_here _ _) w Hw) as Hx.
    destruct (body x acc w) as [w' [acc'|e]]; [|done].
    apply IH; [|done]. intros y acc0 Hy. apply Hbody. by right.
Qed.

(** A loop traced record by record: [Inv done acc] holds after the records
    [done] have been processed, leaving the accumulator [acc]; if the loop
    throws, it does so in the body of some record [x], all records before
    [x] having been processed. *)
Lemma for_each_trace (body : A → B → M B)
    (Inv : list A → B → World → Prop) (Crash : list A → World → Prop) :
  (∀ done x acc w w' acc',
     Inv done acc w → body x acc w = (w', Ok acc') →
     Inv (done ++ [x]) acc' w') →
  (∀ done x acc w w' e,
     Inv done acc w → body x acc w = (w', Throw e) → Crash done w') →
  ∀ l done acc w w' res,
    Inv done acc w → for_each body l acc w = (w', res) →
    match res with
    | Ok acc' => Inv (done ++ l) acc' w'
    | Throw _ => ∃ l1 x l2, l = l1 ++ x :: l2 ∧ Crash (done ++ l1) w'
    end.
Proof.
  intros Hok Hthrow. induction l as [|x l IH]; intros done acc w w' res Hinv.
  - intros [= <- <-]. by rewrite app_nil_r.
  - cbn [for_each]. unfold mbind, M_bind.
    destruct (body x acc w) as [w1 [acc1|e]] eqn:Hb.
    + intros Hl. specialize (IH (done ++ [x]) acc1 w1 w' res
                               (Hok _ _ _ _ _ _ Hinv Hb) Hl).
      destruct res.
      * by rewrite <- app_assoc in IH.
      * destruct IH as (l1 & y & l2 & -> & Hc).
        exists (x :: l1), y, l2. split; [done|].
        by rewrite <- app_assoc in Hc.
    + intros [= <- <-]. exists [], x, l. split; [done|].
      rewrite app_nil_r. eauto.
Qed.
End Rules.

Section StoreRules.
Variable env : Oracles.
Context {A : Type}.
Implicit Types (P E : World → Prop) (w : World) (s : GlobalState).

Lemma writeState_ok s :
  writeState env s = Ok () → GlobalStateSchema_ok s = true.
Proof.
  unfold writeState. destruct (fs_mkdir env s); [|done].
  destruct (GlobalStateSchema_ok s); [done|]. done.
Qed.

Lemma hoare_save P (Q : unit → World → Prop) E :
  (∀ w s, P w → mem w = Some s → GlobalStateSchema_ok s = true →
          Q () (push_disk s w)) →
  (∀ w, P w → E w) →
  hoare P (save env) Q E.
Proof.
  intros HQ HE w Hw. unfold save.
  destruct (mem w) as [s|] eqn:Hm; [|by apply HE].
  destruct (writeState env s) as [[]|e] eqn:Hws; [|by apply HE].
  apply HQ; [done..|]. by apply writeState_ok.
Qed.

Lemma hoare_assign P f (Q : unit → World → Prop) E :
  (∀ w, P w → Q () (set_mem (f <$> mem w) w)) →
  hoare P (assign f) Q E.
Proof. intros HQ w Hw. by apply HQ. Qed.

Lemma hoare_append P f (Q : unit → World → Prop) E :
  (∀ w s, P w → mem w = Some s → GlobalStateSchema_ok (f s) = true →
          Q () (push_disk (f s) (set_mem (Some (f s)) w))) →
  (∀ w s, P w → mem w = Some s → E (set_mem (Some (f s)) w)) →
  (∀ w, P w → mem w = None → E w) →
  hoare P (append env f) Q E.
Proof.
  intros HQ HE HN w Hw. unfold append.
  destruct (mem w) as [s|] eqn:Hm; [|by apply HN].
  apply (hoare_save (λ w', w' = set_mem (Some (f s)) w) Q E); [| |done].
  - intros w' s' -> [= <-] Hs. by apply HQ.
  - intros w' ->. by apply HE.
Qed.

Lemma hoare_update P f (Q : unit → World → Prop) E :
  (∀ w s, P w → mem w = Some s → GlobalStateSchema_ok (f s) = true →
          Q () (push_disk (f s) (set_mem (Some (f s)) w))) →
  (∀ w s, P w → mem w = Some s → E (set_mem (Some (f s)) w)) →
  (∀ w, P w → mem w = None → E w) →
  hoare P (update env f) Q E.
Proof. apply hoare_append. Qed.

Lemma hoare_getState P (Q : GlobalState → World → Prop) E :
  (∀ w s, P w → mem w = Some s → Q s w) →
  (∀ w, P w → mem w = None → E w) →
  hoare P getState Q E.
Proof.
  intros HQ HE w Hw. unfold getState.
  destruct (mem w) eqn:Hm; [by apply HQ | by apply HE].
Qed.

Lemma hoare_readSettings P (Q : Config → World → Prop) E :
  (∀ w c, P w → config w = Some c → Q c w) →
  (∀ w, P w → config w = None → E w) →
  hoare P readSettings Q E.
Proof.
  intros HQ HE w Hw. unfold readSettings.
  destruct (config w) eqn:Hm; [by apply HQ | by apply HE].
Qed.

Lemma hoare_load P (Q : unit → World → Prop) E :
  (∀ w s, P w → head (disk w) = Some s → GlobalStateSchema_ok s = true →
          Q () (set_mem (Some s) w)) →
  (∀ w, P w → E w) →
  hoare P load Q E.
Proof.
  intros HQ HE w Hw. unfold load.
  destruct (disk w) as [|s d] eqn:Hd; [by apply HE|].
  destruct (GlobalStateSchema_ok s) eqn:Hs; [|by apply HE].
  apply HQ; [done | by rewrite Hd | done].
Qed.
End StoreRules.

(** *** Invariants kept by every outcome *)

Section Keeps.
Variable env : Oracles.
Variable strict : bool.
Variable p : GlobalState → Prop.
Variable D : list GlobalState → Prop.
Hypothesis HD : disk_closed p D.

Local Abbreviation I := (winv strict p D).

Lemma keeps_ret {A} (a : A) : keeps I (mret a).
Proof. by apply hoare_ret. Qed.

Lemma keeps_throw {A} e : keeps I (throw (A := A) e).
Proof. by apply hoare_throw. Qed.

Lemma keeps_lift {A} (r : result A) : keeps I (lift r).
Proof. by apply hoare_lift. Qed.

Lemma keeps_bind {A B} (m : M A) (k : A → M B) :
  keeps I m → (∀ a, keeps I (k a)) → keeps I (m ≫= k).
Proof. intros Hm Hk. eapply hoare_bind; [exact Hm | exact Hk]. Qed.


Lemma keeps_try_catch {A} (m : M A) h :
  keeps I m → (∀ e, keeps I (h e)) → keeps I (try_catch m h).
Proof. intros Hm Hh. eapply hoare_try_catch; [exact Hm | exact Hh]. Qed.

Lemma winv_push w s :
  I w → mem w = Some s → I (push_disk s w).
Proof.
  intros (H1 & H2 & H3) Hm.
  split; [done|]. split; [done|]. simpl. apply HD; auto.
Qed.

Lemma winv_set_mem w s :
  I w → p s → I (set_mem (Some s) w).
Proof.
  intros (H1 & H2 & H3) Hs. split; [by destruct strict; simpl|].
  split; [|done]. simpl. by intros ? [= <-].
Qed.

Lemma keeps_save : keeps I (save env).
Proof. apply hoare_save; [|done]. intros w s Hw Hm _. by apply winv_push. Qed.

Lemma keeps_getState : keeps I getState.
Proof. by apply hoare_getState. Qed.

Lemma keeps_readSettings : keeps I readSettings.
Proof. by apply hoare_readSettings. Qed.

Lemma keeps_load : disk_sound p D → keeps I load.
Proof.
  intros Hsound. apply hoare_load; [|done]. intros w s Hw Hh _.
  apply winv_set_mem; [done|].
  destruct Hw as (_ & _ & Hd). destruct (disk w); [done|].
  simpl in Hh. simplify_eq. eauto.
Qed.

Lemma keeps_assign f :
  (∀ s, p s → p (f s)) → keeps I (assign f).
Proof.
  intros Hf. apply hoare_assign. intros w (H1 & H2 & H3).
  split; [|split; [|done]]; simpl.
  - destruct strict; [|done]. by apply fmap_is_Some.
  - intros s. destruct (mem w) as [s0|]; simpl; [|done].
    intros [= <-]. auto.
Qed.

Lemma keeps_append f :
  (∀ s, p s → p (f s)) → keeps I (append env f).
Proof.
  intros Hf. apply hoare_append; [| |done].
  - intros w s Hw Hm _. apply winv_push; [|done].
    apply winv_set_mem; [done|]. destruct Hw as (_ & H2 & _). auto.
  - intros w s Hw Hm. apply winv_set_mem; [done|].
    destruct Hw as (_ & H2 & _). auto.
Qed.

Lemma keeps_update f :
  (∀ s, p s → p (f s)) → keeps I (update env f).
Proof. apply keeps_append. Qed.

Lemma keeps_runStageIfDue target stage :
  keeps I stage → keeps I (runStageIfDue target stage).
Proof.
  intros Hs. unfold runStageIfDue. apply keeps_bind; [apply keeps_getState|].
  intros s. destruct (shouldRunStage _ _); [done | apply keeps_ret].
Qed.

(** The handler of [run]: [save] and rethrow. *)
Lemma keeps_handler e : keeps I (save env ;; throw (A := unit) e).
Proof. apply keeps_bind; [apply keeps_save | intros; apply keeps_throw]. Qed.

Lemma keeps_synthesis :
  final_stages_closed p → keeps I (synthesis env).
Proof.
  intros (_ & Hsyn & _). unfold synthesis.
  apply keeps_bind; [apply keeps_getState | intros _].
  apply keeps_bind; [apply keeps_lift | intros _].
  apply keeps_bind; [by apply keeps_assign | intros _].
  apply keeps_save.
Qed.

Lemma keeps_export :
  final_stages_closed p → keeps I (export env).
Proof.
  intros (_ & _ & Hexp). unfold export.
  apply keeps_bind; [apply keeps_getState | intros _].
  apply keeps_bind; [apply keeps_lift | intros _].
  apply keeps_bind; [by apply keeps_assign | intros _].
  apply keeps_save.
Qed.

Lemma keeps_dataExtraction :
  final_stages_closed p → keeps I (dataExtraction env).
Proof.
  intros (Hext & _ & _). unfold dataExtraction.
  apply keeps_bind; [apply keeps_getState | intros st].
  apply keeps_bind; [apply keeps_readSettings | intros _].
  apply keeps_bind; [apply keeps_lift | intros ex].
  apply keeps_bind; [apply keeps_assign; auto | intros _].
  apply keeps_save.
Qed.


Lemma keeps_fullTextScreeningStep crit pdfs study n :
  fulltext_step_closed p →
  keeps I (fullTextScreeningStep env crit pdfs study n).
Proof.
  intros (Hex & Hvs & Hc). unfold fullTextScreeningStep.
  destruct (map_get _ _) as [pdfText|]; [|apply keeps_ret].
  apply keeps_bind; [apply keeps_lift | intros vs].
  apply keeps_bind; [apply keeps_lift | intros c].
  apply keeps_bind.
  { case_bool_decide; [apply keeps_ret | apply keeps_assign; auto]. }
  intros _.
  apply keeps_bind; [apply keeps_append; intros; apply Hvs; auto | intros _].
  apply keeps_bind; [apply keeps_append; intros; apply Hc; auto | intros _].
  apply keeps_ret.
Qed.

Lemma keeps_abstractScreeningStep crit study counts :
  (∀ s vs, p s → p (push_abstract_decisions vs s)) →
  (∀ s c, p s → p (push_abstract_consensus c s)) →
  keeps I (abstractScreeningStep env crit study counts).
Proof.
  intros Hvs Hc. unfold abstractScreeningStep.
  apply keeps_bind; [apply keeps_lift | intros vs].
  apply keeps_bind; [apply keeps_lift | intros c].
  apply keeps_bind; [apply keeps_append; auto | intros _].
  apply keeps_bind; [apply keeps_append; auto | intros _].
  apply keeps_bind; [|intros _; apply keeps_ret].
  destruct (_ =? _)%Z; [by apply keeps_save | apply keeps_ret].
Qed.

End Keeps.

(** ** Resuming *)

Lemma hoare_assume {A} (φ : Prop) P (m : M A) Q E :
  (φ → hoare P m Q E) → hoare (λ w, φ ∧ P w) m Q E.
Proof. intros H w [Hφ Hw]. by apply H. Qed.


Lemma disk_closed_Forall (p q : GlobalState → Prop) :
  (∀ s, p s → q s) → disk_closed p (Forall q).
Proof. intros Hpq s d Hs Hd. constructor; auto. Qed.



Section Resume.
Variable env : Oracles.


(** The three last stages, each run if due. *)
Lemma keeps_final_stages strict p D :
  disk_closed p D → final_stages_closed p →
  keeps (winv strict p D)
    (runStageIfDue Extraction (dataExtraction env) ;;
     runStageIfDue Synthesis (synthesis env) ;;
     runStageIfDue Complete (export env)).
Proof.
  intros HD Hcl.
  apply keeps_bind;
    [by apply keeps_runStageIfDue, keeps_dataExtraction | intros _].
  apply keeps_bind;
    [by apply keeps_runStageIfDue, keeps_synthesis | intros _].
  by apply keeps_runStageIfDue, keeps_export.
Qed.


End Resume.



(** C2.  The driver does not leave out the records that have a verdict.  A
    first [run] stores the verdict of [studyA] and is aborted when the
    reviewers of [studyB] cannot be reached; the snapshot on disk holds one
    verdict and three votes for [studyA], and the stage marker is still
    [Ingested].  Calling [run] again on the same workflow object reloads
    that snapshot and screens every study of the stage: a second verdict
    and three more votes are appended for [studyA]. *)
Lemma resume_rescreens_decided_record :
  current_stage <$> head (disk interruptedWorld) = Some Ingested
  ∧ length ∘ verdictsFor "a1" <$> head (disk interruptedWorld) = Some 1
  ∧ length ∘ votesFor "a1" <$> head (disk interruptedWorld) = Some 3
  ∧ length ∘ verdictsFor "a1" <$> mem retriedWorld = Some 2
  ∧ length ∘ votesFor "a1" <$> mem retriedWorld = Some 6
  ∧ length ∘ verdictsFor "a1" <$> head (disk retriedWorld) = Some 2
  ∧ length ∘ votesFor "a1" <$> head (disk retriedWorld) = Some 6.
Proof. vm_compute. repeat split. Qed.

(** ** One record of a screening stage *)

Section ScreeningSteps.
Variable env : Oracles.
Variable crit : Criteria.

(** When the step returns, the three votes were collected, resolved into a
    verdict, both were appended to the state, and the state written to disk
    last is the state in memory. *)
Lemma abstractScreeningStep_returns study counts w w' counts' :
  abstractScreeningStep env crit study counts w = (w', Ok counts') →
  ∃ st vs c,
    mem w = Some st
    ∧ all_results (λ i, abstractAgent env i study crit) [0; 1; 2]%nat = Ok vs
    ∧ resolveVotes env study vs (Some crit) Abstract None = Ok c
    ∧ mem w' = Some (push_abstract_consensus c (push_abstract_decisions vs st))
    ∧ head (disk w') =
      Some (push_abstract_consensus c (push_abstract_decisions vs st))
    ∧ config w' = config w.
Proof.
  unfold abstractScreeningStep, mbind, M_bind, lift, append, save.
  destruct (all_results _ _) as [vs|e]; [|done].
  destruct (resolveVotes _ _ _ _ _ _) as [c|e] eqn:Hr; [|done].
  destruct (mem w) as [st|] eqn:Hm; [|done]. cbn [mem set_mem].
  destruct (writeState env (push_abstract_decisions vs st)) as [[]|e];
    [|done].
  cbn [mem set_mem push_disk].
  destruct (writeState env _) as [[]|e] eqn:Hws; [|done].
  destruct (_ =? _)%Z; cbn [mem set_mem push_disk mret M_ret].
  - rewrite Hws. intros [= <- _]. by exists st, vs, c.
  - intros [= <- _]. by exists st, vs, c.
Qed.

(** When the step throws from a world whose newest snapshot is the state in
    memory, the verdicts of the newest snapshot are those it had. *)
Lemma abstractScreeningStep_throws study counts w w' e st :
  abstractScreeningStep env crit study counts w = (w', Throw e) →
  mem w = Some st → head (disk w) = Some st →
  ∃ sd, head (disk w') = Some sd
        ∧ abstract_consensus sd = abstract_consensus st.
Proof.
  intros H Hm Hd. revert H.
  unfold abstractScreeningStep, mbind, M_bind, lift, append, save.
  destruct (all_results _ _) as [vs|e0]; [|intros [= <- _]; eauto].
  destruct (resolveVotes _ _ _ _ _ _) as [c|e0]; [|intros [= <- _]; eauto].
  rewrite Hm. cbn [mem set_mem].
  destruct (writeState env (push_abstract_decisions vs st)) as [[]|e0];
    [|intros [= <- _]; eauto].
  cbn [mem set_mem push_disk].
  destruct (writeState env _) as [[]|e0] eqn:Hws;
    [|intros [= <- _]; simpl; eauto].
  destruct (_ =? _)%Z; cbn [mem set_mem push_disk mret M_ret].
  - rewrite Hws. done.
  - done.
Qed.

(** The state after the exclusion, if any, has been noted in the counters. *)
Lemma fullTextScreeningStep_returns copt pdfs study n w w' n' pdfText :
  map_get pdfs (study_id study) = Some pdfText →
  fullTextScreeningStep env copt pdfs study n w = (w', Ok n') →
  ∃ st st1 vs c,
    mem w = Some st
    ∧ all_results (λ i, fulltextAgent env i study pdfText copt) [0; 1; 2]%nat
      = Ok vs
    ∧ resolveVotes env study vs copt Fulltext (Some pdfText) = Ok c
    ∧ fulltext_consensus st1 = fulltext_consensus st
    ∧ fulltext_decisions st1 = fulltext_decisions st
    ∧ mem w' = Some (push_fulltext_consensus c (push_fulltext_decisions vs st1))
    ∧ head (disk w') =
      Some (push_fulltext_consensus c (push_fulltext_decisions vs st1)).
Proof.
  intros Hpdf. unfold fullTextScreeningStep. rewrite Hpdf.
  unfold mbind, M_bind, lift, append, save, assign.
  destruct (all_results _ _) as [vs|e]; [|done].
  destruct (resolveVotes _ _ _ _ _ _) as [c|e] eqn:Hr; [|done].
  destruct (mem w) as [st|] eqn:Hm.
  - case_bool_decide; cbn [mret M_ret mem set_mem fmap option_fmap option_map];
      rewrite ?Hm; cbn [mem set_mem fmap option_fmap option_map];
      (destruct (writeState env _) as [[]|e]; [|done]);
      cbn [mem set_mem push_disk];
      (destruct (writeState env _) as [[]|e]; [|done]);
      intros [= <- _]; eexists st, _, vs, c;
      (split; [done|]); (split; [done|]); (split; [done|]);
      (split; [|split; [|split; reflexivity]]); reflexivity.
  - case_bool_decide; cbn [mret M_ret mem set_mem fmap option_fmap option_map];
      rewrite ?Hm; done.
Qed.

(** The count of included records grows by at most one, and only for a
    record that has a PDF. *)
Lemma fullTextScreeningStep_count copt pdfs study n w w' n' :
  fullTextScreeningStep env copt pdfs study n w = (w', Ok n') →
  n' = n ∨ (has_pdf pdfs study ∧ (n' = n + 1)%Z).
Proof.
  unfold fullTextScreeningStep, has_pdf.
  destruct (map_get _ _) as [pdfText|]; [|intros [= _ <-]; by left].
  unfold mbind, M_bind, lift.
  destruct (all_results _ _) as [vs|e]; [|done].
  destruct (resolveVotes _ _ _ _ _ _) as [c|e]; [|done].
  destruct ((if bool_decide (final_decision c = FInclude) then mret ()
             else assign _) w) as [w1 [[]|e]]; [|done].
  destruct (append env _ w1) as [w2 [[]|e]]; [|done].
  destruct (append env _ w2) as [w3 [[]|e]]; [|done].
  intros [= _ <-]. case_bool_decide; [right | by left]. by split.
Qed.

Lemma fullTextScreeningStep_skips copt pdfs study n w :
  map_get pdfs (study_id study) = None →
  fullTextScreeningStep env copt pdfs study n w = (w, Ok n).
Proof. intros Hpdf. unfold fullTextScreeningStep. by rewrite Hpdf. Qed.

End ScreeningSteps.

(** ** Resolution of the votes *)

Section Resolve.
Variable env : Oracles.

Lemma all_results_length {A B} (f : A → result B) l bs :
  all_results f l = Ok bs → length bs = length l.
Proof.
  revert bs. induction l as [|x l IH]; simpl; intros bs.
  - by intros [= <-].
  - destruct (f x); [|done]. destruct (all_results f l); [|done].
    intros [= <-]. simpl. f_equal. by apply IH.
Qed.

Lemma createConsensusDecision_fields id vs stage rationale c :
  createConsensusDecision id vs stage rationale = Ok c →
  cd_study_id c = id ∧ votes c = vs ∧ cd_stage c = stage.
Proof.
  unfold createConsensusDecision.
  destruct (calculateConsensus vs) as [r|]; [|done].
  repeat case_match; try done; by intros [= <-].
Qed.

Lemma resolveVotes_fields study vs crit stage pdf c :
  resolveVotes env study vs crit stage pdf = Ok c →
  cd_study_id c = study_id study ∧ votes c = vs ∧ cd_stage c = stage.
Proof.
  unfold resolveVotes.
  destruct (calculateConsensus vs) as [r|]; [|done].
  destruct (needsAdjudication r).
  - destruct (adjudicate _ _ _ _ _ _) as [adj|]; [|done].
    destruct (createConsensusDecision _ _ _ _) as [c0|] eqn:Hc; [|done].
    intros [= <-]. by apply createConsensusDecision_fields in Hc.
  - apply createConsensusDecision_fields.
Qed.

(** On escalation the verdict carries the adjudicator's decision and
    rationale; the placeholder of [createConsensusDecision] is overwritten. *)
Lemma resolveVotes_escalated study vs crit stage pdf r adj :
  calculateConsensus vs = Ok r → needsAdjudication r = true →
  adjudicate env study vs crit stage pdf = Ok adj →
  resolveVotes env study vs crit stage pdf =
  if truthy (Some (adj_rationale adj)) then
    Ok {| cd_stage := stage; cd_study_id := study_id study; votes := vs;
          consensus := preliminaryConsensus r;
          final_decision := adj_final_decision adj;
          adjudicator_rationale := Some (adj_rationale adj) |}
  else Throw RationaleRequired.
Proof.
  intros Hc Hn Ha. unfold resolveVotes, createConsensusDecision.
  rewrite Hc, Hn, Ha. destruct (truthy _); reflexivity.
Qed.
End Resolve.

(** C1.  When the three votes of a record meet the escalation condition, the
    verdict that a screening stage stores for the record - appended to the
    state in memory and written to disk - has as final decision the decision
    returned by the adjudicator, at the abstract stage and at the full-text
    stage alike. *)
Theorem escalated_verdict_is_the_adjudicators (env : Oracles)
    (study : Study) (vs : list ScreeningDecision) (r : ConsensusResult)
    (adj : AdjudicatorResponse) (w : World) :
  calculateConsensus vs = Ok r →
  needsAdjudication r = true →
  (∀ crit counts w' counts',
     all_results (λ i, abstractAgent env i study crit) [0; 1; 2]%nat = Ok vs →
     adjudicate env study vs (Some crit) Abstract None = Ok adj →
     abstractScreeningStep env crit study counts w = (w', Ok counts') →
     ∃ st st' c,
       mem w = Some st ∧ mem w' = Some st' ∧ head (disk w') = Some st'
       ∧ abstract_consensus st' = abstract_consensus st ++ [c]
       ∧ cd_study_id c = study_id study ∧ votes c = vs
       ∧ final_decision c = adj_final_decision adj)
  ∧ (∀ crit pdfs pdfText n w' n',
       map_get pdfs (study_id study) = Some pdfText →
       all_results (λ i, fulltextAgent env i study pdfText crit) [0; 1; 2]%nat
       = Ok vs →
       adjudicate env study vs crit Fulltext (Some pdfText) = Ok adj →
       fullTextScreeningStep env crit pdfs study n w = (w', Ok n') →
       ∃ st st' c,
         mem w = Some st ∧ mem w' = Some st' ∧ head (disk w') = Some st'
         ∧ fulltext_consensus st' = fulltext_consensus st ++ [c]
         ∧ cd_study_id c = study_id study ∧ votes c = vs
         ∧ final_decision c = adj_final_decision adj).
Proof.
  intros Hc Hn. split.
  - intros crit counts w' counts' Hvs Hadj Hstep.
    apply abstractScreeningStep_returns in Hstep
      as (st & vs' & c & Hm & Hvs' & Hres & Hm' & Hd' & _).
    rewrite Hvs in Hvs'. injection Hvs' as <-.
    rewrite (resolveVotes_escalated env _ _ _ _ _ r adj Hc Hn Hadj) in Hres.
    destruct (truthy _); [|done]. injection Hres as <-.
    eexists st, _, _. repeat split; [exact Hm | exact Hm' | exact Hd' |..];
      reflexivity.
  - intros crit pdfs pdfText n w' n' Hpdf Hvs Hadj Hstep.
    apply (fullTextScreeningStep_returns env _ _ _ _ _ _ _ _ Hpdf) in Hstep
      as (st & st1 & vs' & c & Hm & Hvs' & Hres & Hc1 & _ & Hm' & Hd').
    rewrite Hvs in Hvs'. injection Hvs' as <-.
    rewrite (resolveVotes_escalated env _ _ _ _ _ r adj Hc Hn Hadj) in Hres.
    destruct (truthy _); [|done]. injection Hres as <-.
    match type of Hm' with
    | _ = Some (push_fulltext_consensus ?c0 ?s0) =>
      exists st, (push_fulltext_consensus c0 s0), c0
    end.
    repeat split; [exact Hm | exact Hm' | exact Hd' |]. simpl. by rewrite Hc1.
Qed.

Lemma escalated_verdict_is_the_adjudicators_witness :
  ∃ st st' c,
    mem ingestedWorld = Some st
    ∧ mem (abstractScreeningStep (splitOracles FExclude) demoCriteria studyA
             (0, 0)%Z ingestedWorld).1 = Some st'
    ∧ head (disk (abstractScreeningStep (splitOracles FExclude) demoCriteria
                    studyA (0, 0)%Z ingestedWorld).1) = Some st'
    ∧ abstract_consensus st' = abstract_consensus st ++ [c]
    ∧ cd_study_id c = study_id studyA ∧ votes c = splitVotes studyA
    ∧ final_decision c = FExclude.
Proof.
  refine (proj1 (escalated_verdict_is_the_adjudicators
            (splitOracles FExclude) studyA (splitVotes studyA)
            {| needsAdjudication := true; preliminaryConsensus := CEscalate |}
            {| adj_final_decision := FExclude;
               adj_rationale := "criteria not met" |}
            ingestedWorld eq_refl eq_refl)
          demoCriteria (0, 0)%Z _ (0, 1)%Z eq_refl eq_refl _).
  vm_compute. reflexivity.
Defined.

(** ** Checkpoints *)

Section Checkpoints.
Variable env : Oracles.

Lemma abstractScreeningStep_checkpoint crit ids0 n0 done x acc w w' acc' :
  abstractCheckpoint ids0 n0 done w →
  abstractScreeningStep env crit x acc w = (w', Ok acc') →
  abstractCheckpoint ids0 n0 (done ++ [x]) w'.
Proof.
  intros (st & Hm & Hd & Hids & Hlen) Hstep.
  apply abstractScreeningStep_returns in Hstep
    as (st0 & vs & c & Hm0 & Hvs & Hres & Hm' & Hd' & _).
  rewrite Hm in Hm0. injection Hm0 as <-.
  apply all_results_length in Hvs.
  apply resolveVotes_fields in Hres as (Hid & _ & _).
  eexists. split; [exact Hm'|]. split; [exact Hd'|]. simpl. split.
  - rewrite !fmap_app, Hids, <- app_assoc. simpl. by rewrite Hid.
  - rewrite !length_app, Hlen, Hvs. simpl. lia.
Qed.

Lemma abstractScreeningStep_salvage crit ids0 n0 done x acc w w' e :
  abstractCheckpoint ids0 n0 done w →
  abstractScreeningStep env crit x acc w = (w', Throw e) →
  abstractSalvage ids0 done w'.
Proof.
  intros (st & Hm & Hd & Hids & Hlen) Hstep.
  destruct (abstractScreeningStep_throws env _ _ _ _ _ _ _ Hstep Hm Hd)
    as (sd & Hd' & Hsd).
  exists sd. split; [done|]. by rewrite Hsd.
Qed.


(** [abstractScreening] keeps no list of the studies already decided: when
    it runs to its end it has appended one verdict and three votes for every
    study of the state, whatever verdicts the state held before. *)
Lemma abstractScreening_screens_every_study w w' st :
  mem w = Some st →
  head (disk w) = Some st →
  abstractScreening env w = (w', Ok ()) →
  ∃ st', mem w' = Some st'
    ∧ cd_study_id <$> abstract_consensus st' =
      (cd_study_id <$> abstract_consensus st) ++ (study_id <$> studies st)
    ∧ length (abstract_decisions st') =
      length (abstract_decisions st) + 3 * length (studies st).
Proof.
  intros Hm Hd. unfold abstractScreening.
  unfold mbind at 1. unfold M_bind, getState. rewrite Hm.
  destruct (criteria st) as [crit|]; [|done].
  unfold mbind at 1. unfold M_bind, readSettings.
  destruct (config w); [|done].
  unfold mbind at 1. unfold M_bind.
  destruct (for_each _ _ _ w) as [w1 [counts|e]] eqn:Hloop; [|done].
  apply (for_each_trace (abstractScreeningStep env crit)
           (λ done _,
              abstractCheckpoint (cd_study_id <$> abstract_consensus st)
                (length (abstract_decisions st)) done)
           (abstractSalvage (cd_study_id <$> abstract_consensus st))
           (abstractScreeningStep_checkpoint crit _ _)
           (abstractScreeningStep_salvage crit _ _)
           (studies st) [] (0, 0)%Z w w1 (Ok counts)) in Hloop.
  2: { exists st. simpl. rewrite app_nil_r. repeat split; [done..|lia]. }
  destruct Hloop as (st1 & Hm1 & _ & Hids & Hlen). simpl in Hids.
  unfold mbind, M_bind, assign, save. cbn [mem set_mem]. rewrite Hm1.
  cbn [fmap option_fmap option_map].
  destruct (writeState env _); [|done].
  destruct (counts.1 >? 0)%Z.
  - unfold generatePdfDownloadTable, mbind, M_bind, getState, lift.
    cbn [mem push_disk set_mem].
    destruct (Nat.eqb _ 0).
    + intros [= <-]. eexists. split; [done|]. by split.
    + destruct (writeArtifact env _); [|done].
      intros [= <-]. eexists. split; [done|]. by split.
  - intros [= <-]. eexists. split; [done|]. by split.
Qed.
End Checkpoints.



(** ** The funnel counters *)

Section DedupeDistinct.
Variable sim : string → string → Q.
Variable thr : Q.
Hypothesis Hself : ∀ t, (thr <= sim t t)%Q.

Lemma findDuplicate_None u ex :
  findDuplicate sim u ex thr = None →
  ∀ c, c ∈ ex → matchCandidate sim u c thr = None.
Proof.
  induction ex as [|c0 ex IH]; simpl; intros H c Hc.
  - by apply elem_of_nil in Hc.
  - destruct (matchCandidate sim u c0 thr) eqn:Hm; [done|].
    apply elem_of_cons in Hc as [->|Hc]; auto.
Qed.

Lemma matchCandidate_same_title u c :
  normalizeTitle (title u) = normalizeTitle (title c) →
  matchCandidate sim u c thr ≠ None.
Proof.
  intros Ht. unfold matchCandidate, compareTitles. rewrite Ht.
  destruct (_ && _); [done|].
  assert (Hge : Qgeb (sim (normalizeTitle (title c))
                          (normalizeTitle (title c))) thr = true).
  { unfold Qgeb. apply Qle_bool_iff, Hself. }
  by rewrite Hge.
Qed.

Lemma fresh_from_NoDup l : ∀ acc,
  (∀ a b, a ∈ acc ++ l → b ∈ acc ++ l → study_id a = study_id b →
          normalizeTitle (title a) = normalizeTitle (title b)) →
  fresh_from sim thr acc l →
  NoDup (study_id <$> acc) → NoDup (study_id <$> acc ++ l).
Proof.
  induction l as [|u l IH]; intros acc Hids Hf Hnd.
  - by rewrite app_nil_r.
  - destruct Hf as [Hu Hf]. rewrite cons_middle, app_assoc.
    apply IH; [by rewrite <- app_assoc | done |].
    rewrite fmap_app. simpl. apply NoDup_app. split; [done|]. split.
    + intros i Hi [->|Hn]%elem_of_cons; [|by apply elem_of_nil in Hn].
      apply list_elem_of_fmap in Hi as (c & Hic & Hc).
      apply (matchCandidate_same_title u c).
      * apply Hids; [| |done].
        -- apply elem_of_app. right. left.
        -- apply elem_of_app. by left.
      * by apply (findDuplicate_None u acc).
    + apply NoDup_singleton.
Qed.

Lemma dedupeLoop_unique_subset l : ∀ acc dups u,
  u ∈ unique (dedupeLoop sim l thr acc dups) → u ∈ acc ∨ u ∈ l.
Proof.
  induction l as [|s l IH]; intros acc dups u; simpl; [by left|].
  destruct (findDuplicate sim s acc thr) as [[m r]|].
  - intros [?|?]%IH; [by left | right; by right].
  - intros [Hu|Hu]%IH; [|right; by right].
    apply elem_of_app in Hu as [Hu|Hu]; [by left|].
    apply list_elem_of_singleton in Hu as ->. right. left.
Qed.

Lemma deduplicate_NoDup X :
  (∀ a b, a ∈ X → b ∈ X → study_id a = study_id b →
          normalizeTitle (title a) = normalizeTitle (title b)) →
  NoDup (study_id <$> unique (deduplicateStudies sim X thr)).
Proof.
  intros Hids. unfold deduplicateStudies.
  destruct (dedupeLoop_unique_fresh sim thr X [] []) as (l' & Hl' & Hf).
  simpl in Hl'.
  assert (Hsub : ∀ u, u ∈ l' → u ∈ X).
  { intros u Hu. rewrite <- Hl' in Hu.
    apply dedupeLoop_unique_subset in Hu as [Hu|Hu]; [|done].
    by apply elem_of_nil in Hu. }
  rewrite Hl'. apply (fresh_from_NoDup l' []); [|done|constructor].
  simpl. intros a b Ha Hb. apply Hids; auto.
Qed.
End DedupeDistinct.

Lemma deduplicate_length sim X thr :
  (length (unique (deduplicateStudies sim X thr)) ≤ length X)%nat.
Proof.
  destruct (dedupeLoop_partition sim thr X [] []) as [Hperm _].
  apply Permutation_length in Hperm. simpl in Hperm.
  rewrite !length_app, !length_fmap in Hperm. simpl in Hperm.
  unfold deduplicateStudies. lia.
Qed.

Section ListFacts.
Context {A : Type} `{EqDecision A}.

Lemma remove_dups_length_le (l : list A) :
  (length (remove_dups l) ≤ length l)%nat.
Proof.
  induction l as [|x l IH]; simpl; [done|].
  destruct (decide_rel _ _ _); simpl; lia.
Qed.

Lemma remove_dups_NoDup_id (l : list A) : NoDup l → remove_dups l = l.
Proof.
  induction 1 as [|x l Hx Hl IH]; simpl; [done|].
  destruct (decide_rel _ _ _); [done | by rewrite IH].
Qed.
End ListFacts.

Lemma filter_fmap_length_le (P : Study → Prop) (V : string → Prop)
    `{∀ s, Decision (P s)} `{∀ i, Decision (V i)} (l : list Study) :
  (∀ s, P s → V (study_id s)) →
  (length (filter P l) ≤ length (filter V (study_id <$> l)))%nat.
Proof.
  intros HPV. induction l as [|s l IH]; [done|].
  rewrite fmap_cons, !filter_cons.
  destruct (decide (P s)) as [HP|HP].
  - rewrite decide_True by auto. simpl. lia.
  - destruct (decide (V (study_id s))); simpl; lia.
Qed.

Lemma includedStudiesOf_sublist cs ss :
  study_id <$> includedStudiesOf cs ss `sublist_of` cd_study_id <$> cs.
Proof.
  unfold includedStudiesOf. induction cs as [|c cs IH]; [done|].
  rewrite filter_cons, fmap_cons.
  destruct (decide (final_decision c = FInclude)); [|by apply sublist_cons].
  simpl. destruct (find _ ss) as [s|] eqn:Hfind; [|by apply sublist_cons].
  apply find_some in Hfind as [_ Hs]. apply bool_decide_eq_true in Hs.
  simpl. rewrite Hs. by apply sublist_skip.
Qed.

Section Funnel.
Variable env : Oracles.
Hypothesis Hids : ids_follow_titles env.
Hypothesis Hself : self_similar env.
Hypothesis Hpdf : stable_pdfs env.

Local Abbreviation K := funnelWorld.

Lemma closed_funnel : disk_closed funnelS (Forall funnelS).
Proof. by apply disk_closed_Forall. Qed.

Lemma funnel_of_ready n c : ready_counts n c → funnel_ok c.
Proof. unfold ready_counts, funnel_ok. lia. Qed.

Lemma funnel_of_zero c : zero_counts c → funnel_ok c.
Proof. unfold zero_counts, funnel_ok. lia. Qed.

Lemma funnel_set w s : K w → funnelS s → K (set_mem (Some s) w).
Proof. intros Hw Hs. by apply winv_set_mem. Qed.

Lemma funnel_write w s :
  K w → funnelS s → K (push_disk s (set_mem (Some s) w)).
Proof.
  intros Hw Hs. apply (winv_push false _ _ closed_funnel); [|done].
  by apply funnel_set.
Qed.

Lemma funnel_push w s : K w → mem w = Some s → K (push_disk s w).
Proof. apply (winv_push false _ _ closed_funnel). Qed.

Lemma funnel_mem w s : K w → mem w = Some s → funnelS s.
Proof. intros (_ & Hp & _) Hm. by apply Hp. Qed.

Lemma final_stages_closed_funnel : final_stages_closed funnelS.
Proof.
  unfold final_stages_closed, funnelS. split; [|split]; intros; assumption.
Qed.

Lemma hoare_init crit runId :
  hoare (λ w, mem w = None ∧ disk w = []) (init env crit runId)
    (λ _ w, K w ∧ inState pristine w ∧ configured env w) K.
Proof.
  assert (H0 : zero_counts initialCounts) by (by repeat split).
  intros w [Hm Hd].
  assert (Hw : K w).
  { split; [done|]. split; [by rewrite Hm | by rewrite Hd]. }
  assert (Hc : ∀ c, K (set_config c w)) by (intros c; exact Hw).
  unfold init, mbind, M_bind, lift, setConfig, store_init, update, save.
  destruct (readConfig env) as [cfg|e] eqn:Hcfg; [|exact Hw].
  cbn [mem set_mem set_config].
  destruct (writeState env (initialState runId)) as [[]|e];
    cbn [mem set_mem push_disk set_config];
    [|by apply funnel_set, funnel_of_zero].
  destruct (writeState env _) as [[]|e].
  - split; [|split].
    + do 2 (apply funnel_write; [|by apply funnel_of_zero]). apply Hc.
    + eexists. split; [reflexivity|]. by repeat split.
    + by exists cfg.
  - apply funnel_set; [|by apply funnel_of_zero].
    apply funnel_write; [apply Hc | by apply funnel_of_zero].
Qed.

Lemma hoare_ingest files :
  hoare (λ w, K w ∧ inState pristine w ∧ configured env w) (ingest env files)
    (λ _ w, K w ∧ inState fresh_ready w) K.
Proof.
  unfold ingest.
  set (P := λ w, K w ∧ inState pristine w ∧ configured env w).
  eapply hoare_bind with (R := λ all w, P w ∧ parsed env all).
  { eapply hoare_pre;
      [apply (hoare_for_each (λ all w, P w ∧ parsed env all))|].
    2: { intros w Hw. split; [exact Hw|]. intros a Ha.
         by apply elem_of_nil in Ha. }
    intros file acc _.
    eapply hoare_bind with
      (R := λ l w, (P w ∧ parsed env acc) ∧ parseSearchFile env file = Ok l).
    - apply hoare_lift; [done | by intros e w _ [[Hw _] _]].
    - intros l. apply hoare_ret. intros w [[Hw Hacc] Hl].
      split; [done|]. intros a [Ha|Ha]%elem_of_app; [by apply Hacc | eauto]. }
  intros allStudies.
  eapply hoare_bind with
    (R := λ cfg w, (P w ∧ parsed env allStudies) ∧ readConfig env = Ok cfg).
  { apply hoare_readSettings.
    - intros w c [HP Hp] Hc. split; [done|].
      destruct HP as (_ & _ & (c' & Hc' & Hr)). congruence.
    - by intros w [[Hw _] _] _. }
  intros cfg.
  set (r := deduplicateStudies _ _ _).
  eapply hoare_pre with
    (P := λ w, (parsed env allStudies ∧ readConfig env = Ok cfg)
               ∧ (K w ∧ inState pristine w));
    [|by intros w [[(? & ? & _) ?] ?]].
  apply hoare_assume. intros [Hparsed Hcfg].
  assert (Hnd : NoDup (study_id <$> unique r)).
  { apply deduplicate_NoDup; [intros t; by apply Hself|].
    intros a b (fa & la & Hfa & Ha)%Hparsed (fb & lb & Hfb & Hb)%Hparsed.
    by apply (Hids fa fb la lb). }
  assert (Hlen : (Z.of_nat (length allStudies) >=
                  Z.of_nat (length (unique r)))%Z).
  { pose proof (deduplicate_length (compareTwoStrings env) allStudies
                  (title_similarity cfg)). subst r. lia. }
  eapply hoare_bind with
    (R := λ _ w, K w ∧ ∃ s, pristine s
            ∧ mem w = Some (with_stage Ingested (with_studies (unique r) s))).
  { apply hoare_update.
    - intros w s [Hw (s' & Hm' & Hz)] Hm _.
      rewrite Hm in Hm'. injection Hm' as <-. split.
      + apply funnel_write; [done|]. apply funnel_of_zero, Hz.
      + by exists s.
    - intros w s [Hw (s' & Hm' & Hz)] Hm.
      rewrite Hm in Hm'. injection Hm' as <-.
      apply funnel_set; [done|]. apply funnel_of_zero, Hz.
    - by intros w [Hw _] _. }
  intros ?.
  eapply hoare_bind with (R := λ _ w, K w ∧ inState fresh_ready w).
  { apply hoare_assign. intros w [Hw (s & (Hz & Hst & Hac & Hg) & Hm)].
    rewrite Hm.
    assert (Hr : ready_counts (Z.of_nat (length (unique r)))
                   (counts_ingested (Z.of_nat (length allStudies))
                      (Z.of_nat (length (unique r))) (prisma_counts s))).
    { unfold zero_counts in Hz. unfold ready_counts. simpl. lia. }
    split.
    - apply funnel_set; [done|]. by eapply funnel_of_ready.
    - eexists. split; [reflexivity|]. split; [exact Hr|].
      split; [exact Hac|]. split; [exact Hnd|]. by right. }
  intros ?.
  apply hoare_save; [|by intros w [Hw _]].
  intros w s [Hw Hs] Hm _. split; [by apply funnel_push | exact Hs].
Qed.

Lemma hoare_generatePdfDownloadTable P E :
  (∀ w, P w → E w) →
  hoare P (generatePdfDownloadTable env) (λ _, P) E.
Proof.
  intros HE w Hw. unfold generatePdfDownloadTable, mbind, M_bind, getState.
  destruct (mem w); [|by apply HE].
  destruct (Nat.eqb _ _); [exact Hw|].
  unfold lift. destruct (writeArtifact env _); [exact Hw | by apply HE].
Qed.

Lemma hoare_runStageIfDue P target stage Q E :
  hoare P stage Q E →
  (∀ w s, P w → mem w = Some s →
          shouldRunStage (current_stage s) target = true) →
  (∀ w, P w → mem w = None → E w) →
  hoare P (runStageIfDue target stage) Q E.
Proof.
  intros Hstage Hdue Hnone w Hw.
  unfold runStageIfDue, mbind, M_bind, getState.
  destruct (mem w) as [s|] eqn:Hm; [|by apply Hnone].
  rewrite (Hdue w s Hw Hm). by apply Hstage.
Qed.

Lemma hoare_getState_in (S : GlobalState → Prop) :
  hoare (λ w, K w ∧ inState S w) getState
    (λ state w, S state ∧ (K w ∧ mem w = Some state)) K.
Proof.
  apply hoare_getState.
  - intros w s [Hw (s' & Hm' & Hs)] Hm.
    rewrite Hm in Hm'. injection Hm' as <-. done.
  - by intros w [Hw _] _.
Qed.

Lemma hoare_abstractScreening :
  hoare (λ w, K w ∧ inState fresh_ready w) (abstractScreening env)
    (λ _ w, K w ∧ inState screened_ok w) K.
Proof.
  unfold abstractScreening.
  eapply hoare_bind; [apply hoare_getState_in|]. intros state.
  apply hoare_assume. intros (Hready & Hcons & Hnd & Hstage).
  destruct (criteria state) as [crit|];
    [|by apply hoare_throw; intros w [Hw _]].
  set (p := λ s, prisma_counts s = prisma_counts state
                 ∧ studies s = studies state).
  assert (Hpf : ∀ s, p s → funnelS s).
  { intros s [Hc _]. unfold funnelS. rewrite Hc. by eapply funnel_of_ready. }
  assert (HJ : disk_closed p (Forall funnelS))
    by (by apply disk_closed_Forall).
  assert (HJK : ∀ w, winv true p (Forall funnelS) w → K w).
  { intros w (_ & Hp & Hd). split; [done|]. split; [|done]. auto. }
  eapply hoare_bind with (R := λ _ w, K w ∧ mem w = Some state).
  { apply hoare_readSettings; [done | by intros w [Hw _] _]. }
  intros ?.
  eapply hoare_bind with
    (R := λ _ w, winv true p (Forall funnelS) w
                 ∧ ∃ s, mem w = Some s
                        ∧ cd_study_id <$> abstract_consensus s =
                          study_id <$> studies state).
  { intros w [Hw Hm].
    destruct (for_each _ _ _ w) as [w' res] eqn:Hloop.
    set (Inv := λ (done : list Study) (_ : Z * Z) w,
           winv true p (Forall funnelS) w
           ∧ ∃ s, mem w = Some s
                  ∧ cd_study_id <$> abstract_consensus s = study_id <$> done).
    assert (Hok : ∀ done x acc w0 w1 acc',
              Inv done acc w0 →
              abstractScreeningStep env crit x acc w0 = (w1, Ok acc') →
              Inv (done ++ [x]) acc' w1).
    { intros done x acc w0 w1 acc' [HJ0 (s & Hm0 & Hids0)] Hstep. split.
      - pose proof (keeps_abstractScreeningStep env true p _ HJ crit x acc
                      (λ _ _ H, H) (λ _ _ H, H) w0 HJ0) as Hk.
        by rewrite Hstep in Hk.
      - apply abstractScreeningStep_returns in Hstep
          as (st0 & vs & c & Hm1 & _ & Hres & Hm' & _).
        rewrite Hm0 in Hm1. injection Hm1 as <-.
        apply resolveVotes_fields in Hres as (Hid & _ & _).
        eexists. split; [exact Hm'|]. simpl.
        rewrite !fmap_app, Hids0. simpl. by rewrite Hid. }
    assert (Hthrow : ∀ done x acc w0 w1 e,
              Inv done acc w0 →
              abstractScreeningStep env crit x acc w0 = (w1, Throw e) →
              K w1).
    { intros done x acc w0 w1 e [HJ0 _] Hstep. apply HJK.
      pose proof (keeps_abstractScreeningStep env true p _ HJ crit x acc
                    (λ _ _ H, H) (λ _ _ H, H) w0 HJ0) as Hk.
      by rewrite Hstep in Hk. }
    assert (Hinit : Inv [] (0, 0)%Z w).
    { split.
      - split; [by eexists|]. split; [|by destruct Hw as (_ & _ & ?)].
        intros s Hs. rewrite Hm in Hs. by injection Hs as <-.
      - exists state. split; [done|]. by rewrite Hcons. }
    pose proof (for_each_trace (abstractScreeningStep env crit) Inv (λ _, K)
                  Hok Hthrow (studies state) [] (0, 0)%Z w w' res
                  Hinit Hloop) as Ht.
    destruct res; [exact Ht|]. by destruct Ht as (? & ? & ? & _ & ?). }
  intros counts.
  eapply hoare_bind with (R := λ _ w, K w ∧ inState screened_ok w).
  { apply hoare_assign. intros w [HJw (s & Hm & Hidsc)]. rewrite Hm.
    destruct HJw as (_ & Hp & Hd). destruct (Hp s Hm) as [Hc Hst].
    assert (Hf : funnel_ok
                   (counts_screened (Z.of_nat (length (studies state)))
                      counts.2 (prisma_counts s))).
    { rewrite Hc. unfold ready_counts in Hready. unfold funnel_ok. simpl.
      lia. }
    split.
    - split; [done|]. split; [|done]. simpl. by intros ? [= <-].
    - eexists. split; [reflexivity|]. unfold screened_ok. simpl.
      split; [exact Hf|]. rewrite Hst, Hc. unfold ready_counts in Hready.
      repeat split; tauto || done. }
  intros ?.
  eapply hoare_bind with (R := λ _ w, K w ∧ inState screened_ok w).
  { apply hoare_save; [|by intros w [Hw _]].
    intros w s [Hw Hs] Hm _. split; [by apply funnel_push | exact Hs]. }
  intros ?.
  destruct (_ >? _)%Z; [|by apply hoare_ret].
  apply hoare_generatePdfDownloadTable. by intros w [Hw _].
Qed.

Lemma available_length ss :
  (length (checkAvailablePdfs env ss).1 ≤ length ss)%nat.
Proof.
  unfold checkAvailablePdfs. simpl.
  etrans; [apply remove_dups_length_le|].
  etrans; [apply length_filter|]. by rewrite length_map.
Qed.

Lemma hoare_pdfFetchingGate :
  hoare (λ w, K w ∧ inState screened_ok w) (pdfFetchingGate env)
    (λ _ w, K w ∧ inState (gated env) w) K.
Proof.
  unfold pdfFetchingGate.
  eapply hoare_bind; [apply hoare_getState_in|]. intros state.
  apply hoare_assume.
  intros (Hf & Hscr & Hret & Hinc & Hcids & Hnd & Hstage).
  eapply hoare_bind with (R := λ _ w, K w ∧ mem w = Some state).
  { apply hoare_readSettings; [done | by intros w [Hw _] _]. }
  intros ?.
  eapply hoare_bind with (R := λ _ w, K w ∧ mem w = Some state).
  { apply hoare_lift; [done | by intros e w _ [Hw _]]. }
  intros ?.
  destruct (checkAvailablePdfs _ _) as [available missing] eqn:Hav.
  eapply hoare_bind with (R := λ _ w, K w ∧ mem w = Some state).
  { destruct (Nat.ltb _ _); [|by apply hoare_ret].
    apply hoare_lift; [done | by intros e w _ [Hw _]]. }
  intros ?.
  assert (Hsub := includedStudiesOf_sublist (abstract_consensus state)
                    (studies state)).
  assert (Hlen : (length available ≤ length (studies state))%nat).
  { pose proof (available_length
                  (includedStudiesOf (abstract_consensus state)
                                     (studies state))) as Ha.
    rewrite Hav in Ha. simpl in Ha.
    apply sublist_length in Hsub. rewrite Hcids, !length_fmap in Hsub. lia. }
  eapply hoare_bind with (R := λ _ w, K w ∧ inState (gated env) w).
  { apply hoare_assign. intros w [Hw Hm]. rewrite Hm.
    assert (Hf' : funnel_ok (counts_retrieved (Z.of_nat (length available))
                               (prisma_counts state))).
    { unfold funnelS, funnel_ok in Hf. unfold funnel_ok. simpl. lia. }
    split.
    - by apply funnel_set.
    - eexists. split; [reflexivity|]. unfold gated.
      cbn [abstract_consensus studies with_counts with_stage
           with_missing_pdfs prisma_counts current_stage counts_retrieved
           fulltext_retrieved included].
      rewrite Hav.
      split; [exact Hf'|]. split; [done|]. split; [done|].
      split; [|done]. eapply sublist_NoDup; [|exact Hsub]. by rewrite Hcids. }
  intros ?.
  apply hoare_save; [|by intros w [Hw _]].
  intros w s [Hw Hs] Hm _. split; [by apply funnel_push | exact Hs].
Qed.

Lemma map_get_extractAll ss : ∀ m k,
  is_Some (map_get (extractAll env ss m) k) →
  is_Some (map_get m k) ∨ ∃ pdf, extractPdfText env k = Ok pdf.
Proof.
  induction ss as [|s ss IH]; intros m k; simpl; [by left|].
  destruct (extractPdfText env (study_id s)) as [pdf|e] eqn:Hex; [|apply IH].
  intros [Hm|Hx]%IH; [|by right].
  unfold map_get in Hm. simpl in Hm. case_bool_decide as Hk.
  - right. exists pdf. by rewrite <- Hk.
  - by left.
Qed.

Lemma has_pdf_valid ss s :
  has_pdf (extractAll env ss []) s → validPdf env (study_id s) = true.
Proof.
  intros [Hm|[pdf Hx]]%map_get_extractAll.
  - by destruct Hm.
  - by eapply Hpdf.
Qed.

Lemma fulltext_step_closed_retrieved a :
  fulltext_step_closed
    (λ s, funnelS s ∧ fulltext_retrieved (prisma_counts s) = a).
Proof.
  unfold fulltext_step_closed.
  split; [|split]; intros s ? [Hf Hr]; (split; [exact Hf | exact Hr]).
Qed.

Lemma hoare_fullTextScreening :
  hoare (λ w, K w ∧ inState (gated env) w) (fullTextScreening env)
    (λ _, K) K.
Proof.
  unfold fullTextScreening.
  eapply hoare_bind; [apply hoare_getState_in|]. intros state.
  apply hoare_assume. intros (Hf & Hinc & Hret & Hnd & Hstage).
  set (incl := includedStudiesOf (abstract_consensus state) (studies state))
    in *.
  set (pdfs := extractAll env incl []).
  set (a := fulltext_retrieved (prisma_counts state)).
  set (p := λ s, funnelS s ∧ fulltext_retrieved (prisma_counts s) = a).
  assert (HJ : disk_closed p (Forall funnelS))
    by (apply disk_closed_Forall; by intros s [? _]).
  assert (HJK : ∀ w, winv true p (Forall funnelS) w → K w).
  { intros w (_ & Hp & Hd). split; [done|]. split; [|done].
    intros s Hs. by destruct (Hp s Hs). }
  assert (Hbound : (Z.of_nat (length (filter (has_pdf pdfs) incl)) <= a)%Z).
  { subst a. rewrite Hret. unfold checkAvailablePdfs. cbn [fst].
    rewrite remove_dups_NoDup_id by (by apply NoDup_filter).
    apply inj_le.
    apply (filter_fmap_length_le (has_pdf pdfs)
             (λ i, validPdf env i = true)).
    intros s. apply has_pdf_valid. }
  eapply hoare_bind with (R := λ _ w, K w ∧ mem w = Some state).
  { apply hoare_readSettings; [done | by intros w [Hw _] _]. }
  intros ?.
  eapply hoare_bind with
    (R := λ n w, winv true p (Forall funnelS) w ∧ (n <= a)%Z).
  { intros w [Hw Hm].
    destruct (for_each _ _ _ w) as [w' res] eqn:Hloop.
    set (Inv := λ (done : list Study) (n : Z) w,
           winv true p (Forall funnelS) w
           ∧ (n <= Z.of_nat (length (filter (has_pdf pdfs) done)))%Z).
    assert (Hkeep : ∀ x n w0,
              winv true p (Forall funnelS) w0 →
              winv true p (Forall funnelS)
                (fullTextScreeningStep env (criteria state) pdfs x n w0).1).
    { intros x n w0 HJ0.
      pose proof (keeps_fullTextScreeningStep env true p _ HJ
                    (criteria state) pdfs x n
                    (fulltext_step_closed_retrieved a) w0 HJ0) as Hk.
      by destruct (fullTextScreeningStep _ _ _ _ _ _) as [w1 [n1|e]]. }
    assert (Hok : ∀ done x n w0 w1 n',
              Inv done n w0 →
              fullTextScreeningStep env (criteria state) pdfs x n w0
              = (w1, Ok n') →
              Inv (done ++ [x]) n' w1).
    { intros done x n w0 w1 n' [HJ0 Hn] Hstep. split.
      - specialize (Hkeep x n w0 HJ0). by rewrite Hstep in Hkeep.
      - rewrite filter_app, length_app, filter_cons.
        apply fullTextScreeningStep_count in Hstep as [->|[Hx ->]].
        + lia.
        + rewrite decide_True by done. simpl. lia. }
    assert (Hthrow : ∀ done x n w0 w1 e,
              Inv done n w0 →
              fullTextScreeningStep env (criteria state) pdfs x n w0
              = (w1, Throw e) →
              K w1).
    { intros done x n w0 w1 e [HJ0 _] Hstep. apply HJK.
      specialize (Hkeep x n w0 HJ0). by rewrite Hstep in Hkeep. }
    assert (Hinit : Inv [] 0%Z w).
    { split; [|simpl; lia].
      split; [by eexists|]. split; [|by destruct Hw as (_ & _ & ?)].
      intros s Hs. rewrite Hm in Hs. injection Hs as <-. by split. }
    pose proof (for_each_trace
                  (fullTextScreeningStep env (criteria state) pdfs)
                  Inv (λ _, K) Hok Hthrow incl [] 0%Z w w' res
                  Hinit Hloop) as Ht.
    destruct res as [n|e]; [|by destruct Ht as (? & ? & ? & _ & ?)].
    destruct Ht as [HJ' Hn]. split; [exact HJ'|]. simpl in Hn. lia. }
  intros n.
  eapply hoare_bind with (R := λ _, K).
  { apply hoare_assign. intros w [(_ & Hp & Hd) Hn].
    split; [done|]. split; [|done]. simpl.
    destruct (mem w) as [s|] eqn:Hm; simpl; [|done]. intros ? [= <-].
    destruct (Hp s eq_refl) as [Hfs Hrs].
    unfold funnelS, funnel_ok in *. simpl. lia. }
  intros ?. apply (keeps_save env false _ _ closed_funnel).
Qed.

(** What [run] does first when there is no state on disk. *)
Lemma hoare_fresh (k1 k : M unit) P Q E :
  hoare P (k1 ;; k) Q E →
  hoare (λ w, disk w = [] ∧ P w)
    (checkForExistingState ≫= λ isResume : bool,
       (if isResume then load else k1) ;; k)
    Q E.
Proof.
  intros Hk w [Hd Hw].
  unfold mbind at 1. unfold M_bind, checkForExistingState, try_catch.
  unfold mbind at 1. unfold M_bind, load. rewrite Hd. cbn -[mbind].
  by apply Hk.
Qed.

Lemma hoare_fresh_run runId input :
  hoare (λ w, mem w = None ∧ disk w = []) (run env runId input) (λ _, K) K.
Proof.
  unfold run.
  eapply hoare_try_catch;
    [|intros e; apply keeps_handler, closed_funnel].
  eapply hoare_pre;
    [apply (hoare_fresh _ _ (λ w, mem w = None ∧ disk w = []))
    |by intros w [? ?]].
  eapply hoare_bind with (R := λ _ w, K w ∧ inState fresh_ready w).
  { eapply hoare_bind; [apply hoare_init|]. intros ?.
    destruct (Nat.ltb _ _); [apply hoare_ingest|].
    apply hoare_ret.
    intros w (Hw & (s & Hm & Hz & Hst & Hac & Hg) & _).
    split; [done|]. exists s. split; [done|].
    unfold fresh_ready. rewrite Hst. simpl.
    split; [unfold zero_counts in Hz; unfold ready_counts; lia|].
    split; [done|]. split; [constructor | by left]. }
  intros ?.
  eapply hoare_bind with (R := λ _ w, K w ∧ inState fresh_ready w).
  { eapply hoare_post; [apply hoare_getState_in | | done].
    intros s w (Hs & Hw & Hm). split; [done|]. by exists s. }
  intros ?.
  eapply hoare_bind with (R := λ _ w, K w ∧ inState screened_ok w).
  { apply hoare_runStageIfDue; [apply hoare_abstractScreening | |].
    - intros w s [_ (s' & Hm' & _ & _ & _ & Hg)] Hm.
      rewrite Hm in Hm'. injection Hm' as <-. by destruct Hg as [-> | ->].
    - by intros w [Hw _] _. }
  intros ?.
  eapply hoare_bind with (R := λ _ w, K w ∧ inState (gated env) w).
  { apply hoare_runStageIfDue; [apply hoare_pdfFetchingGate | |].
    - intros w s [_ (s' & Hm' & Hs)] Hm.
      rewrite Hm in Hm'. injection Hm' as <-.
      destruct Hs as (_ & _ & _ & _ & _ & _ & ->). done.
    - by intros w [Hw _] _. }
  intros ?.
  eapply hoare_bind with (R := λ _, K).
  { apply hoare_runStageIfDue; [apply hoare_fullTextScreening | |].
    - intros w s [_ (s' & Hm' & Hs)] Hm.
      rewrite Hm in Hm'. injection Hm' as <-.
      destruct Hs as (_ & _ & _ & _ & ->). done.
    - by intros w [Hw _] _. }
  intros ?.
  apply (keeps_final_stages env false _ _ closed_funnel
           final_stages_closed_funnel).
Qed.
End Funnel.

(** X30.  In a run started with no state in memory and none on disk, every
    snapshot written to disk has its counters in funnel order,
    identified ≥ deduplicated ≥ screened ≥ retrieved ≥ included, provided
    that records with the same id have the same normalised title, that a
    title is as similar to itself as the threshold requires, and that every
    PDF read by full-text screening was accepted by the PDF gate. *)
Theorem fresh_run_snapshots_in_funnel_order (env : Oracles)
    (runId : string) (input : WorkflowInput) (w : World) :
  ids_follow_titles env →
  self_similar env →
  stable_pdfs env →
  mem w = None →
  disk w = [] →
  Forall (λ s, funnel_ok (prisma_counts s)) (disk (run env runId input w).1).
Proof.
  intros Hids Hself Hpdf Hm Hd.
  pose proof (hoare_fresh_run env Hids Hself Hpdf runId input w
                (conj Hm Hd)) as H.
  assert (Hw : funnelWorld (run env runId input w).1).
  { destruct (run env runId input w) as [w' [[]|e]]; exact H. }
  destruct Hw as (_ & _ & Hall). exact Hall.
Qed.

Lemma steadyOracles_ids d fd : ids_follow_titles (steadyOracles d fd).
Proof.
  intros f1 f2 l1 l2 a b [= <-] [= <-] Ha Hb.
  repeat match goal with
         | H : _ ∈ _ :: _ |- _ => apply elem_of_cons in H as [->|H]
         | H : _ ∈ [] |- _ => by apply elem_of_nil in H
         end; done.
Qed.

Lemma steadyOracles_self d fd : self_similar (steadyOracles d fd).
Proof.
  intros cfg t [= <-]. simpl. unfold bigramSimilarity.
  rewrite bool_decide_eq_true_2 by done. done.
Qed.

Lemma fresh_run_snapshots_in_funnel_order_witness :
  Forall (λ s, funnel_ok (prisma_counts s))
         (disk (run (steadyOracles DInclude FInclude) "run-1" demoInput
                  emptyWorld).1).
Proof.
  apply (fresh_run_snapshots_in_funnel_order
           (steadyOracles DInclude FInclude) "run-1" demoInput emptyWorld).
  - apply steadyOracles_ids.
  - apply steadyOracles_self.
  - intros i pdf _. reflexivity.
  - reflexivity.
  - reflexivity.
Defined.

(** C6.  The counters written to disk are not always in funnel order.  The
    retried run of [retriedWorld] screens [studyA] twice at the abstract
    stage, so that full-text screening includes three records while two
    were retrieved; [save] writes these counters to disk, the schema
    requiring integers only.  [validateCounts], which no stage calls,
    rejects them with the message that the full texts retrieved must be at
    least the included records. *)
Lemma funnel_broken_by_retried_run :
  prisma_counts <$> head (disk retriedWorld) = Some brokenCounts
  ∧ ¬ funnel_ok brokenCounts
  ∧ validateCounts brokenCounts =
    {| valid := false; errors := [RetrievedBelowIncluded] |}.
Proof.
  split; [vm_compute; reflexivity|]. split; [|by vm_compute].
  unfold funnel_ok, brokenCounts. simpl. lia.
Qed.

(** * Further properties *)

(** ** Consensus *)

Lemma countDecision_Permutation d (vs vs' : list ScreeningDecision) :
  vs ≡ₚ vs' → countDecision d vs = countDecision d vs'.
Proof. intros H. unfold countDecision. by rewrite H. Qed.

(** X1.  The consensus does not depend on the order of the votes: listing
    the same votes in another order gives the same result, or the same
    exception. *)
Theorem consensus_ignores_vote_order (vs vs' : list ScreeningDecision) :
  vs ≡ₚ vs' → calculateConsensus vs = calculateConsensus vs'.
Proof.
  intros H. unfold calculateConsensus.
  rewrite !(countDecision_Permutation _ _ _ H).
  by rewrite (Permutation_length H).
Qed.

Lemma consensus_ignores_vote_order_witness :
  calculateConsensus
    [demoVote Abstract DExclude 1 studyA; demoVote Abstract DInclude 0 studyA;
     demoVote Abstract DUnsure 2 studyA]
  = calculateConsensus (splitVotes studyA).
Proof.
  apply (consensus_ignores_vote_order
           [demoVote Abstract DExclude 1 studyA;
            demoVote Abstract DInclude 0 studyA;
            demoVote Abstract DUnsure 2 studyA]
           (splitVotes studyA)).
  apply perm_swap.
Defined.

Lemma createConsensusDecision_on_escalation (id : string)
    (vs : list ScreeningDecision) (stage : ScreenStage)
    (rationale : option string) :
  escalates vs = true →
  (truthy rationale = true →
   createConsensusDecision id vs stage rationale =
   Ok {| cd_stage := stage; cd_study_id := id; votes := vs;
         consensus := CEscalate; final_decision := FInclude;
         adjudicator_rationale := rationale |})
  ∧ (truthy rationale = false →
     createConsensusDecision id vs stage rationale = Throw RationaleRequired).
Proof.
  unfold escalates, createConsensusDecision.
  destruct (calculateConsensus vs) as [r|e] eqn:Hc; [|done].
  intros Hn. pose proof (calculateConsensus_flag _ _ Hc) as Hflag.
  rewrite Hn in Hflag. symmetry in Hflag.
  apply bool_decide_eq_true in Hflag. rewrite Hn, Hflag.
  split; intros ->; done.
Qed.

(** X2.  On votes that call for the adjudicator, [createConsensusDecision]
    returns exactly when it is given a non-empty rationale, and the decision
    it then returns is always include, whatever the votes are; without a
    rationale, or with the empty string, it throws. *)
Theorem createConsensusDecision_escalated (id : string)
    (vs : list ScreeningDecision) (stage : ScreenStage)
    (rationale : option string) :
  escalates vs = true →
  (truthy rationale = true →
   createConsensusDecision id vs stage rationale =
   Ok {| cd_stage := stage; cd_study_id := id; votes := vs;
         consensus := CEscalate; final_decision := FInclude;
         adjudicator_rationale := rationale |})
  ∧ (truthy rationale = false →
     createConsensusDecision id vs stage rationale = Throw RationaleRequired).
Proof. apply createConsensusDecision_on_escalation. Qed.

Lemma createConsensusDecision_escalated_witness :
  createConsensusDecision "a1"
    [demoVote Abstract DExclude 0 studyA; demoVote Abstract DExclude 1 studyA;
     demoVote Abstract DUnsure 2 studyA] Abstract (Some "see votes")
  = Ok {| cd_stage := Abstract; cd_study_id := "a1";
          votes := [demoVote Abstract DExclude 0 studyA;
                    demoVote Abstract DExclude 1 studyA;
                    demoVote Abstract DUnsure 2 studyA];
          consensus := CEscalate; final_decision := FInclude;
          adjudicator_rationale := Some "see votes" |}.
Proof.
  refine (proj1 (createConsensusDecision_escalated "a1"
            [demoVote Abstract DExclude 0 studyA;
             demoVote Abstract DExclude 1 studyA;
             demoVote Abstract DUnsure 2 studyA] Abstract (Some "see votes")
            eq_refl) eq_refl).
Defined.

Section BatchConsensus.
Implicit Types (entries needs : list (string * list ScreeningDecision)).

Lemma map_set_fresh {V} (k : string) (v : V) (m : list (string * V)) :
  k ∉ m.*1 → map_set k v m = m ++ [(k, v)].
Proof.
  induction m as [|[k' v'] m IH]; simpl; [done|].
  intros Hk. apply not_elem_of_cons in Hk as [Hne Hk].
  rewrite bool_decide_eq_false_2 by done. by rewrite IH.
Qed.

Lemma createConsensusDecision_majority id vs stage :
  length vs = 3 → escalates vs = false →
  ∃ d, createConsensusDecision id vs stage None = Ok d
       ∧ cd_study_id d = id ∧ votes d = vs ∧ majority_decision stage d.
Proof.
  intros Hlen. destruct (three_votes _ Hlen) as (v1 & v2 & v3 & ->).
  unfold escalates, createConsensusDecision, majority_decision.
  rewrite calculateConsensus_three.
  destruct (decision v1), (decision v2), (decision v3); simpl; try done;
    intros _; eexists; (split; [reflexivity|]); simpl; naive_solver.
Qed.

Lemma batchLoop_splits stage entries : ∀ ds needs,
  NoDup (needs.*1 ++ entries.*1) →
  Forall (λ e, length e.2 = 3) entries →
  ∃ r, batchLoop stage entries ds needs = Ok r
    ∧ batch_needsAdjudication r =
      needs ++ filter (λ e, escalates e.2 = true) entries
    ∧ ∃ ds', decisions r = ds ++ ds'
        ∧ cd_study_id <$> ds' =
          (filter (λ e, escalates e.2 = false) entries).*1
        ∧ votes <$> ds' =
          (filter (λ e, escalates e.2 = false) entries).*2
        ∧ Forall (majority_decision stage) ds'.
Proof.
  induction entries as [|[k vs] entries IH]; intros ds needs Hnd Hall.
  - eexists. split; [reflexivity|]. simpl. rewrite app_nil_r.
    split; [done|]. exists []. by rewrite app_nil_r.
  - apply Forall_cons in Hall as [Hlen Hall]. simpl in Hlen.
    cbn [batchLoop]. rewrite !filter_cons. cbn [snd].
    destruct (escalates vs) eqn:Hesc.
    + unfold escalates in Hesc.
      destruct (calculateConsensus vs) as [r|e]; [|done]. rewrite Hesc.
      assert (Hk : k ∉ needs.*1).
      { intros Hin. apply NoDup_app in Hnd as (_ & Hdisj & _).
        apply (Hdisj k Hin). simpl. left. }
      rewrite map_set_fresh by done.
      destruct (IH ds (needs ++ [(k, vs)])) as (r' & Hr & Hneeds & Hds).
      { rewrite fmap_app, <- app_assoc. exact Hnd. }
      { exact Hall. }
      exists r'. split; [exact Hr|].
      rewrite decide_True by done. rewrite decide_False by done.
      split; [by rewrite Hneeds, <- app_assoc|]. exact Hds.
    + destruct (createConsensusDecision_majority k vs stage Hlen Hesc)
        as (d & Hd & Hid & Hvs & Hmaj).
      unfold escalates in Hesc.
      destruct (calculateConsensus vs) as [r|e] eqn:Hc.
      2: { unfold createConsensusDecision in Hd. by rewrite Hc in Hd. }
      rewrite Hesc, Hd.
      destruct (IH (ds ++ [d]) needs) as (r' & Hr & Hneeds & ds' & Hds).
      { simpl in Hnd. apply NoDup_app in Hnd as (Hn1 & Hdisj & Hn2).
        apply NoDup_cons in Hn2 as [_ Hn2].
        apply NoDup_app. split; [done|]. split; [|done].
        intros x Hx Hx'. apply (Hdisj x Hx). by right. }
      { exact Hall. }
      exists r'. split; [exact Hr|].
      rewrite decide_False by done. rewrite decide_True by done.
      split; [exact Hneeds|].
      destruct Hds as (Heq & Hids & Hvotes & Hall').
      exists (d :: ds'). rewrite Heq, <- app_assoc. split; [done|].
      rewrite !fmap_cons, Hids, Hvotes, Hid, Hvs.
      split; [done|]. split; [done|]. by constructor.
Qed.

Lemma batchLoop_throws stage l1 k vs l2 : ∀ ds needs,
  Forall (λ e, length e.2 = 3) l1 → length vs ≠ 3 →
  batchLoop stage (l1 ++ (k, vs) :: l2) ds needs =
  Throw (ExpectedThreeVotes (length vs)).
Proof.
  induction l1 as [|[k1 vs1] l1 IH]; intros ds needs Hall Hlen.
  - simpl. by rewrite calculateConsensus_wrong_count.
  - apply Forall_cons in Hall as [Hlen1 Hall]. simpl in Hlen1.
    cbn [app batchLoop].
    destruct (escalates vs1) eqn:Hesc.
    + unfold escalates in Hesc.
      destruct (calculateConsensus vs1) as [r|e]; [|done]. rewrite Hesc.
      by apply IH.
    + destruct (createConsensusDecision_majority k1 vs1 stage Hlen1 Hesc)
        as (d & Hd & _).
      unfold escalates in Hesc.
      destruct (calculateConsensus vs1) as [r|e] eqn:Hc.
      2: { unfold createConsensusDecision in Hd. by rewrite Hc in Hd. }
      rewrite Hesc, Hd. by apply IH.
Qed.
End BatchConsensus.

(** X3.  [batchConsensus] on a map whose entries all hold three votes
    returns; the entries that call for the adjudicator are handed back
    unchanged and in order, the others get one decision each, in order,
    carrying their votes and the majority as final decision, never the
    include placeholder of an escalated decision.  An entry with another
    number of votes makes the whole batch throw, the decisions made before
    it being lost. *)
Theorem batchConsensus_splits (stage : ScreenStage)
    (studyVotes : list (string * list ScreeningDecision)) :
  NoDup studyVotes.*1 →
  (Forall (λ e, length e.2 = 3) studyVotes →
   ∃ r, batchConsensus studyVotes stage = Ok r
     ∧ batch_needsAdjudication r =
       filter (λ e, escalates e.2 = true) studyVotes
     ∧ cd_study_id <$> decisions r =
       (filter (λ e, escalates e.2 = false) studyVotes).*1
     ∧ votes <$> decisions r =
       (filter (λ e, escalates e.2 = false) studyVotes).*2
     ∧ Forall (majority_decision stage) (decisions r))
  ∧ (∀ l1 k vs l2,
       studyVotes = l1 ++ (k, vs) :: l2 →
       Forall (λ e, length e.2 = 3) l1 → length vs ≠ 3 →
       batchConsensus studyVotes stage =
       Throw (ExpectedThreeVotes (length vs))).
Proof.
  intros Hnd. split.
  - intros Hall.
    destruct (batchLoop_splits stage studyVotes [] [] Hnd Hall)
      as (r & Hr & Hneeds & ds' & Heq & Hids & Hvotes & Hmaj).
    exists r. split; [exact Hr|]. simpl in Heq. rewrite Heq.
    by repeat split.
  - intros l1 k vs l2 -> Hall Hlen. by apply batchLoop_throws.
Qed.

Lemma batchConsensus_splits_witness :
  ∃ r, batchConsensus
         [("a1", splitVotes studyA);
          ("b2", [demoVote Abstract DExclude 0 studyB;
                  demoVote Abstract DExclude 1 studyB;
                  demoVote Abstract DInclude 2 studyB])] Abstract = Ok r
    ∧ batch_needsAdjudication r = [("a1", splitVotes studyA)]
    ∧ cd_study_id <$> decisions r = ["b2"]
    ∧ votes <$> decisions r =
      [[demoVote Abstract DExclude 0 studyB;
        demoVote Abstract DExclude 1 studyB;
        demoVote Abstract DInclude 2 studyB]]
    ∧ Forall (majority_decision Abstract) (decisions r).
Proof.
  refine (proj1 (batchConsensus_splits Abstract
            [("a1", splitVotes studyA);
             ("b2", [demoVote Abstract DExclude 0 studyB;
                     demoVote Abstract DExclude 1 studyB;
                     demoVote Abstract DInclude 2 studyB])] _) _).
  - simpl. apply NoDup_cons. split; [|apply NoDup_singleton].
    intros H. apply list_elem_of_singleton in H. discriminate.
  - repeat constructor.
Defined.

(** ** Deduplication *)

Section DedupeOrder.
Variable sim : string → string → Q.
Variable thr : Q.

Lemma dedupeLoop_sublist l : ∀ acc dups,
  ∃ l', unique (dedupeLoop sim l thr acc dups) = acc ++ l'
        ∧ l' `sublist_of` l.
Proof.
  induction l as [|u l IH]; intros acc dups; simpl.
  - exists []. by rewrite app_nil_r.
  - destruct (findDuplicate sim u acc thr) as [[m r]|].
    + destruct (IH acc (trackDuplicate (study_id m) (study_id u) r dups))
        as (l' & -> & Hsub).
      exists l'. split; [done|]. by apply sublist_cons.
    + destruct (IH (acc ++ [u]) dups) as (l' & -> & Hsub).
      exists (u :: l'). rewrite <- app_assoc. split; [done|].
      by apply sublist_skip.
Qed.

Lemma fresh_from_lookup l : ∀ acc i j c u,
  fresh_from sim thr acc l →
  (i < j)%nat → (acc ++ l) !! i = Some c → (acc ++ l) !! j = Some u →
  (length acc ≤ j)%nat →
  matchCandidate sim u c thr = None.
Proof.
  induction l as [|x l IH]; intros acc i j c u Hfresh Hij Hi Hj Hacc.
  - rewrite app_nil_r in Hj. apply lookup_lt_Some in Hj. lia.
  - destruct Hfresh as [Hx Hfresh].
    destruct (decide (j = length acc)) as [->|Hne].
    + rewrite lookup_app_r, Nat.sub_diag in Hj by lia.
      injection Hj as <-.
      rewrite lookup_app_l in Hi by lia.
      eapply findDuplicate_None; [exact Hx|].
      by eapply list_elem_of_lookup_2.
    + apply (IH (acc ++ [x]) i j c u Hfresh Hij).
      * by rewrite <- app_assoc.
      * by rewrite <- app_assoc.
      * rewrite length_app. simpl. lia.
Qed.

Lemma trackDuplicate_kept_ids k i r ds :
  kept <$> trackDuplicate k i r ds =
  if bool_decide (k ∈ kept <$> ds) then kept <$> ds else (kept <$> ds) ++ [k].
Proof.
  induction ds as [|d ds IH]; cbn [trackDuplicate].
  - rewrite bool_decide_eq_false_2; [done|]. apply not_elem_of_nil.
  - rewrite (fmap_cons kept d ds).
    destruct (decide (kept d = k)) as [Hk|Hk].
    + rewrite (bool_decide_eq_true_2 (kept d = k)) by done.
      rewrite bool_decide_eq_true_2 by (rewrite Hk; left). done.
    + rewrite (bool_decide_eq_false_2 (kept d = k)) by done.
      rewrite fmap_cons, IH.
      destruct (decide (k ∈ kept <$> ds)) as [Hin|Hin].
      * rewrite !bool_decide_eq_true_2; [done| by right | done].
      * rewrite !bool_decide_eq_false_2; [done| |done].
        intros H. apply elem_of_cons in H as [H|H]; [by symmetry in H|done].
Qed.

Lemma trackDuplicate_entries k i r ds :
  NoDup (kept <$> ds) → Forall (λ d, removed d ≠ []) ds →
  NoDup (kept <$> trackDuplicate k i r ds)
  ∧ Forall (λ d, removed d ≠ []) (trackDuplicate k i r ds).
Proof.
  intros Hnd Hall. split.
  - rewrite trackDuplicate_kept_ids. case_bool_decide; [done|].
    apply NoDup_app. split; [done|]. split; [|apply NoDup_singleton].
    intros x Hx Hx'. apply list_elem_of_singleton in Hx'. by subst.
  - clear Hnd. induction ds as [|d ds IH]; simpl.
    + by repeat constructor.
    + apply Forall_cons in Hall as [Hd Hall]. case_bool_decide.
      * constructor; [|done]. simpl. by destruct (removed d).
      * constructor; [done|]. by apply IH.
Qed.

Lemma dedupeLoop_entries l : ∀ acc dups,
  NoDup (kept <$> dups) → Forall (λ d, removed d ≠ []) dups →
  NoDup (kept <$> duplicates (dedupeLoop sim l thr acc dups))
  ∧ Forall (λ d, removed d ≠ []) (duplicates (dedupeLoop sim l thr acc dups)).
Proof.
  induction l as [|u l IH]; intros acc dups Hnd Hall; simpl; [done|].
  destruct (findDuplicate sim u acc thr) as [[m r]|]; [|by apply IH].
  destruct (trackDuplicate_entries (study_id m) (study_id u) r dups Hnd Hall).
  by apply IH.
Qed.
End DedupeOrder.

(** X4.  Deduplication keeps the input order and the first record: the
    unique records are a subsequence of the input, and the first record of
    the input is the first unique record. *)
Theorem deduplicate_keeps_order (sim : string → string → Q)
    (X : list Study) (thr : Q) :
  unique (deduplicateStudies sim X thr) `sublist_of` X
  ∧ head (unique (deduplicateStudies sim X thr)) = head X.
Proof.
  unfold deduplicateStudies. split.
  - destruct (dedupeLoop_sublist sim thr X [] []) as (l' & -> & Hsub). done.
  - destruct X as [|x X]; [done|]. simpl.
    destruct (dedupeLoop_sublist sim thr X [x] []) as (l' & -> & _). done.
Qed.

(** X5.  No unique record matches a unique record before it under any of the
    three strategies: in particular, the two do not carry the same non-empty
    DOI string, and the similarity of their normalised titles is below the
    threshold. *)
Theorem deduplicate_unique_unmatched (sim : string → string → Q)
    (X : list Study) (thr : Q) (i j : nat) (c u : Study) :
  (i < j)%nat →
  unique (deduplicateStudies sim X thr) !! i = Some c →
  unique (deduplicateStudies sim X thr) !! j = Some u →
  matchCandidate sim u c thr = None
  ∧ ¬ (truthy (doi u) = true ∧ doi u = doi c)
  ∧ (sim (normalizeTitle (title u)) (normalizeTitle (title c)) < thr)%Q.
Proof.
  intros Hij Hi Hj. unfold deduplicateStudies in *.
  destruct (dedupeLoop_unique_fresh sim thr X [] []) as (l' & Heq & Hfresh).
  rewrite Heq in Hi, Hj.
  assert (Hm : matchCandidate sim u c thr = None).
  { apply (fresh_from_lookup sim thr l' [] i j c u Hfresh Hij Hi Hj).
    simpl. lia. }
  split; [exact Hm|]. unfold matchCandidate, compareTitles in Hm. split.
  - intros [Ht Heqd].
    rewrite Ht, <- Heqd, Ht in Hm. simpl in Hm.
    by rewrite bool_decide_eq_true_2 in Hm.
  - destruct (truthy (doi u) && truthy (doi c)
              && bool_decide (doi u = doi c)); [done|].
    unfold Qgeb in Hm.
    destruct (Qle_bool thr _) eqn:Hle; [done|].
    apply Qnot_le_lt. intros Hle'. apply Qle_bool_iff in Hle'. congruence.
Qed.

Lemma deduplicate_unique_unmatched_witness :
  matchCandidate bigramSimilarity studyB studyA
    defaultTitleSimilarityThreshold = None
  ∧ ¬ (truthy (doi studyB) = true ∧ doi studyB = doi studyA)
  ∧ (bigramSimilarity (normalizeTitle (title studyB))
       (normalizeTitle (title studyA)) < defaultTitleSimilarityThreshold)%Q.
Proof.
  apply (deduplicate_unique_unmatched bigramSimilarity [studyA; studyB]
           defaultTitleSimilarityThreshold 0 1 studyA studyB).
  - lia.
  - vm_compute. reflexivity.
  - vm_compute. reflexivity.
Defined.

(** X6.  The list of duplicates holds one entry per kept record: no two
    entries name the same kept id, and no entry has an empty list of removed
    ids. *)
Theorem deduplicate_one_entry_per_kept (sim : string → string → Q)
    (X : list Study) (thr : Q) :
  NoDup (kept <$> duplicates (deduplicateStudies sim X thr))
  ∧ Forall (λ d, removed d ≠ []) (duplicates (deduplicateStudies sim X thr)).
Proof.
  apply dedupeLoop_entries; [apply NoDup_nil_2 | constructor].
Qed.

Section AuthorsOverlap.
Context {A : Type} `{EqDecision A}.

Lemma common_length (l1 l2 : list A) :
  NoDup l1 → NoDup l2 →
  length (filter (λ a, a ∈ l2) l1) = length (filter (λ a, a ∈ l1) l2).
Proof.
  intros H1 H2. apply Permutation_length, NoDup_Permutation.
  - by apply NoDup_filter.
  - by apply NoDup_filter.
  - intros x. rewrite !list_elem_of_filter. tauto.
Qed.

Lemma union_length (l1 l2 : list A) :
  length (remove_dups (l1 ++ l2)) = length (remove_dups (l2 ++ l1)).
Proof.
  apply Permutation_length, NoDup_Permutation; [apply NoDup_remove_dups..|].
  intros x. rewrite !elem_of_remove_dups, !elem_of_app. tauto.
Qed.

Lemma common_le_union (l1 l2 : list A) :
  NoDup l1 →
  (length (filter (λ a, a ∈ l2) l1) ≤ length (remove_dups (l1 ++ l2)))%nat.
Proof.
  intros H1. apply submseteq_length, NoDup_submseteq.
  - by apply NoDup_filter.
  - intros x Hx. apply list_elem_of_filter in Hx as [_ Hx].
    apply elem_of_remove_dups, elem_of_app. by left.
Qed.
End AuthorsOverlap.

(** X7.  The overlap of two author lists does not depend on which list
    comes first; it lies between 0 and 1, and is 0 when either list is
    empty. *)
Theorem authorsOverlap_symmetric_bounded (authors1 authors2 : list string) :
  authorsOverlap authors1 authors2 = authorsOverlap authors2 authors1
  ∧ (0 <= authorsOverlap authors1 authors2)%Q
  ∧ (authorsOverlap authors1 authors2 <= 1)%Q
  ∧ (authors1 = [] ∨ authors2 = [] → authorsOverlap authors1 authors2 = 0%Q).
Proof.
  unfold authorsOverlap.
  set (n1 := remove_dups (map normalizeAuthor authors1)).
  set (n2 := remove_dups (map normalizeAuthor authors2)).
  assert (Hn1 : NoDup n1) by apply NoDup_remove_dups.
  assert (Hn2 : NoDup n2) by apply NoDup_remove_dups.
  split; [|split; [|split]].
  - rewrite (orb_comm (Nat.eqb (length authors2) 0)).
    destruct (_ || _); [done|].
    by rewrite (common_length n1 n2), (union_length n1 n2).
  - destruct (_ || _); [done|]. unfold Qle. simpl. lia.
  - destruct (Nat.eqb (length authors1) 0 || Nat.eqb (length authors2) 0)
      eqn:He; [done|].
    apply orb_false_iff in He as [He1 _]. apply Nat.eqb_neq in He1.
    pose proof (common_le_union n1 n2 Hn1) as Hle.
    assert (Hpos : (0 < length (remove_dups (n1 ++ n2)))%nat).
    { destruct authors1 as [|a authors1]; [done|].
      assert (Hin : normalizeAuthor a ∈ remove_dups (n1 ++ n2)).
      { apply elem_of_remove_dups, elem_of_app. left.
        apply elem_of_remove_dups. simpl. left. }
      destruct (remove_dups (n1 ++ n2)); [by apply elem_of_nil in Hin|].
      simpl. lia. }
    unfold Qle. simpl. rewrite Z.mul_1_r, Z.mul_1_l.
    rewrite <- positive_nat_Z, Nat2Pos.id by lia. lia.
  - intros [->| ->]; [done|]. simpl. by rewrite orb_true_r.
Qed.

(** *** Normalisation of titles *)

Section Normalise.
Implicit Types (c : ascii) (l : list ascii).

Lemma to_lower_idemp c : to_lower (to_lower c) = to_lower c.
Proof. destruct c as [[] [] [] [] [] [] [] []]; reflexivity. Qed.

Lemma is_space_is_word c : is_space c = true → is_word c = false.
Proof. destruct c as [[] [] [] [] [] [] [] []]; done. Qed.

(** [.trim()] removes the white space at the end as this function does. *)
Lemma drop_spaces_snoc l c :
  drop_spaces (l ++ [c]) =
  if forallb is_space l then drop_spaces [c] else drop_spaces l ++ [c].
Proof.
  induction l as [|a l IH]; [done|]. simpl. by destruct (is_space a).
Qed.

Lemma forallb_rev (f : ascii → bool) l : forallb f (rev l) = forallb f l.
Proof.
  induction l as [|a l IH]; [done|]. simpl.
  rewrite forallb_app, IH. simpl. by rewrite andb_true_r, andb_comm.
Qed.

Lemma trim_chars_drop_end l : trim_chars l = drop_end (drop_spaces l).
Proof.
  unfold trim_chars. generalize (drop_spaces l). clear l.
  induction l as [|c l IH]; [done|].
  cbn [rev drop_end]. rewrite drop_spaces_snoc, forallb_rev.
  cbn [forallb drop_spaces].
  destruct (forallb is_space l) eqn:Hall, (is_space c); simpl;
    rewrite ?andb_false_r, ?rev_app_distr, ?IH; try done.
  destruct l; [done|]. cbn [drop_end]. by rewrite Hall.
Qed.

Lemma forallb_drop_end l :
  forallb is_space (drop_end l) = forallb is_space l.
Proof.
  induction l as [|c l IH]; [done|]. cbn [drop_end].
  destruct (forallb is_space (c :: l)) eqn:Hall; [done|].
  simpl in *. by rewrite IH.
Qed.

Lemma drop_end_idemp l : drop_end (drop_end l) = drop_end l.
Proof.
  induction l as [|c l IH]; [done|]. cbn [drop_end].
  destruct (forallb is_space (c :: l)) eqn:Hall; [done|].
  cbn [drop_end]. simpl in *. by rewrite forallb_drop_end, Hall, IH.
Qed.

Lemma drop_spaces_idemp l : drop_spaces (drop_spaces l) = drop_spaces l.
Proof.
  induction l as [|c l IH]; [done|]. simpl.
  destruct (is_space c) eqn:Hc; [done|]. simpl. by rewrite Hc.
Qed.

Lemma drop_spaces_drop_end l :
  drop_spaces l = l → drop_spaces (drop_end l) = drop_end l.
Proof.
  destruct l as [|c l]; [done|]. cbn [drop_end]. simpl.
  destruct (is_space c) eqn:Hc.
  - intros H. assert (Hlen : length (drop_spaces l) = S (length l))
      by (by rewrite H).
    assert (length (drop_spaces l) ≤ length l)%nat; [|lia].
    clear. induction l as [|a l IH]; simpl; [done|].
    destruct (is_space a); simpl; lia.
  - intros _. simpl. by rewrite Hc.
Qed.

Lemma collapse_spaces_true_head l c l' :
  collapse_spaces true l = c :: l' → is_space c = false.
Proof.
  induction l as [|a l IH]; [done|]. simpl.
  destruct (is_space a) eqn:Ha; [done|]. by intros [= <- _].
Qed.

Lemma collapse_spaces_idemp l : ∀ b,
  collapse_spaces b (collapse_spaces b l) = collapse_spaces b l.
Proof.
  induction l as [|c l IH]; intros b; [done|]. simpl.
  destruct (is_space c) eqn:Hc.
  - destruct b; [apply IH|]. simpl. by rewrite IH.
  - simpl. by rewrite Hc, IH.
Qed.

Lemma collapse_spaces_drop_spaces l :
  collapse_spaces false l = l →
  collapse_spaces false (drop_spaces l) = drop_spaces l.
Proof.
  destruct l as [|c l]; [done|]. cbn [drop_spaces].
  destruct (is_space c) eqn:Hc; [|done].
  cbn [collapse_spaces]. rewrite Hc.
  intros [= _ H]. destruct l as [|a l]; [done|].
  pose proof (collapse_spaces_true_head _ _ _ H) as Ha.
  cbn [drop_spaces]. rewrite Ha.
  cbn [collapse_spaces] in *. rewrite Ha in *. done.
Qed.

Lemma collapse_spaces_drop_end l : ∀ b,
  collapse_spaces b l = l →
  collapse_spaces b (drop_end l) = drop_end l.
Proof.
  induction l as [|c l IH]; intros b; [done|]. cbn [drop_end].
  destruct (forallb is_space (c :: l)) eqn:Hall; [done|].
  simpl. destruct (is_space c) eqn:Hc.
  - destruct b.
    + intros H. apply collapse_spaces_true_head in H. congruence.
    + intros [= Hc' H]. by rewrite Hc', (IH true H).
  - intros [= H]. by rewrite (IH false H).
Qed.

Lemma plain_fixed l :
  Forall plain l →
  map to_lower l = l ∧ filter (λ c, is_word c || is_space c = true) l = l.
Proof.
  induction 1 as [|c l Hc _ [IH1 IH2]]; [done|]. split.
  - simpl. rewrite IH1. by destruct Hc as [->|[_ ->]].
  - rewrite filter_cons, IH2. rewrite decide_True; [done|].
    by destruct Hc as [->|[-> _]].
Qed.

Lemma collapse_spaces_plain l : ∀ b,
  Forall (λ c, is_space c = false → plain c) l →
  Forall plain (collapse_spaces b l).
Proof.
  induction l as [|c l IH]; intros b Hall; [constructor|].
  apply Forall_cons in Hall as [Hc Hall]. simpl.
  destruct (is_space c) eqn:Hs.
  - destruct b; [by apply IH|]. constructor; [by left | by apply IH].
  - constructor; [by apply Hc | by apply IH].
Qed.

Lemma drop_spaces_sublist l : drop_spaces l `sublist_of` l.
Proof.
  induction l as [|c l IH]; [done|]. simpl.
  destruct (is_space c); [by apply sublist_cons | done].
Qed.

Lemma drop_end_sublist l : drop_end l `sublist_of` l.
Proof.
  induction l as [|c l IH]; [done|]. cbn [drop_end].
  destruct (forallb is_space (c :: l)); [apply sublist_nil_l|].
  by apply sublist_skip.
Qed.

Lemma normalised_chars l :
  let r := trim_chars (collapse_spaces false
             (filter (λ c, is_word c || is_space c = true)
                     (map to_lower l))) in
  Forall plain r
  ∧ trim_chars (collapse_spaces false
      (filter (λ c, is_word c || is_space c = true) (map to_lower r))) = r.
Proof.
  intros r. subst r.
  set (k := filter _ (map to_lower l)).
  set (m := collapse_spaces false k).
  assert (Hm : Forall plain m).
  { apply collapse_spaces_plain. apply Forall_forall. intros c Hc Hs.
    apply list_elem_of_filter in Hc as [Hkeep Hc].
    apply list_elem_of_fmap in Hc as (c0 & -> & _).
    right. rewrite Hs, orb_false_r in Hkeep. split; [done|].
    apply to_lower_idemp. }
  rewrite trim_chars_drop_end.
  assert (Hsub : drop_end (drop_spaces m) `sublist_of` m).
  { etrans; [apply drop_end_sublist | apply drop_spaces_sublist]. }
  assert (Hr : Forall plain (drop_end (drop_spaces m))).
  { eapply Forall_forall. intros c Hc.
    eapply Forall_forall; [exact Hm|]. by eapply elem_of_sublist. }
  split; [exact Hr|].
  destruct (plain_fixed _ Hr) as [-> ->].
  rewrite trim_chars_drop_end.
  assert (Hcm : collapse_spaces false m = m) by apply collapse_spaces_idemp.
  rewrite (collapse_spaces_drop_end _ false
             (collapse_spaces_drop_spaces _ Hcm)).
  rewrite (drop_spaces_drop_end _ (drop_spaces_idemp m)).
  apply drop_end_idemp.
Qed.
End Normalise.

(** X8.  Normalising a title is a projection: a normalised title is left
    unchanged by [normalizeTitle], and it is made of spaces and of word
    characters other than upper-case letters only.  The same holds of
    [normalizeAuthor], which has the same body. *)
Theorem normalizeTitle_idempotent (t : string) :
  normalizeTitle (normalizeTitle t) = normalizeTitle t
  ∧ Forall plain (list_ascii_of_string (normalizeTitle t))
  ∧ normalizeAuthor t = normalizeTitle t.
Proof.
  unfold normalizeTitle at 1 3 4.
  rewrite !list_ascii_of_string_of_list_ascii.
  destruct (normalised_chars (list_ascii_of_string t)) as [Hplain Hfix].
  split; [|split; [exact Hplain | reflexivity]].
  unfold normalizeTitle. rewrite list_ascii_of_string_of_list_ascii.
  by rewrite Hfix.
Qed.

(** ** The store and the driver *)

(** *** Invariants of the disk *)

(** Every computation of the driver keeps an invariant of the world that
    does not depend on the state in memory or on the configuration, and that
    is kept by writing a state that has passed the schema. *)
Section Frame.
Variable env : Oracles.
Variable I : World → Prop.
Hypothesis Hmem : ∀ w m, I w → I (set_mem m w).
Hypothesis Hcfg : ∀ w c, I w → I (set_config c w).
Hypothesis Hpush :
  ∀ w s, I w → mem w = Some s → GlobalStateSchema_ok s = true →
         I (push_disk s w).



























End Frame.



(** *** Outcomes of [run] *)

Lemma bind_Ok_inv {A B} (m : M A) (k : A → M B) w w' b :
  (m ≫= k) w = (w', Ok b) →
  ∃ a w1, m w = (w1, Ok a) ∧ k a w1 = (w', Ok b).
Proof.
  unfold mbind, M_bind. destruct (m w) as [w1 [a|e]]; [|done]. eauto.
Qed.

Lemma shouldRunStage_Complete c : shouldRunStage c Complete = true.
Proof. by destruct c. Qed.

Lemma export_Ok env w w' :
  export env w = (w', Ok ()) →
  ∃ s, mem w = Some s
       ∧ mem w' = Some (with_stage Complete s)
       ∧ head (disk w') = Some (with_stage Complete s)
       ∧ GlobalStateSchema_ok (with_stage Complete s) = true.
Proof.
  unfold export. intros H.
  apply bind_Ok_inv in H as (s & w1 & Hg & H).
  unfold getState in Hg. destruct (mem w) as [s0|] eqn:Hm; [|done].
  injection Hg as <- <-.
  apply bind_Ok_inv in H as ([] & w2 & Hl & H).
  unfold lift in Hl. injection Hl as <- _.
  apply bind_Ok_inv in H as ([] & w3 & Ha & H).
  unfold assign in Ha. injection Ha as <-.
  unfold save in H. simpl in H. rewrite Hm in H. simpl in H.
  destruct (writeState env _) as [[]|e] eqn:Hws; [|done].
  injection H as <-. exists s0. split; [done|].
  split; [done|]. split; [done|]. by eapply writeState_ok.
Qed.

(** X10.  When [run] returns normally the review is complete and saved: the
    state in memory carries the stage marker [complete], passes the schema,
    and is the newest snapshot on disk. *)
Theorem run_returns_complete (env : Oracles) (runId : string)
    (input : WorkflowInput) (w w' : World) :
  run env runId input w = (w', Ok ()) →
  ∃ st, mem w' = Some st ∧ head (disk w') = Some st
        ∧ current_stage st = Complete
        ∧ GlobalStateSchema_ok st = true.
Proof.
  unfold run, try_catch.
  match goal with
  | |- context [match ?body w with _ => _ end] =>
    destruct (body w) as [w1 [[]|e]] eqn:Hbody
  end.
  2: { unfold mbind, M_bind. destruct (save env w1) as [w2 [[]|e']]; done. }
  intros [= <-].
  apply bind_Ok_inv in Hbody as (isResume & w2 & _ & H).
  apply bind_Ok_inv in H as ([] & w3 & _ & H).
  apply bind_Ok_inv in H as (s0 & w4 & _ & H).
  do 5 (apply bind_Ok_inv in H as ([] & ? & _ & H)).
  unfold runStageIfDue in H.
  apply bind_Ok_inv in H as (s & w5 & Hg & H).
  rewrite shouldRunStage_Complete in H.
  apply export_Ok in H as (s' & _ & Hm & Hd & Hok).
  exists (with_stage Complete s'). by repeat split.
Qed.

Lemma run_returns_complete_witness :
  ∃ st, mem (run (steadyOracles DInclude FInclude) "run-1" demoInput
               emptyWorld).1 = Some st
        ∧ head (disk (run (steadyOracles DInclude FInclude) "run-1" demoInput
                        emptyWorld).1) = Some st
        ∧ current_stage st = Complete
        ∧ GlobalStateSchema_ok st = true.
Proof.
  apply (run_returns_complete (steadyOracles DInclude FInclude) "run-1"
           demoInput emptyWorld).
  vm_compute. reflexivity.
Defined.

(** X11.  The stage test of [run] is a total order on the nine stage
    markers, and it is reflexive: the stage whose marker the state carries is
    itself due again, as is every later stage; [init] makes every stage due
    and [complete] is always due. *)
Theorem shouldRunStage_order (a b c : WorkflowStage) :
  shouldRunStage a a = true
  ∧ (shouldRunStage a b = true → shouldRunStage b c = true →
     shouldRunStage a c = true)
  ∧ (shouldRunStage a b = true → shouldRunStage b a = true → a = b)
  ∧ (shouldRunStage a b = true ∨ shouldRunStage b a = true)
  ∧ shouldRunStage Init a = true
  ∧ shouldRunStage a Complete = true.
Proof.
  split; [by destruct a|]. split.
  { destruct a, b; try done; destruct c; done. }
  split; [by destruct a, b|]. split.
  { destruct a, b; auto. }
  by destruct a.
Qed.

Lemma writeState_valid_throws env s e :
  GlobalStateSchema_ok s = true → writeState env s = Throw e →
  e = WriteFailed.
Proof.
  unfold writeState. intros ->.
  destruct (fs_mkdir env s), (fs_writeFile env s); simpl; congruence.
Qed.

Lemma bind_Ok {A B} (m : M A) (k : A → M B) w w1 a :
  m w = (w1, Ok a) → (m ≫= k) w = k a w1.
Proof. unfold mbind, M_bind. by intros ->. Qed.

Lemma bind_Throw {A B} (m : M A) (k : A → M B) w w1 e :
  m w = (w1, Throw e) → (m ≫= k) w = (w1, Throw e).
Proof. unfold mbind, M_bind. by intros ->. Qed.

Section NoConfig.
Variable env : Oracles.
Variables (w : World) (st : GlobalState).
Hypothesis Hm : mem w = Some st.
Hypothesis Hc : config w = None.

Lemma runStageIfDue_skip target stage :
  shouldRunStage (current_stage st) target = false →
  runStageIfDue target stage w = (w, Ok ()).
Proof.
  intros Hskip. unfold runStageIfDue, mbind, M_bind, getState.
  by rewrite Hm, Hskip.
Qed.

Lemma runStageIfDue_due target stage :
  shouldRunStage (current_stage st) target = true →
  runStageIfDue target stage w = stage w.
Proof.
  intros Hdue. unfold runStageIfDue, mbind, M_bind, getState.
  by rewrite Hm, Hdue.
Qed.

Lemma abstractScreening_no_config :
  abstractScreening env w =
  (w, Throw (match criteria st with
             | Some _ => TypeError
             | None => CriteriaNotSet
             end)).
Proof.
  unfold abstractScreening, mbind, M_bind, getState, readSettings.
  rewrite Hm. destruct (criteria st); [|done]. by rewrite Hc.
Qed.

Lemma pdfFetchingGate_no_config :
  pdfFetchingGate env w = (w, Throw TypeError).
Proof.
  unfold pdfFetchingGate, mbind, M_bind, getState, readSettings.
  by rewrite Hm, Hc.
Qed.

Lemma fullTextScreening_no_config :
  fullTextScreening env w = (w, Throw TypeError).
Proof.
  unfold fullTextScreening, mbind, M_bind, getState, readSettings.
  by rewrite Hm, Hc.
Qed.

Lemma dataExtraction_no_config :
  dataExtraction env w = (w, Throw TypeError).
Proof.
  unfold dataExtraction, mbind, M_bind, getState, readSettings.
  by rewrite Hm, Hc.
Qed.

(** The stages of [run], from a state whose marker is [extraction] or
    earlier. *)
Lemma stages_no_config :
  shouldRunStage (current_stage st) Extraction = true →
  ∃ e, (runStageIfDue AbstractScreening (abstractScreening env) ;;
        runStageIfDue PdfFetching (pdfFetchingGate env) ;;
        runStageIfDue FulltextScreening (fullTextScreening env) ;;
        runStageIfDue Extraction (dataExtraction env) ;;
        runStageIfDue Synthesis (synthesis env) ;;
        runStageIfDue Complete (export env)) w = (w, Throw e)
       ∧ (e = TypeError ∨ e = CriteriaNotSet).
Proof.
  intros Hdue.
  destruct (shouldRunStage (current_stage st) AbstractScreening) eqn:H1.
  { eexists. split.
    - apply bind_Throw. rewrite runStageIfDue_due by done.
      apply abstractScreening_no_config.
    - destruct (criteria st); auto. }
  rewrite (bind_Ok _ _ w w ()) by by apply runStageIfDue_skip.
  destruct (shouldRunStage (current_stage st) PdfFetching) eqn:H2.
  { exists TypeError. split; [|auto].
    apply bind_Throw. rewrite runStageIfDue_due by done.
    apply pdfFetchingGate_no_config. }
  rewrite (bind_Ok _ _ w w ()) by by apply runStageIfDue_skip.
  destruct (shouldRunStage (current_stage st) FulltextScreening) eqn:H3.
  { exists TypeError. split; [|auto].
    apply bind_Throw. rewrite runStageIfDue_due by done.
    apply fullTextScreening_no_config. }
  rewrite (bind_Ok _ _ w w ()) by by apply runStageIfDue_skip.
  exists TypeError. split; [|auto].
  apply bind_Throw. rewrite runStageIfDue_due by done.
  apply dataExtraction_no_config.
Qed.
End NoConfig.

Lemma resume_prefix env runId input w st (k : M unit) :
  head (disk w) = Some st → GlobalStateSchema_ok st = true →
  (checkForExistingState ≫= λ isResume : bool,
     (if isResume then load
      else init env (input_criteria input) runId ;;
           if Nat.ltb 0 (length (searchFiles input))
           then ingest env (searchFiles input) else mret ()) ;; k) w =
  k (set_mem (Some st) w).
Proof.
  intros Hd Hs.
  destruct (disk w) as [|s0 d] eqn:Hdisk; [done|].
  simpl in Hd. injection Hd as ->.
  assert (Hload : ∀ w0, disk w0 = st :: d →
                        load w0 = (set_mem (Some st) w0, Ok ())).
  { intros w0 H0. unfold load. by rewrite H0, Hs. }
  erewrite bind_Ok.
  2: { unfold checkForExistingState, try_catch.
       erewrite bind_Ok by (by apply Hload). reflexivity. }
  erewrite bind_Ok by (by apply Hload). reflexivity.
Qed.

(** X12.  A workflow object that has not run [init] has no configuration, and
    [run] does not read one when it resumes.  Resumed on such an object from
    a valid snapshot whose stage marker is [extraction] or earlier, [run]
    throws before any reviewer is asked: the stage that is due fails on its
    first read of the configuration, or on the missing criteria; the state
    in memory is the snapshot as loaded, and the handler writes it back
    unchanged. *)
Theorem resume_without_config_throws (env : Oracles) (runId : string)
    (input : WorkflowInput) (w : World) (st : GlobalState) :
  config w = None →
  head (disk w) = Some st →
  GlobalStateSchema_ok st = true →
  shouldRunStage (current_stage st) Extraction = true →
  ∃ w' e, run env runId input w = (w', Throw e)
    ∧ (e = TypeError ∨ e = CriteriaNotSet ∨ e = WriteFailed)
    ∧ mem w' = Some st ∧ config w' = None
    ∧ (disk w' = disk w ∨ disk w' = st :: disk w).
Proof.
  intros Hc Hd Hs Hdue.
  set (w1 := set_mem (Some st) w).
  destruct (stages_no_config env w1 st eq_refl Hc Hdue) as (e & He & Hcase).
  unfold run, try_catch.
  rewrite (resume_prefix env runId input w st _ Hd Hs). fold w1.
  erewrite (bind_Ok getState) by reflexivity.
  rewrite He. unfold mbind, M_bind, save, throw. simpl.
  destruct (writeState env st) as [[]|e'] eqn:Hws.
  - eexists _, e. split; [reflexivity|]. simpl.
    split; [tauto|]. auto.
  - apply writeState_valid_throws in Hws as ->; [|done].
    eexists _, _. split; [reflexivity|]. simpl. auto 6.
Qed.

Lemma resume_without_config_throws_witness :
  ∃ w' e,
    run (steadyOracles DInclude FInclude) "run-1" demoInput
      (set_config None (set_mem None interruptedWorld)) = (w', Throw e)
    ∧ (e = TypeError ∨ e = CriteriaNotSet ∨ e = WriteFailed)
    ∧ mem w' = head (disk interruptedWorld) ∧ config w' = None
    ∧ (disk w' = disk (set_config None (set_mem None interruptedWorld))
       ∨ disk w' = default (initialState "") (head (disk interruptedWorld))
                   :: disk (set_config None (set_mem None interruptedWorld))).
Proof.
  destruct (resume_without_config_throws (steadyOracles DInclude FInclude)
              "run-1" demoInput
              (set_config None (set_mem None interruptedWorld))
              (default (initialState "") (head (disk interruptedWorld)))
              eq_refl eq_refl eq_refl eq_refl)
    as (w' & e & H).
  exists w', e. exact H.
Defined.

(** *** What the screening stages leave in the state *)

Section StageOutcomes.
Variable env : Oracles.

Lemma with_abstract_verdicts_nil s : with_abstract_verdicts [] s = s.
Proof.
  destruct s. unfold with_abstract_verdicts, with_abstract_consensus,
    with_abstract_decisions. simpl. by rewrite !app_nil_r.
Qed.

Lemma with_abstract_verdicts_snoc cs c s :
  push_abstract_consensus c
    (push_abstract_decisions (votes c) (with_abstract_verdicts cs s)) =
  with_abstract_verdicts (cs ++ [c]) s.
Proof.
  unfold with_abstract_verdicts, push_abstract_consensus,
    push_abstract_decisions, with_abstract_consensus,
    with_abstract_decisions. simpl.
  rewrite fmap_app, concat_app. simpl. by rewrite app_nil_r, !app_assoc.
Qed.

Lemma countFinal_snoc fd cs c :
  countFinal fd (cs ++ [c]) =
  (countFinal fd cs + if bool_decide (final_decision c = fd) then 1 else 0)%Z.
Proof.
  unfold countFinal. rewrite filter_app, length_app, filter_cons, filter_nil.
  case_bool_decide.
  - rewrite decide_True by done. simpl. lia.
  - rewrite decide_False by done. simpl. lia.
Qed.

Lemma countFinal_total cs :
  (countFinal FInclude cs + countFinal FExclude cs)%Z = Z.of_nat (length cs).
Proof.
  induction cs as [|c cs IH] using rev_ind; [done|].
  rewrite !countFinal_snoc, length_app. simpl.
  destruct (final_decision c); simpl; lia.
Qed.

(** One record of abstract screening, when it returns. *)
Lemma abstractScreeningStep_exact crit study counts w w' counts' st :
  mem w = Some st →
  abstractScreeningStep env crit study counts w = (w', Ok counts') →
  ∃ c, resolveVotes env study (votes c) (Some crit) Abstract None = Ok c
    ∧ length (votes c) = 3
    ∧ mem w' =
      Some (push_abstract_consensus c (push_abstract_decisions (votes c) st))
    ∧ counts' =
      ((counts.1 + if bool_decide (final_decision c = FInclude)
                   then 1 else 0)%Z,
       (counts.2 + if bool_decide (final_decision c = FExclude)
                   then 1 else 0)%Z).
Proof.
  intros Hm.
  unfold abstractScreeningStep, mbind, M_bind, lift, append, save.
  destruct (all_results _ _) as [vs|e] eqn:Hvs; [|done].
  destruct (resolveVotes _ _ _ _ _ _) as [c|e] eqn:Hr; [|done].
  rewrite Hm. cbn [mem set_mem].
  destruct (writeState env (push_abstract_decisions vs st)) as [[]|e];
    [|done].
  cbn [mem set_mem push_disk].
  destruct (writeState env _) as [[]|e] eqn:Hws; [|done].
  pose proof (resolveVotes_fields _ _ _ _ _ _ _ Hr) as (_ & Hv & _).
  apply all_results_length in Hvs.
  assert (Hcounts :
    (if bool_decide (final_decision c = FInclude)
     then ((counts.1 + 1)%Z, counts.2) else (counts.1, (counts.2 + 1)%Z)) =
    ((counts.1 + if bool_decide (final_decision c = FInclude)
                 then 1 else 0)%Z,
     (counts.2 + if bool_decide (final_decision c = FExclude)
                 then 1 else 0)%Z)).
  { destruct (final_decision c); simpl; f_equal; lia. }
  destruct (_ =? _)%Z; cbn [mem set_mem push_disk mret M_ret].
  - rewrite Hws. intros [= <- <-]. exists c. rewrite Hv.
    by repeat split.
  - intros [= <- <-]. exists c. rewrite Hv. by repeat split.
Qed.

(** The loop of abstract screening, when it returns. *)
Lemma abstractScreening_loop crit st l : ∀ w w' counts,
  mem w = Some st →
  for_each (abstractScreeningStep env crit) l (0, 0)%Z w = (w', Ok counts) →
  ∃ cs, mem w' = Some (with_abstract_verdicts cs st)
    ∧ cd_study_id <$> cs = study_id <$> l
    ∧ Forall (λ c, length (votes c) = 3 ∧ cd_stage c = Abstract) cs
    ∧ counts = (countFinal FInclude cs, countFinal FExclude cs).
Proof.
  intros w w' counts Hm Hloop.
  set (Inv := λ (done : list Study) (acc : Z * Z) (w0 : World),
       ∃ cs, mem w0 = Some (with_abstract_verdicts cs st)
         ∧ cd_study_id <$> cs = study_id <$> done
         ∧ Forall (λ c, length (votes c) = 3 ∧ cd_stage c = Abstract) cs
         ∧ acc = (countFinal FInclude cs, countFinal FExclude cs)).
  assert (Hstep : ∀ done x acc w0 w1 acc',
            Inv done acc w0 →
            abstractScreeningStep env crit x acc w0 = (w1, Ok acc') →
            Inv (done ++ [x]) acc' w1).
  { intros done x acc w0 w1 acc' (cs & Hm0 & Hids & Hall & Hacc) Hstep.
    subst acc.
    destruct (abstractScreeningStep_exact _ _ _ _ _ _ _ Hm0 Hstep)
      as (c & Hr & Hlen & Hm1 & Hacc').
    subst acc'.
    pose proof (resolveVotes_fields _ _ _ _ _ _ _ Hr) as (Hid & _ & Hst).
    exists (cs ++ [c]). rewrite <- with_abstract_verdicts_snoc.
    split; [exact Hm1|]. split.
    { rewrite !fmap_app, Hids. simpl. by rewrite Hid. }
    split.
    { apply Forall_app. split; [done|]. by repeat constructor. }
    by rewrite !countFinal_snoc. }
  apply (for_each_trace (abstractScreeningStep env crit) Inv (λ _ _, True)
           Hstep (λ _ _ _ _ _ _ _ _, I) l [] (0, 0)%Z w w' (Ok counts));
    [|exact Hloop].
  exists []. rewrite with_abstract_verdicts_nil. by repeat split.
Qed.

Lemma generatePdfDownloadTable_world w w' r :
  generatePdfDownloadTable env w = (w', r) → w' = w.
Proof.
  unfold generatePdfDownloadTable, mbind, M_bind, getState, lift.
  destruct (mem w); [|by intros [= <-]].
  destruct (Nat.eqb _ 0); by intros [= <-].
Qed.
End StageOutcomes.

(** X13.  When abstract screening returns, the state in memory, which is also
    the newest snapshot, is the state it started from with one verdict of
    three votes appended for every study, in the order of the studies, the
    marker [abstract_screening], [title_abstract_screened] set to the
    number of studies and [abstract_excluded] to the number of exclude
    verdicts just appended; the include and exclude verdicts appended add up
    to the number of studies. *)
Theorem abstractScreening_counts (env : Oracles) (w w' : World)
    (st : GlobalState) :
  mem w = Some st →
  abstractScreening env w = (w', Ok ()) →
  ∃ cs,
    let st' :=
      with_stage AbstractScreening
        (with_counts
           (counts_screened (Z.of_nat (length (studies st)))
              (countFinal FExclude cs) (prisma_counts st))
           (with_abstract_verdicts cs st)) in
    mem w' = Some st' ∧ head (disk w') = Some st'
    ∧ cd_study_id <$> cs = study_id <$> studies st
    ∧ Forall (λ c, length (votes c) = 3 ∧ cd_stage c = Abstract) cs
    ∧ (countFinal FInclude cs + countFinal FExclude cs)%Z =
      Z.of_nat (length (studies st)).
Proof.
  intros Hm. unfold abstractScreening.
  unfold mbind at 1. unfold M_bind, getState. rewrite Hm.
  destruct (criteria st) as [crit|]; [|done].
  unfold mbind at 1. unfold M_bind, readSettings.
  destruct (config w); [|done].
  unfold mbind at 1. unfold M_bind.
  destruct (for_each _ _ _ w) as [w1 [counts|e]] eqn:Hloop; [|done].
  destruct (abstractScreening_loop env crit st _ _ _ _ Hm Hloop)
    as (cs & Hm1 & Hids & Hall & ->).
  unfold mbind, M_bind, assign, save. cbn [mem set_mem]. rewrite Hm1.
  cbn [fmap option_fmap option_map fst snd].
  destruct (writeState env _) as [[]|e]; [|done].
  assert (Htot : (countFinal FInclude cs + countFinal FExclude cs)%Z =
                 Z.of_nat (length (studies st))).
  { rewrite countFinal_total, <- (length_fmap cd_study_id), Hids.
    by rewrite length_fmap. }
  intros H. exists cs.
  destruct (countFinal FInclude cs >? 0)%Z.
  - apply generatePdfDownloadTable_world in H as ->. by repeat split.
  - injection H as <-. by repeat split.
Qed.

Lemma abstractScreening_counts_witness :
  ∃ cs,
    let st := default (initialState "") (mem ingestedWorld) in
    let st' :=
      with_stage AbstractScreening
        (with_counts
           (counts_screened (Z.of_nat (length (studies st)))
              (countFinal FExclude cs) (prisma_counts st))
           (with_abstract_verdicts cs st)) in
    mem (abstractScreening (splitOracles FExclude) ingestedWorld).1 = Some st'
    ∧ head (disk (abstractScreening (splitOracles FExclude)
                    ingestedWorld).1) = Some st'
    ∧ cd_study_id <$> cs = study_id <$> studies st
    ∧ Forall (λ c, length (votes c) = 3 ∧ cd_stage c = Abstract) cs
    ∧ (countFinal FInclude cs + countFinal FExclude cs)%Z =
      Z.of_nat (length (studies st)).
Proof.
  apply (abstractScreening_counts (splitOracles FExclude) ingestedWorld
           (abstractScreening (splitOracles FExclude) ingestedWorld).1
           (default (initialState "") (mem ingestedWorld))).
  - vm_compute. reflexivity.
  - vm_compute. reflexivity.
Defined.

Lemma filter_bool_split {A} (f : A → bool) (l : list A) :
  (length (filter (λ x, f x = true) l)
   + length (filter (λ x, f x = false) l))%nat = length l.
Proof.
  induction l as [|x l IH]; [done|]. rewrite !filter_cons.
  destruct (f x) eqn:Hx.
  - rewrite decide_True, decide_False by done. simpl. lia.
  - rewrite decide_False, decide_True by done. simpl. lia.
Qed.

(** X14.  When the PDF gate returns, the state in memory, which is also the
    newest snapshot, is the state it started from with the marker
    [pdf_fetching], [missing_pdfs] set to the ids of the studies included at
    the abstract stage that have no valid PDF, and [fulltext_retrieved] set
    to the number of distinct ids that have one.  The two never add up to
    more than the number of included studies, and add up to it exactly when
    the ids of the included studies are distinct. *)
Theorem pdfFetchingGate_counts (env : Oracles) (w w' : World)
    (st : GlobalState) :
  mem w = Some st →
  pdfFetchingGate env w = (w', Ok ()) →
  let ids :=
    map study_id (includedStudiesOf (abstract_consensus st) (studies st)) in
  let missing := filter (λ i, validPdf env i = false) ids in
  let available := remove_dups (filter (λ i, validPdf env i = true) ids) in
  let st' :=
    with_counts
      (counts_retrieved (Z.of_nat (length available)) (prisma_counts st))
      (with_stage PdfFetching (with_missing_pdfs missing st)) in
  mem w' = Some st' ∧ head (disk w') = Some st'
  ∧ (length available + length missing ≤ length ids)%nat
  ∧ (NoDup ids → (length available + length missing)%nat = length ids).
Proof.
  intros Hm Hrun ids missing available st'.
  split; [|split; [|split]].
  3: { pose proof (filter_bool_split (validPdf env) ids) as Hsplit.
       pose proof (remove_dups_length_le
                     (filter (λ i, validPdf env i = true) ids)).
       subst available missing. lia. }
  3: { intros Hnd.
       pose proof (filter_bool_split (validPdf env) ids) as Hsplit.
       subst available missing.
       rewrite remove_dups_NoDup_id by (by apply NoDup_filter). lia. }
  all: revert Hrun; unfold pdfFetchingGate;
    unfold mbind at 1; unfold M_bind, getState; rewrite Hm;
    unfold mbind at 1; unfold M_bind, readSettings;
    (destruct (config w); [|done]);
    unfold mbind at 1; unfold M_bind, lift;
    (destruct (readPdfDir env) as [[]|e]; [|done]);
    unfold checkAvailablePdfs; fold ids; fold missing; fold available;
    unfold mbind, M_bind, assign, save;
    (destruct (Nat.ltb 0 (length missing));
     [unfold lift; destruct (writeArtifact env _) as [[]|e]; [|done]|];
     cbn [mret M_ret mem set_mem fmap option_fmap option_map];
     rewrite Hm; cbn [fmap option_fmap option_map];
     (destruct (writeState env _) as [[]|e]; [|done]);
     by intros [= <-]).
Qed.

Lemma pdfFetchingGate_counts_witness :
  let env := steadyOracles DInclude FInclude in
  let w := (abstractScreening env ingestedWorld).1 in
  let st := default (initialState "") (mem w) in
  let ids :=
    map study_id (includedStudiesOf (abstract_consensus st) (studies st)) in
  let missing := filter (λ i, validPdf env i = false) ids in
  let available := remove_dups (filter (λ i, validPdf env i = true) ids) in
  let st' :=
    with_counts
      (counts_retrieved (Z.of_nat (length available)) (prisma_counts st))
      (with_stage PdfFetching (with_missing_pdfs missing st)) in
  mem (pdfFetchingGate env w).1 = Some st'
  ∧ head (disk (pdfFetchingGate env w).1) = Some st'
  ∧ (length available + length missing ≤ length ids)%nat
  ∧ (NoDup ids → (length available + length missing)%nat = length ids).
Proof.
  intros env w st.
  apply (pdfFetchingGate_counts env w (pdfFetchingGate env w).1 st).
  - vm_compute. reflexivity.
  - vm_compute. reflexivity.
Defined.

Section FullTextOutcome.
Variable env : Oracles.

Lemma with_fulltext_verdicts_nil s : with_fulltext_verdicts [] s = s.
Proof.
  destruct s as [? ? ? ? [] ? ? ? ? ? ? ?].
  unfold with_fulltext_verdicts, with_fulltext_consensus,
    with_fulltext_decisions, with_counts. simpl. by rewrite !app_nil_r.
Qed.

(** The state updates of one record of full-text screening. *)
Lemma with_fulltext_verdicts_snoc cs c s :
  push_fulltext_consensus c
    (push_fulltext_decisions (votes c)
       (if bool_decide (final_decision c = FInclude)
        then with_fulltext_verdicts cs s
        else with_counts
               (counts_push_excluded (exclusionOf c)
                  (prisma_counts (with_fulltext_verdicts cs s)))
               (with_fulltext_verdicts cs s))) =
  with_fulltext_verdicts (cs ++ [c]) s.
Proof.
  destruct s as [rid crit prot ss [c1 c2 c3 c4 c5 c6 c7] ad ac fd fc ex mp cur].
  assert (Hfilter :
    filter (λ c, final_decision c = FExclude) (cs ++ [c]) =
    filter (λ c, final_decision c = FExclude) cs
    ++ (if bool_decide (final_decision c = FInclude) then [] else [c])).
  { rewrite filter_app, filter_cons, filter_nil.
    destruct (final_decision c); [by rewrite decide_False|].
    by rewrite decide_True. }
  destruct (bool_decide (final_decision c = FInclude));
    cbv [with_fulltext_verdicts push_fulltext_consensus
         push_fulltext_decisions with_fulltext_consensus
         with_fulltext_decisions with_counts counts_push_excluded
         run_id criteria prospero_protocol studies prisma_counts
         abstract_decisions abstract_consensus fulltext_decisions
         fulltext_consensus extractions missing_pdfs current_stage
         identified deduplicated title_abstract_screened abstract_excluded
         fulltext_retrieved fulltext_excluded included];
    rewrite Hfilter, !fmap_app, concat_app; simpl;
    by rewrite ?app_nil_r, !app_assoc.
Qed.

(** One record of full-text screening that has a PDF, when it returns. *)
Lemma fullTextScreeningStep_exact copt pdfs study n w w' n' st pdfText :
  mem w = Some st →
  map_get pdfs (study_id study) = Some pdfText →
  fullTextScreeningStep env copt pdfs study n w = (w', Ok n') →
  ∃ c, resolveVotes env study (votes c) copt Fulltext (Some pdfText) = Ok c
    ∧ length (votes c) = 3
    ∧ mem w' =
      Some (push_fulltext_consensus c
              (push_fulltext_decisions (votes c)
                 (if bool_decide (final_decision c = FInclude) then st
                  else with_counts
                         (counts_push_excluded (exclusionOf c)
                            (prisma_counts st)) st)))
    ∧ head (disk w') = mem w'
    ∧ n' = (n + if bool_decide (final_decision c = FInclude)
                then 1 else 0)%Z.
Proof.
  intros Hm Hpdf. unfold fullTextScreeningStep. rewrite Hpdf.
  unfold mbind, M_bind, lift, append, save, assign.
  destruct (all_results _ _) as [vs|e] eqn:Hvs; [|done].
  destruct (resolveVotes _ _ _ _ _ _) as [c|e] eqn:Hr; [|done].
  pose proof (resolveVotes_fields _ _ _ _ _ _ _ Hr) as (Hid & Hv & _).
  apply all_results_length in Hvs.
  subst vs. rewrite <- Hid.
  change {| fx_study_id := cd_study_id c; fx_reason := exclusionReason c |}
    with (exclusionOf c).
  destruct (bool_decide (final_decision c = FInclude)) eqn:Hb;
    cbn [mret M_ret mem set_mem fmap option_fmap option_map];
    rewrite ?Hm; cbn [mem set_mem fmap option_fmap option_map];
    (destruct (writeState env _) as [[]|e]; [|done]);
    cbn [mem set_mem push_disk];
    (destruct (writeState env _) as [[]|e]; [|done]);
    intros [= <- <-]; exists c; rewrite Hb;
    cbn [mem disk push_disk set_mem head];
    (split; [exact Hr|]); (split; [exact Hvs|]); (split; [reflexivity|]);
    (split; [reflexivity|]); lia.
Qed.

(** The loop of full-text screening, when it returns. *)
Lemma fullTextScreening_loop copt pdfs st l : ∀ w w' n,
  mem w = Some st →
  for_each (fullTextScreeningStep env copt pdfs) l 0%Z w = (w', Ok n) →
  ∃ cs, mem w' = Some (with_fulltext_verdicts cs st)
    ∧ cd_study_id <$> cs =
      study_id <$> filter (λ s, is_Some (map_get pdfs (study_id s))) l
    ∧ Forall (λ c, length (votes c) = 3 ∧ cd_stage c = Fulltext) cs
    ∧ n = countFinal FInclude cs.
Proof.
  intros w w' n Hm Hloop.
  set (Inv := λ (done : list Study) (acc : Z) (w0 : World),
       ∃ cs, mem w0 = Some (with_fulltext_verdicts cs st)
         ∧ cd_study_id <$> cs =
           study_id <$>
             filter (λ s, is_Some (map_get pdfs (study_id s))) done
         ∧ Forall (λ c, length (votes c) = 3 ∧ cd_stage c = Fulltext) cs
         ∧ acc = countFinal FInclude cs).
  assert (Hstep : ∀ done x acc w0 w1 acc',
            Inv done acc w0 →
            fullTextScreeningStep env copt pdfs x acc w0 = (w1, Ok acc') →
            Inv (done ++ [x]) acc' w1).
  { intros done x acc w0 w1 acc' (cs & Hm0 & Hids & Hall & Hacc) Hstep.
    subst acc. unfold Inv. rewrite filter_app, filter_cons, filter_nil.
    destruct (map_get pdfs (study_id x)) as [pdfText|] eqn:Hpdf.
    - destruct (fullTextScreeningStep_exact _ _ _ _ _ _ _ _ _ Hm0 Hpdf Hstep)
        as (c & Hr & Hlen & Hm1 & _ & Hacc').
      subst acc'.
      pose proof (resolveVotes_fields _ _ _ _ _ _ _ Hr) as (Hid & _ & Hst).
      exists (cs ++ [c]). rewrite <- with_fulltext_verdicts_snoc.
      split; [exact Hm1|]. rewrite decide_True by eauto. split.
      { rewrite !fmap_app, Hids. simpl. by rewrite Hid. }
      split.
      { apply Forall_app. split; [done|]. by repeat constructor. }
      by rewrite countFinal_snoc.
    - rewrite (fullTextScreeningStep_skips env _ _ _ _ _ Hpdf) in Hstep.
      injection Hstep as <- <-.
      rewrite decide_False by (by intros [? ?]).
      exists cs. by rewrite app_nil_r. }
  apply (for_each_trace (fullTextScreeningStep env copt pdfs) Inv
           (λ _ _, True) Hstep (λ _ _ _ _ _ _ _ _, I)
           l [] 0%Z w w' (Ok n)); [|exact Hloop].
  exists []. rewrite with_fulltext_verdicts_nil. by repeat split.
Qed.
End FullTextOutcome.

(** X15.  When full-text screening returns, the state in memory, which is
    also the newest snapshot, is the state it started from with one verdict
    of three votes appended for every study included at the abstract stage
    whose PDF could be extracted, in order, and one entry appended to
    [fulltext_excluded] for every exclude verdict among them; the marker is
    [fulltext_screening], and [included] is overwritten with the number of
    include verdicts just appended. *)
Theorem fullTextScreening_counts (env : Oracles) (w w' : World)
    (st : GlobalState) :
  mem w = Some st →
  fullTextScreening env w = (w', Ok ()) →
  ∃ cs,
    let candidates :=
      includedStudiesOf (abstract_consensus st) (studies st) in
    let st' :=
      with_counts
        (counts_included (countFinal FInclude cs)
           (prisma_counts (with_fulltext_verdicts cs st)))
        (with_stage FulltextScreening (with_fulltext_verdicts cs st)) in
    mem w' = Some st' ∧ head (disk w') = Some st'
    ∧ cd_study_id <$> cs =
      study_id <$>
        filter (λ s, is_Some (map_get (extractAll env candidates [])
                                (study_id s))) candidates
    ∧ Forall (λ c, length (votes c) = 3 ∧ cd_stage c = Fulltext) cs
    ∧ (countFinal FInclude cs + countFinal FExclude cs)%Z =
      Z.of_nat (length cs).
Proof.
  intros Hm. unfold fullTextScreening.
  unfold mbind at 1. unfold M_bind, getState. rewrite Hm.
  unfold mbind at 1. unfold M_bind, readSettings.
  destruct (config w); [|done].
  unfold mbind at 1. unfold M_bind.
  destruct (for_each _ _ _ w) as [w1 [n|e]] eqn:Hloop; [|done].
  destruct (fullTextScreening_loop env _ _ st _ _ _ _ Hm Hloop)
    as (cs & Hm1 & Hids & Hall & ->).
  unfold mbind, M_bind, assign, save. cbn [mem set_mem]. rewrite Hm1.
  cbn [fmap option_fmap option_map].
  destruct (writeState env _) as [[]|e]; [|done].
  intros [= <-]. exists cs. split; [done|]. split; [done|].
  split; [done|]. split; [done|]. apply countFinal_total.
Qed.

Lemma fullTextScreening_counts_witness :
  let env := steadyOracles DExclude FExclude in
  let w := (pdfFetchingGate (steadyOracles DInclude FInclude)
              (abstractScreening (steadyOracles DInclude FInclude)
                 ingestedWorld).1).1 in
  let st := default (initialState "") (mem w) in
  ∃ cs,
    let candidates :=
      includedStudiesOf (abstract_consensus st) (studies st) in
    let st' :=
      with_counts
        (counts_included (countFinal FInclude cs)
           (prisma_counts (with_fulltext_verdicts cs st)))
        (with_stage FulltextScreening (with_fulltext_verdicts cs st)) in
    mem (fullTextScreening env w).1 = Some st'
    ∧ head (disk (fullTextScreening env w).1) = Some st'
    ∧ cd_study_id <$> cs =
      study_id <$>
        filter (λ s, is_Some (map_get (extractAll env candidates [])
                                (study_id s))) candidates
    ∧ Forall (λ c, length (votes c) = 3 ∧ cd_stage c = Fulltext) cs
    ∧ (countFinal FInclude cs + countFinal FExclude cs)%Z =
      Z.of_nat (length cs).
Proof.
  intros env w st.
  apply (fullTextScreening_counts env w (fullTextScreening env w).1 st).
  - vm_compute. reflexivity.
  - vm_compute. reflexivity.
Defined.

(** *** Resolution of the votes, inclusion, ingestion *)

(** X16.  The driver resolves three votes as follows.  Votes with a clear
    majority are resolved without the adjudicator, by the majority.  Votes
    that call for the adjudicator are resolved by its answer: an exception
    of the adjudicator is passed on, an answer with an empty rationale
    makes the resolution throw although the answer is valid for its schema,
    and any other answer gives the verdict its final decision and its
    rationale. *)
Theorem resolveVotes_outcome (env : Oracles) (study : Study)
    (vs : list ScreeningDecision) (crit : option Criteria)
    (stage : ScreenStage) (pdf : option ExtractedPdf) :
  length vs = 3 →
  (escalates vs = false →
   ∃ d, resolveVotes env study vs crit stage pdf = Ok d
        ∧ createConsensusDecision (study_id study) vs stage None = Ok d
        ∧ majority_decision stage d)
  ∧ (escalates vs = true →
     match adjudicate env study vs crit stage pdf with
     | Throw e => resolveVotes env study vs crit stage pdf = Throw e
     | Ok adj =>
       if String.eqb (adj_rationale adj) ""
       then resolveVotes env study vs crit stage pdf = Throw RationaleRequired
       else resolveVotes env study vs crit stage pdf =
            Ok {| cd_stage := stage; cd_study_id := study_id study;
                  votes := vs; consensus := CEscalate;
                  final_decision := adj_final_decision adj;
                  adjudicator_rationale := Some (adj_rationale adj) |}
     end).
Proof.
  intros Hlen. split; intros Hesc.
  - destruct (createConsensusDecision_majority (study_id study) vs stage
                Hlen Hesc) as (d & Hd & _ & _ & Hmaj).
    exists d. split; [|by split].
    unfold resolveVotes. unfold escalates in Hesc.
    destruct (calculateConsensus vs) as [r|e] eqn:Hc.
    + by rewrite Hesc.
    + unfold createConsensusDecision in Hd. by rewrite Hc in Hd.
  - unfold resolveVotes. pose proof Hesc as Hesc'. unfold escalates in Hesc.
    destruct (calculateConsensus vs) as [r|e] eqn:Hc; [|done].
    rewrite Hesc.
    destruct (adjudicate env study vs crit stage pdf) as [adj|e]; [|done].
    destruct (createConsensusDecision_on_escalation (study_id study) vs stage
                (Some (adj_rationale adj)) Hesc') as [Hsome Hnone].
    simpl in Hsome, Hnone.
    destruct (String.eqb (adj_rationale adj) ""); simpl in *.
    + by rewrite Hnone.
    + by rewrite Hsome.
Qed.

Lemma resolveVotes_outcome_witness :
  resolveVotes
    (steadyOracles DUnsure FExclude) studyA (splitVotes studyA)
    (Some demoCriteria) Abstract None =
  Ok {| cd_stage := Abstract; cd_study_id := "a1";
        votes := splitVotes studyA; consensus := CEscalate;
        final_decision := FExclude;
        adjudicator_rationale := Some "criteria not met" |}.
Proof.
  exact (proj2 (resolveVotes_outcome (steadyOracles DUnsure FExclude) studyA
                  (splitVotes studyA) (Some demoCriteria) Abstract None
                  eq_refl) eq_refl).
Defined.

Lemma find_study_Some (ss : list Study) (i : string) :
  i ∈ study_id <$> ss →
  ∃ s, find (λ s, bool_decide (study_id s = i)) ss = Some s.
Proof.
  induction ss as [|s0 ss IH]; [by intros ?%elem_of_nil|].
  rewrite fmap_cons. simpl. intros Hin. case_bool_decide; [eauto|].
  apply elem_of_cons in Hin as [->|Hin]; [done|]. auto.
Qed.

Lemma find_study_spec (ss : list Study) (i : string) s :
  find (λ s, bool_decide (study_id s = i)) ss = Some s →
  s ∈ ss ∧ study_id s = i.
Proof.
  induction ss as [|s0 ss IH]; [done|]. simpl. case_bool_decide.
  - intros [= <-]. split; [left | done].
  - intros H'. destruct (IH H') as [? ?]. split; [by right | done].
Qed.

(** X17.  The studies handed to the PDF gate and to the later stages are
    read off the verdicts: each one is a study of the state that has an
    include verdict, there are at most as many as include verdicts, a
    verdict whose study id is unknown being dropped silently and a study
    with two include verdicts being listed twice; when every include
    verdict names a known study, their ids are those of the include
    verdicts, in order. *)
Theorem includedStudiesOf_sound (cs : list ConsensusDecision)
    (ss : list Study) :
  Forall (λ s, s ∈ ss
               ∧ ∃ c, c ∈ cs ∧ final_decision c = FInclude
                      ∧ cd_study_id c = study_id s)
         (includedStudiesOf cs ss)
  ∧ (length (includedStudiesOf cs ss)
     ≤ length (filter (λ c, final_decision c = FInclude) cs))%nat
  ∧ ((∀ c, c ∈ cs → final_decision c = FInclude →
           cd_study_id c ∈ study_id <$> ss) →
     study_id <$> includedStudiesOf cs ss =
     cd_study_id <$> filter (λ c, final_decision c = FInclude) cs).
Proof.
  unfold includedStudiesOf. split; [|split].
  - apply Forall_forall. intros s Hs.
    apply list_elem_of_omap in Hs as (c & Hc & Hfind).
    apply list_elem_of_filter in Hc as [Hinc Hc].
    apply find_study_spec in Hfind as [Hin Hid]. split; [done|].
    by exists c.
  - generalize (filter (λ c, final_decision c = FInclude) cs). intros l.
    induction l as [|c l IH]; [done|]. unfold omap in *. simpl.
    destruct (find _ ss); simpl; lia.
  - intros Hknown.
    assert (Hall : ∀ c, c ∈ filter (λ c, final_decision c = FInclude) cs →
                        cd_study_id c ∈ study_id <$> ss).
    { intros c Hc. apply list_elem_of_filter in Hc as [? ?]. auto. }
    induction (filter _ cs) as [|c l IH]; [done|]. simpl.
    destruct (find_study_Some ss (cd_study_id c)) as (s & Hs).
    { apply Hall. left. }
    rewrite Hs. simpl. apply find_study_spec in Hs as [_ ->].
    f_equal. apply IH. intros c' Hc'. apply Hall. by right.
Qed.

Section Ingest.
Variable env : Oracles.

Lemma parse_loop files : ∀ acc w,
  for_each (λ file acc, studies ← lift (parseSearchFile env file);
                        mret (acc ++ studies)) files acc w =
  (w, match all_results (parseSearchFile env) files with
      | Ok lists => Ok (acc ++ concat lists)
      | Throw e => Throw e
      end).
Proof.
  induction files as [|f files IH]; intros acc w; simpl.
  - by rewrite app_nil_r.
  - unfold mbind at 1. unfold M_bind. unfold mbind at 1.
    unfold M_bind, lift.
    destruct (parseSearchFile env f) as [l|e]; [|done].
    cbn [mret M_ret]. rewrite IH.
    destruct (all_results _ files) as [lists|e]; [|done].
    by rewrite <- app_assoc.
Qed.
End Ingest.

(** X18.  [ingest] reads the search exports in the order given.  If one of
    them cannot be parsed, it throws and changes nothing, the records of the
    files before it being lost.  When it returns, the state in memory, which
    is also the newest snapshot, holds the unique records of the
    deduplication of all parsed records with the configured threshold, the
    marker [ingested], [identified] set to the number of parsed records and
    [deduplicated] to the number of unique ones, which is never more. *)
Theorem ingest_outcome (env : Oracles) (files : list string) (w : World)
    (st : GlobalState) :
  mem w = Some st →
  (∀ e, all_results (parseSearchFile env) files = Throw e →
        ingest env files w = (w, Throw e))
  ∧ (∀ w', ingest env files w = (w', Ok ()) →
       ∃ lists cfg,
         all_results (parseSearchFile env) files = Ok lists
         ∧ config w = Some cfg
         ∧ let r := deduplicateStudies (compareTwoStrings env)
                      (concat lists) (title_similarity cfg) in
           let st' :=
             with_counts
               (counts_ingested (Z.of_nat (length (concat lists)))
                  (Z.of_nat (length (unique r))) (prisma_counts st))
               (with_stage Ingested (with_studies (unique r) st)) in
           mem w' = Some st' ∧ head (disk w') = Some st'
           ∧ (deduplicated (prisma_counts st')
              <= identified (prisma_counts st'))%Z).
Proof.
  intros Hm. unfold ingest. split.
  - intros e He. unfold mbind at 1. unfold M_bind.
    by rewrite parse_loop, He.
  - intros w'. unfold mbind at 1. unfold M_bind. rewrite parse_loop.
    destruct (all_results _ files) as [lists|e]; [|done]. simpl app.
    unfold mbind at 1. unfold M_bind, readSettings.
    destruct (config w) as [cfg|]; [|done].
    unfold mbind, M_bind, update, assign, save. rewrite Hm.
    cbn [mem set_mem].
    destruct (writeState env _) as [[]|e]; [|done].
    cbn [mem set_mem push_disk fmap option_fmap option_map].
    destruct (writeState env _) as [[]|e]; [|done].
    intros [= <-]. exists lists, cfg. split; [done|]. split; [done|].
    split; [done|]. split; [done|]. simpl.
    pose proof (deduplicate_length (compareTwoStrings env) (concat lists)
                  (title_similarity cfg)). lia.
Qed.

Lemma ingest_outcome_witness :
  let env := steadyOracles DInclude FInclude in
  let w := (init env demoCriteria "run-1" emptyWorld).1 in
  let st := default (initialState "") (mem w) in
  (∀ e, all_results (parseSearchFile env) ["a.ris"] = Throw e →
        ingest env ["a.ris"] w = (w, Throw e))
  ∧ (∀ w', ingest env ["a.ris"] w = (w', Ok ()) →
       ∃ lists cfg,
         all_results (parseSearchFile env) ["a.ris"] = Ok lists
         ∧ config w = Some cfg
         ∧ let r := deduplicateStudies (compareTwoStrings env)
                      (concat lists) (title_similarity cfg) in
           let st' :=
             with_counts
               (counts_ingested (Z.of_nat (length (concat lists)))
                  (Z.of_nat (length (unique r))) (prisma_counts st))
               (with_stage Ingested (with_studies (unique r) st)) in
           mem w' = Some st' ∧ head (disk w') = Some st'
           ∧ (deduplicated (prisma_counts st')
              <= identified (prisma_counts st'))%Z).
Proof.
  intros env w st. apply (ingest_outcome env ["a.ris"] w st).
  vm_compute. reflexivity.
Defined.

(** *** The store *)


(** ** The check of the counters *)

Section Doubles.

(** An integer of magnitude at most [2^53] is a double. *)
Lemma roundToDouble_exact x :
  (Z.abs x <= 2 ^ 53)%Z → roundToDouble x = x.
Proof.
  intros Hx. unfold roundToDouble, ulpExponent.
  destruct (decide (Z.abs x = 2 ^ 53)%Z) as [Heq|Hne].
  - rewrite Heq. change (Z.max 0 (Z.log2 (2 ^ 53) - 52))%Z with 1%Z.
    change (2 ^ 1)%Z with 2%Z.
    assert (x = 2 ^ 53 ∨ x = - 2 ^ 53)%Z as [-> | ->] by lia; done.
  - assert (Z.log2 (Z.abs x) < 53)%Z as Hlog.
    { destruct (decide (Z.abs x = 0)%Z) as [->|]; [done|].
      apply Z.log2_lt_pow2; lia. }
    rewrite Z.max_l by lia. change (2 ^ 0)%Z with 1%Z.
    rewrite Z.mod_1_r, Z.div_1_r. simpl. lia.
Qed.

Lemma doubleSub_exact a b :
  (Z.abs (a - b) <= 2 ^ 53)%Z → doubleSub a b = Finite (a - b).
Proof.
  intros H. unfold doubleSub. rewrite roundToDouble_exact by done.
  assert (2 ^ 53 < 2 ^ 1024)%Z by (by apply Z.pow_lt_mono_r).
  rewrite (proj2 (Z.leb_gt _ _)) by lia.
  by rewrite (proj2 (Z.leb_gt _ _)) by lia.
Qed.

(** Beyond [2^53] the subtraction rounds, and [validateCounts] accepts
    counters whose [abstract_excluded] is not the difference: here the
    exact difference [2^53 + 1] is rounded to [2^53]. *)
Lemma validateCounts_rounds :
  valid (validateCounts roundedCounts) = true
  ∧ abstract_excluded roundedCounts ≠
    (title_abstract_screened roundedCounts
     - fulltext_retrieved roundedCounts)%Z.
Proof. split; [by vm_compute | by vm_compute]. Qed.
End Doubles.

(** X20.  On counters whose difference screened minus retrieved is at most
    [2^53] in magnitude, as it is for any two counts below [2^53], the
    subtraction is exact and [validateCounts] accepts exactly when the
    counters are in funnel order and [abstract_excluded] is that
    difference; each comparison message it reports names a condition that
    fails.  For counters as abstract screening and the PDF gate leave them,
    where the records screened are the included plus the excluded ones, it
    accepts only if a PDF was retrieved for every included record. *)
Theorem validateCounts_spec (counts : PrismaCounts) :
  (Z.abs (title_abstract_screened counts - fulltext_retrieved counts)
   <= 2 ^ 53)%Z →
  (valid (validateCounts counts) = true ↔
   funnel_ok counts
   ∧ abstract_excluded counts =
     (title_abstract_screened counts - fulltext_retrieved counts)%Z)
  ∧ (IdentifiedBelowDeduplicated ∈ errors (validateCounts counts) ↔
     (identified counts < deduplicated counts)%Z)
  ∧ (DeduplicatedBelowScreened ∈ errors (validateCounts counts) ↔
     (deduplicated counts < title_abstract_screened counts)%Z)
  ∧ (ScreenedBelowRetrieved ∈ errors (validateCounts counts) ↔
     (title_abstract_screened counts < fulltext_retrieved counts)%Z)
  ∧ (RetrievedBelowIncluded ∈ errors (validateCounts counts) ↔
     (fulltext_retrieved counts < included counts)%Z)
  ∧ (∀ includedAtAbstract,
       title_abstract_screened counts =
       (includedAtAbstract + abstract_excluded counts)%Z →
       valid (validateCounts counts) = true →
       fulltext_retrieved counts = includedAtAbstract).
Proof.
  intros Hsafe. unfold validateCounts, funnel_ok. cbn [valid errors].
  rewrite (doubleSub_exact _ _ Hsafe).
  destruct (identified counts <? deduplicated counts)%Z eqn:H1;
  destruct (deduplicated counts <? title_abstract_screened counts)%Z eqn:H2;
  destruct (title_abstract_screened counts <? fulltext_retrieved counts)%Z
    eqn:H3;
  destruct (fulltext_retrieved counts <? included counts)%Z eqn:H4;
  (destruct (bool_decide_reflect
               (Finite (abstract_excluded counts) =
                Finite (title_abstract_screened counts
                        - fulltext_retrieved counts))) as [H5|H5];
   [injection H5 as H5
   |assert (abstract_excluded counts ≠
            (title_abstract_screened counts - fulltext_retrieved counts)%Z)
      by (intros Heq; apply H5; by rewrite Heq); clear H5]);
  rewrite ?Z.ltb_lt, ?Z.ltb_ge in *;
  simpl; rewrite ?elem_of_cons, ?elem_of_nil;
  intuition (try discriminate; try lia).
Qed.

Lemma validateCounts_spec_witness :
  (valid (validateCounts soundCounts) = true ↔
   funnel_ok soundCounts
   ∧ abstract_excluded soundCounts =
     (title_abstract_screened soundCounts
      - fulltext_retrieved soundCounts)%Z)
  ∧ (IdentifiedBelowDeduplicated ∈ errors (validateCounts soundCounts) ↔
     (identified soundCounts < deduplicated soundCounts)%Z)
  ∧ (DeduplicatedBelowScreened ∈ errors (validateCounts soundCounts) ↔
     (deduplicated soundCounts < title_abstract_screened soundCounts)%Z)
  ∧ (ScreenedBelowRetrieved ∈ errors (validateCounts soundCounts) ↔
     (title_abstract_screened soundCounts
      < fulltext_retrieved soundCounts)%Z)
  ∧ (RetrievedBelowIncluded ∈ errors (validateCounts soundCounts) ↔
     (fulltext_retrieved soundCounts < included soundCounts)%Z)
  ∧ (∀ includedAtAbstract,
       title_abstract_screened soundCounts =
       (includedAtAbstract + abstract_excluded soundCounts)%Z →
       valid (validateCounts soundCounts) = true →
       fulltext_retrieved soundCounts = includedAtAbstract).
Proof.
  apply (validateCounts_spec soundCounts). simpl. lia.
Defined.

(** ** CSV fields *)

Section EscapeCsv.
Implicit Types (c : ascii) (l : list ascii).

Lemma includesChar_spec c l : includesChar c l = true ↔ c ∈ l.
Proof.
  unfold includesChar. rewrite existsb_exists. split.
  - intros (x & Hx & Heq). apply bool_decide_eq_true in Heq as ->.
    by apply list_elem_of_In.
  - intros Hc. exists c. split; [by apply list_elem_of_In|].
    by apply bool_decide_eq_true.
Qed.

Lemma trim_chars_sublist l : trim_chars l `sublist_of` l.
Proof.
  rewrite trim_chars_drop_end.
  etrans; [apply drop_end_sublist | apply drop_spaces_sublist].
Qed.

Lemma cleanCsv_no_breaks l : (LF ∉ cleanCsv l) ∧ (CR ∉ cleanCsv l).
Proof.
  unfold cleanCsv.
  assert (Hin : ∀ c, c ∈ trim_chars
                  (filter (λ c, c ≠ CR)
                     (map (λ c, if bool_decide (c = LF) then " "%char else c)
                        l)) →
                c ≠ CR ∧ c ≠ LF).
  { intros c Hc.
    apply (λ H, elem_of_sublist _ _ c H (trim_chars_sublist _)) in Hc.
    apply list_elem_of_filter in Hc as [Hne Hc]. split; [done|].
    apply list_elem_of_fmap in Hc as (c0 & -> & _).
    by case_bool_decide. }
  split; intros H; apply Hin in H as [? ?]; done.
Qed.

Lemma doubleQuotes_elem c l : c ∈ doubleQuotes l ↔ c ∈ l.
Proof.
  unfold doubleQuotes. induction l as [|x l IH]; [done|]. simpl.
  rewrite elem_of_app, IH, elem_of_cons. case_bool_decide; subst.
  - rewrite !elem_of_cons, elem_of_nil. tauto.
  - rewrite elem_of_cons, elem_of_nil. tauto.
Qed.

Lemma countQuotes_doubleQuotes l :
  countQuotes (doubleQuotes l) = (2 * countQuotes l)%nat.
Proof.
  unfold countQuotes, doubleQuotes. induction l as [|x l IH]; [done|].
  simpl. rewrite filter_app, length_app, IH, filter_cons.
  case_bool_decide; subst.
  - rewrite !filter_cons, filter_nil, !decide_True by done. simpl. lia.
  - rewrite filter_cons, filter_nil, !decide_False by done. simpl. lia.
Qed.

Lemma countQuotes_none l : DQUOTE ∉ l → countQuotes l = 0%nat.
Proof.
  unfold countQuotes. induction l as [|x l IH]; [done|].
  intros Hin. apply not_elem_of_cons in Hin as [Hne Hin].
  rewrite filter_cons, decide_False by done. auto.
Qed.
End EscapeCsv.

(** X21.  A field escaped for CSV holds no line break; if it holds a comma
    or a double quote it is enclosed in double quotes, and its double quotes
    then come in pairs, so that their number is even in every case.  The
    third test of the code, for a line feed in the cleaned field, never
    holds.  A field without comma, double quote, line break or white space at
    its ends is returned as it is. *)
Theorem escapeCsv_spec (field : string) :
  let out := list_ascii_of_string (escapeCsv field) in
  (LF ∉ out) ∧ (CR ∉ out)
  ∧ (","%char ∈ out ∨ DQUOTE ∈ out →
     ∃ body, out = DQUOTE :: body ++ [DQUOTE])
  ∧ Nat.Even (countQuotes out)
  ∧ includesChar LF (cleanCsv (list_ascii_of_string field)) = false
  ∧ (cleanCsv (list_ascii_of_string field) = list_ascii_of_string field →
     ","%char ∉ list_ascii_of_string field →
     DQUOTE ∉ list_ascii_of_string field →
     escapeCsv field = field).
Proof.
  intros out. subst out. unfold escapeCsv.
  set (cleaned := cleanCsv (list_ascii_of_string field)).
  destruct (cleanCsv_no_breaks (list_ascii_of_string field)) as [HLF HCR].
  fold cleaned in HLF, HCR.
  assert (Hlf : includesChar LF cleaned = false).
  { apply not_true_iff_false. by rewrite includesChar_spec. }
  destruct (String.eqb field "") eqn:Hempty.
  { apply String.eqb_eq in Hempty as ->. simpl.
    rewrite !elem_of_nil. split; [tauto|]. split; [tauto|].
    split; [tauto|]. split; [by exists 0%nat|]. done. }
  rewrite Hlf, orb_false_r.
  destruct (includesChar ","%char cleaned || includesChar DQUOTE cleaned)
    eqn:Hq.
  - rewrite list_ascii_of_string_of_list_ascii.
    assert (Hno : ∀ c, c ≠ DQUOTE → c ∉ cleaned →
                       c ∉ DQUOTE :: doubleQuotes cleaned ++ [DQUOTE]).
    { intros c Hc Hin.
      rewrite elem_of_cons, elem_of_app, doubleQuotes_elem,
        list_elem_of_singleton. tauto. }
    split; [by apply Hno|]. split; [by apply Hno|].
    split; [by eexists|]. split; [|split; [done|]].
    + unfold countQuotes at 1. rewrite filter_cons, decide_True by done.
      cbn [length]. rewrite filter_app, length_app.
      fold (countQuotes (doubleQuotes cleaned)).
      rewrite countQuotes_doubleQuotes. simpl.
      exists (S (countQuotes cleaned)). lia.
    + intros Heq Hc Hd. apply orb_true_iff in Hq.
      rewrite !includesChar_spec, Heq in Hq. tauto.
  - apply orb_false_iff in Hq as [Hc Hd].
    apply not_true_iff_false in Hc, Hd. rewrite includesChar_spec in Hc, Hd.
    rewrite list_ascii_of_string_of_list_ascii.
    split; [done|]. split; [done|]. split; [tauto|].
    split; [rewrite countQuotes_none by done; by exists 0%nat|].
    split; [done|]. intros Heq _ _.
    by rewrite Heq, string_of_list_ascii_of_string.
Qed.

(** ** PDF files *)

Section PdfBytes.
Implicit Types (p l : list ascii).

Lemma startsWith_spec p l :
  startsWith p l = true ↔ ∃ rest, l = p ++ rest.
Proof.
  revert l. induction p as [|a p IH]; intros l; simpl.
  - split; [by exists l | done].
  - destruct l as [|b l].
    + split; [done | by intros [? ?]].
    + rewrite andb_true_iff, bool_decide_eq_true, IH. split.
      * intros [-> [rest ->]]. by exists rest.
      * intros [rest [= -> ->]]. split; [done | by exists rest].
Qed.

Lemma includes_spec p l :
  includes p l = true ↔ ∃ pre post, l = pre ++ p ++ post.
Proof.
  induction l as [|b l IH]; simpl.
  - rewrite orb_false_r, startsWith_spec. split.
    + intros [rest H]. by exists [], rest.
    + intros (pre & post & H). symmetry in H.
      apply app_eq_nil in H as [-> H]. by exists post.
  - rewrite orb_true_iff, startsWith_spec, IH. split.
    + intros [[rest H]|(pre & post & ->)].
      * by exists [], rest.
      * by exists (b :: pre), post.
    + intros (pre & post & H). destruct pre as [|x pre].
      * left. by exists post.
      * right. injection H as -> ->. by exists pre, post.
Qed.

Lemma lastBytes_suffix n l : ∃ pre, l = pre ++ lastBytes n l.
Proof.
  exists (take (length l - n) l). unfold lastBytes. by rewrite take_drop.
Qed.

Lemma lastBytes_app n l junk :
  (n ≤ length junk)%nat → lastBytes n (l ++ junk) = lastBytes n junk.
Proof.
  intros Hn. unfold lastBytes. rewrite length_app.
  rewrite drop_app_ge by lia. f_equal. lia.
Qed.

Lemma includes_suffix p pre l :
  includes p l = true → includes p (pre ++ l) = true.
Proof.
  rewrite !includes_spec. intros (a & b & ->).
  exists (pre ++ a), b. by rewrite <- app_assoc.
Qed.
End PdfBytes.

(** X22.  The two copies of the PDF check, in the fetcher and in the
    extractor, accept the same buffers.  An accepted buffer starts with the
    five bytes of the header and holds the end marker after them, so it has
    at least ten bytes.  An end marker followed by 1024 or more bytes that
    hold no marker is not seen. *)
Theorem isValidPdf_spec (buffer : list ascii) :
  PdfExtract.isPdfValid buffer = isValidPdf buffer
  ∧ (isValidPdf buffer = true →
     (∃ rest, buffer = pdfHeader ++ rest)
     ∧ (10 ≤ length buffer)%nat)
  ∧ (∀ junk, (1024 ≤ length junk)%nat → includes pdfEof junk = false →
             isValidPdf (buffer ++ junk) = false).
Proof.
  split; [done|]. split.
  - unfold isValidPdf.
    destruct (startsWith pdfHeader (take 5 buffer)) eqn:Hh; [|done].
    destruct (includes pdfEof (lastBytes 1024 buffer)) eqn:He; [|done].
    intros _.
    apply startsWith_spec in Hh as [rest Hh].
    assert (Hrest : rest = []).
    { apply (f_equal length) in Hh. rewrite length_app in Hh.
      pose proof (firstn_le_length 5 buffer) as Hle.
      change (length pdfHeader) with 5%nat in Hh.
      destruct rest; [done|]. cbn [length] in Hh. lia. }
    subst rest. rewrite app_nil_r in Hh.
    assert (Hb : buffer = pdfHeader ++ drop 5 buffer).
    { by rewrite <- Hh, take_drop. }
    split; [by eexists|].
    destruct (lastBytes_suffix 1024 buffer) as [pre0 Hpre].
    apply includes_spec in He as (pre & post & He).
    rewrite He in Hpre. rewrite app_assoc in Hpre.
    remember (pre0 ++ pre) as X eqn:HX. clear HX He Hh.
    rewrite Hpre in Hb. rewrite Hpre, !length_app.
    change (length pdfEof) with 5%nat.
    unfold pdfHeader, pdfEof in Hb.
    destruct X as [|x0 [|x1 [|x2 [|x3 [|x4 X]]]]]; simpl in *;
      try discriminate; lia.
  - intros junk Hlen Hno. unfold isValidPdf.
    destruct (startsWith pdfHeader (take 5 (buffer ++ junk))); [|done].
    rewrite lastBytes_app by done.
    destruct (includes pdfEof (lastBytes 1024 junk)) eqn:He; [|done].
    destruct (lastBytes_suffix 1024 junk) as [pre Hpre].
    apply (includes_suffix _ pre) in He. rewrite <- Hpre in He. congruence.
Qed.

Section PdfExtractFacts.
Import PdfExtract.
Variable Info : Type.
Variable emptyInfo : Info.
Variable readFile : string → outcome (list ascii).
Variable pdfParse : list ascii → outcome (PdfData Info).

Local Abbreviation extractNative' :=
  (extractNative Info emptyInfo pdfParse).

Lemma native_pages (pageTexts : list (list ascii)) (n k : nat) :
  let pages :=
    map (λ i, {| page_number := i + 1;
                 page_text := pageTextAt pageTexts i;
                 has_ocr := false |}) (seq k n) in
  length pages = n
  ∧ map page_number pages = seq (S k) n
  ∧ Forall (λ p, has_ocr p = false) pages.
Proof.
  intros pages. subst pages. split; [by rewrite length_map, length_seq|].
  split.
  - revert k. induction n as [|n IH]; intros k; simpl; [done|].
    f_equal; [lia|]. apply IH.
  - apply Forall_forall. intros p Hp.
    apply list_elem_of_In, in_map_iff in Hp as (i & <- & _). done.
Qed.

(** The [try] block of [extractPdfText], when it returns. *)
Lemma extractNative_Done filePath studyId ocrEnabled dataBuffer r :
  extractNative' filePath studyId ocrEnabled dataBuffer = Done r →
  ∃ pdfData,
    pdfParse dataBuffer = Done pdfData
    ∧ ((r = extractWithOcr Info filePath studyId (pdf_info Info pdfData)
        ∧ ocrEnabled = true
        ∧ (numpages Info pdfData ≤ 50)%nat)
       ∨ (extraction_method Info r = Native
          ∧ total_pages Info r = numpages Info pdfData
          ∧ length (xp_pages Info r) = numpages Info pdfData
          ∧ map page_number (xp_pages Info r) =
            seq 1 (numpages Info pdfData)
          ∧ Forall (λ p, has_ocr p = false) (xp_pages Info r)
          ∧ xp_full_text Info r =
            joinPages (map page_text (xp_pages Info r)))).
Proof.
  unfold extractNative, extractPageTexts.
  destruct (pdfParse dataBuffer) as [pdfData|e]; [|done].
  destruct (pdf_text Info pdfData) as [text|]; [|done].
  destruct (native_pages (splitPages text 0 [] [])
              (numpages Info pdfData) 0) as (Hlen & Hnum & Hocr).
  match goal with
  | |- context [if ?c then _ else _] => destruct c eqn:Hcond
  end.
  - apply andb_true_iff in Hcond as [Hcond Hle].
    apply andb_true_iff in Hcond as [_ ->]. apply Nat.leb_le in Hle.
    intros [= <-]. exists pdfData. split; [done|]. by left.
  - intros [= <-]. exists pdfData. split; [done|]. right.
    by repeat split.
Qed.

(** With OCR enabled, a valid file always gives a document. *)
Lemma extractPdfText_ocr filePath studyId dataBuffer :
  readFile filePath = Done dataBuffer →
  isPdfValid dataBuffer = true →
  ∃ r, extractPdfText Info emptyInfo readFile pdfParse filePath studyId true
       = Done r.
Proof.
  intros Hr Hv. unfold extractPdfText. rewrite Hr, Hv. simpl.
  destruct (extractNative' filePath studyId true dataBuffer); eauto.
Qed.

Lemma extractPdfText_Done filePath studyId ocrEnabled r :
  extractPdfText Info emptyInfo readFile pdfParse filePath studyId ocrEnabled
  = Done r →
  ∃ dataBuffer,
    readFile filePath = Done dataBuffer
    ∧ isPdfValid dataBuffer = true
    ∧ (extractNative' filePath studyId ocrEnabled dataBuffer = Done r
       ∨ (ocrEnabled = true
          ∧ r = extractWithOcr Info filePath studyId (Some emptyInfo))).
Proof.
  unfold extractPdfText.
  destruct (readFile filePath) as [dataBuffer|e]; [|done].
  destruct (isPdfValid dataBuffer) eqn:Hv; [|done]. simpl.
  destruct (extractNative' filePath studyId ocrEnabled dataBuffer)
    as [r'|e] eqn:Hn.
  - intros [= <-]. exists dataBuffer. auto.
  - destruct ocrEnabled; [|done]. intros [= <-]. exists dataBuffer. auto.
Qed.
End PdfExtractFacts.

(** X23.  [extractPdfText] gives a document only for a file that can be read
    and passes the PDF check.  With OCR enabled it then never fails: when the
    PDF library fails, or finds no page with more than 50 characters of text
    in a file of at most 50 pages, the document is the one of the OCR
    placeholder, which has no pages and an empty text.  A document that is
    not the placeholder's has as many pages as the library counted,
    numbered from 1, and its text is the text of its pages joined by blank
    lines. *)
Theorem extractPdfText_outcome (Info : Type) (emptyInfo : Info)
    (readFile : string → PdfExtract.outcome (list ascii))
    (pdfParse : list ascii → PdfExtract.outcome (PdfExtract.PdfData Info))
    (filePath studyId : string) (ocrEnabled : bool) :
  let run := PdfExtract.extractPdfText Info emptyInfo readFile pdfParse
               filePath studyId in
  (∀ r, run ocrEnabled = PdfExtract.Done r →
     (∃ dataBuffer, readFile filePath = PdfExtract.Done dataBuffer
                    ∧ isValidPdf dataBuffer = true)
     ∧ ((PdfExtract.extraction_method Info r = PdfExtract.Ocr
         ∧ ocrEnabled = true
         ∧ PdfExtract.total_pages Info r = 0%nat
         ∧ PdfExtract.xp_pages Info r = []
         ∧ PdfExtract.xp_full_text Info r = [])
        ∨ (PdfExtract.extraction_method Info r = PdfExtract.Native
           ∧ length (PdfExtract.xp_pages Info r) =
             PdfExtract.total_pages Info r
           ∧ map PdfExtract.page_number (PdfExtract.xp_pages Info r) =
             seq 1 (PdfExtract.total_pages Info r)
           ∧ PdfExtract.xp_full_text Info r =
             PdfExtract.joinPages
               (map PdfExtract.page_text (PdfExtract.xp_pages Info r)))))
  ∧ (∀ dataBuffer, readFile filePath = PdfExtract.Done dataBuffer →
       isValidPdf dataBuffer = true →
       ∃ r, run true = PdfExtract.Done r)
  ∧ (∀ dataBuffer, readFile filePath = PdfExtract.Done dataBuffer →
       isValidPdf dataBuffer = false →
       run ocrEnabled = PdfExtract.Failed PdfExtract.InvalidPdfFile).
Proof.
  intros run. subst run. split; [|split].
  - intros r Hr.
    apply extractPdfText_Done in Hr as (buf & Hread & Hv & Hcase).
    split; [by exists buf|].
    destruct Hcase as [Hn|[-> ->]]; [|by left].
    apply extractNative_Done in Hn as (pd & _ & [(-> & -> & _)|Hnat]).
    + by left.
    + right. destruct Hnat as (Hm & Ht & Hl & Hnum & _ & Hfull).
      rewrite Ht. by repeat split.
  - intros buf Hread Hv. by eapply extractPdfText_ocr.
  - intros buf Hread Hv. unfold PdfExtract.extractPdfText.
    rewrite Hread. change (PdfExtract.isPdfValid buf) with (isValidPdf buf).
    by rewrite Hv.
Qed.

(** ** Extraction in batches *)

Section ExtractBatchFacts.
Variable extract : Study * ExtractedPdf → result ExtractionRecord.
Variable firstRejected : nat → list Exn → Exn.
Hypothesis firstRejected_in :
  ∀ i reasons, reasons ≠ [] → firstRejected i reasons ∈ reasons.

Lemma rejected_nil {B} (rs : list (result B)) :
  rejected rs = [] ↔ Forall (λ r, is_ok r = true) rs.
Proof.
  induction rs as [|[b|e] rs IH]; simpl.
  - by split.
  - rewrite Forall_cons. unfold rejected in *. simpl. tauto.
  - unfold rejected. simpl. split; [done|]. by intros [? _]%Forall_cons.
Qed.

Lemma fulfilled_all {B} (rs : list (result B)) :
  Forall (λ r, is_ok r = true) rs → rs = Ok <$> fulfilled rs.
Proof.
  induction 1 as [|[b|e] rs Hr _ IH]; [done| |done].
  unfold fulfilled in *. cbn [omap list_omap fmap list_fmap]. by f_equal.
Qed.

Lemma fulfilled_app {B} (rs1 rs2 : list (result B)) :
  fulfilled (rs1 ++ rs2) = fulfilled rs1 ++ fulfilled rs2.
Proof. unfold fulfilled. apply omap_app. Qed.

Lemma rejected_elem {B} (rs : list (result B)) e :
  e ∈ rejected rs ↔ Throw e ∈ rs.
Proof.
  unfold rejected. rewrite list_elem_of_omap. split.
  - intros ([b|e'] & Hin & Heq); [done|]. by injection Heq as ->.
  - intros Hin. by exists (Throw e).
Qed.

(** One round: all calls of the batch are fulfilled, or the batch rejects
    with the reason of one of its calls. *)
Lemma awaitAll_spec i (batch : list (Study * ExtractedPdf)) :
  (Forall (λ x, is_ok (extract x) = true) batch
   ∧ awaitAll firstRejected i (extract <$> batch) =
     Ok (fulfilled (extract <$> batch)))
  ∨ (∃ e x, awaitAll firstRejected i (extract <$> batch) = Throw e
            ∧ x ∈ batch ∧ extract x = Throw e).
Proof.
  unfold awaitAll.
  destruct (rejected (extract <$> batch)) as [|e es] eqn:Hrej.
  - left. apply rejected_nil in Hrej. split; [|done].
    by apply Forall_fmap in Hrej.
  - right. exists (firstRejected i (e :: es)).
    assert (Hin : firstRejected i (e :: es) ∈ rejected (extract <$> batch))
      by (rewrite Hrej; by apply firstRejected_in).
    apply rejected_elem, list_elem_of_fmap in Hin as (x & Hx & Hin).
    by exists x.
Qed.

Lemma extractBatchLoop_spec l batchSize :
  (1 ≤ batchSize)%nat →
  ∀ fuel i acc,
    (length l - i < fuel)%nat →
    (Forall (λ x, is_ok (extract x) = true) (drop i l)
     ∧ extractBatchLoop extract firstRejected fuel l batchSize i acc =
       Some (Ok (acc ++ fulfilled (extract <$> drop i l))))
    ∨ (∃ k e x,
         extractBatchLoop extract firstRejected fuel l batchSize i acc =
           Some (Throw e)
         ∧ Forall (λ x, is_ok (extract x) = true)
             (take (k * batchSize) (drop i l))
         ∧ x ∈ take batchSize (drop (k * batchSize) (drop i l))
         ∧ extract x = Throw e).
Proof.
  intros Hb. induction fuel as [|fuel IH]; intros i acc Hfuel; [lia|].
  cbn [extractBatchLoop]. destruct (Nat.ltb i (length l)) eqn:Hi.
  - apply Nat.ltb_lt in Hi.
    destruct (awaitAll_spec i (take batchSize (drop i l)))
      as [[Hall ->]|(e & x & -> & Hx & He)].
    + destruct (IH (i + batchSize)%nat
                  (acc ++ fulfilled (extract <$> take batchSize (drop i l))))
        as [[Hrest ->]|(k & e & x & -> & Hbefore & Hx & He)]; [lia| |].
      * left. rewrite <- (take_drop batchSize (drop i l)) at 1 3.
        rewrite drop_drop, fmap_app, fulfilled_app, app_assoc.
        split; [|done]. by apply Forall_app.
      * right. exists (S k), e, x. split; [done|].
        rewrite <- (take_drop batchSize (drop i l)) at 1 2.
        rewrite drop_drop.
        assert (Hlen : length (take batchSize (drop i l)) = batchSize).
        { rewrite length_take, length_drop.
          destruct (decide (batchSize ≤ length l - i)%nat); [lia|].
          exfalso. rewrite (drop_ge l (i + batchSize)) in Hx by lia.
          rewrite drop_nil, take_nil in Hx. by apply elem_of_nil in Hx. }
        cbn [Nat.mul]. split; [|split; [|done]].
        -- rewrite take_app_add' by done. by apply Forall_app.
        -- by rewrite drop_app_add' by done.
    + right. exists 0%nat, e, x. cbn [Nat.mul]. rewrite take_0, drop_0.
      by repeat split.
  - apply Nat.ltb_ge in Hi. left. rewrite drop_ge by done.
    by rewrite app_nil_r.
Qed.
End ExtractBatchFacts.

(** X24.  With a batch size of at least one and enough rounds,
    [extractBatch] ends.  If every extraction succeeds it returns one
    extraction per study, in the order of the studies, whatever the batch
    size.  Otherwise it throws, the extractions made before being lost: all
    batches before some batch succeeded, and the exception is that of a
    failed extraction of that batch, the one rejected first in time, which
    need not be the first of the batch.  With a batch size of zero and a
    study to extract, the loop never ends. *)
Theorem extractBatch_all_or_nothing
    (extract : Study * ExtractedPdf → result ExtractionRecord)
    (firstRejected : nat → list Exn → Exn)
    (studiesWithPdfs : list (Study * ExtractedPdf)) (batchSize fuel : nat) :
  (∀ i reasons, reasons ≠ [] → firstRejected i reasons ∈ reasons) →
  ((1 ≤ batchSize)%nat → (length studiesWithPdfs < fuel)%nat →
   (∃ extractions,
      extractBatchWith extract firstRejected fuel studiesWithPdfs batchSize
        = Some (Ok extractions)
      ∧ extract <$> studiesWithPdfs = Ok <$> extractions)
   ∨ (∃ k e x,
        extractBatchWith extract firstRejected fuel studiesWithPdfs batchSize
          = Some (Throw e)
        ∧ Forall (λ x, is_ok (extract x) = true)
            (take (k * batchSize) studiesWithPdfs)
        ∧ x ∈ take batchSize (drop (k * batchSize) studiesWithPdfs)
        ∧ extract x = Throw e))
  ∧ (batchSize = 0%nat → studiesWithPdfs ≠ [] →
     extractBatchWith extract firstRejected fuel studiesWithPdfs batchSize
       = None).
Proof.
  intros Hfirst. unfold extractBatchWith. split.
  - intros Hb Hfuel.
    destruct (extractBatchLoop_spec extract firstRejected Hfirst
                studiesWithPdfs batchSize Hb fuel 0 [])
      as [[Hall ->]|(k & e & x & -> & Hbefore & Hx & He)]; [lia| |].
    + left. rewrite drop_0 in *. eexists. split; [done|].
      apply fulfilled_all. by apply Forall_fmap.
    + right. rewrite drop_0 in *. by exists k, e, x.
  - intros -> Hne. generalize (@nil ExtractionRecord).
    induction fuel as [|fuel IH]; intros acc; [done|]. simpl.
    destruct studiesWithPdfs as [|x l]; [done|]. simpl.
    rewrite app_nil_r. apply IH.
Qed.

Lemma lastRejected_in (i : nat) (reasons : list Exn) :
  reasons ≠ [] → lastRejected i reasons ∈ reasons.
Proof.
  intros Hne. unfold lastRejected.
  destruct (last reasons) as [e|] eqn:Hlast.
  - simpl. apply last_Some in Hlast as [l' ->].
    apply elem_of_app. right. by apply list_elem_of_singleton.
  - by apply last_None in Hlast.
Qed.

(** When two extractions of a batch fail, the exception thrown is the one
    rejected first, and it changes with the batch size: in one batch of two
    the second study's, in batches of one the first study's. *)
Lemma extractBatch_reason_follows_batches :
  extractBatchWith failingExtract lastRejected 3 failingPair 2 =
    Some (Throw (OracleFailed "extraction of b2"))
  ∧ extractBatchWith failingExtract lastRejected 3 failingPair 1 =
    Some (Throw (OracleFailed "extraction of a1")).
Proof. by vm_compute. Qed.

Lemma extractBatch_all_or_nothing_witness :
  ((1 ≤ 2)%nat → (length failingPair < 3)%nat →
   (∃ extractions,
      extractBatchWith failingExtract lastRejected 3 failingPair 2
        = Some (Ok extractions)
      ∧ failingExtract <$> failingPair = Ok <$> extractions)
   ∨ (∃ k e x,
        extractBatchWith failingExtract lastRejected 3 failingPair 2
          = Some (Throw e)
        ∧ Forall (λ x, is_ok (failingExtract x) = true)
            (take (k * 2) failingPair)
        ∧ x ∈ take 2 (drop (k * 2) failingPair)
        ∧ failingExtract x = Throw e))
  ∧ (2%nat = 0%nat → failingPair ≠ [] →
     extractBatchWith failingExtract lastRejected 3 failingPair 2 = None).
Proof.
  apply (extractBatch_all_or_nothing failingExtract lastRejected
           failingPair 2 3).
  apply lastRejected_in.
Defined.

(** ** Search exports *)

Section MapSet.
Context {V : Type}.
Implicit Types (m : list (string * V)).

Lemma lookup_map_set_eq m k v : lookupEntry (map_set k v m) k = Some v.
Proof.
  unfold lookupEntry. induction m as [|[k' v'] m IH]; simpl.
  - by rewrite bool_decide_eq_true_2.
  - case_bool_decide as Hk; simpl in *.
    + by rewrite bool_decide_eq_true_2.
    + by rewrite bool_decide_eq_false_2.
Qed.

Lemma lookup_map_set_ne m k k' v :
  k ≠ k' → lookupEntry (map_set k v m) k' = lookupEntry m k'.
Proof.
  intros Hne. unfold lookupEntry.
  induction m as [|[k0 v0] m IH]; simpl.
  - by rewrite bool_decide_eq_false_2.
  - case_bool_decide as Hk; simpl in *.
    + subst k0. by rewrite !bool_decide_eq_false_2.
    + case_bool_decide; [done|]. apply IH.
Qed.

Lemma map_set_length m k v : (length m ≤ length (map_set k v m))%nat.
Proof.
  induction m as [|[k0 v0] m IH]; simpl; [lia|].
  case_bool_decide; simpl; lia.
Qed.

Lemma map_set_nonempty m k v : map_set k v m ≠ [].
Proof. destruct m as [|[k0 v0] m]; simpl; [done|]. by case_bool_decide. Qed.
End MapSet.

Section RisRecord.

Lemma parseRisLine_get record line tag :
  risGet (parseRisLine record line) tag =
  match matchRisLine line with
  | Some (t, rest) =>
    if String.eqb t tag
    then risAdd tag (risGet record tag)
           (string_of_list_ascii (trim_chars rest))
    else risGet record tag
  | None => risGet record tag
  end.
Proof.
  unfold parseRisLine, risAdd, risGet.
  destruct (matchRisLine line) as [[t rest]|]; [|done].
  destruct (String.eqb t tag) eqn:Ht.
  - apply String.eqb_eq in Ht as ->.
    destruct (risMultiTag tag).
    + by rewrite lookup_map_set_eq.
    + unfold risGet. destruct (risTruthy (lookupEntry record tag)); [done|].
      by rewrite lookup_map_set_eq.
  - apply String.eqb_neq in Ht.
    destruct (risMultiTag t).
    + by rewrite lookup_map_set_ne.
    + unfold risGet. destruct (risTruthy (lookupEntry record t)); [done|].
      by rewrite lookup_map_set_ne.
Qed.

Lemma foldl_parseRisLine_get lines : ∀ record tag,
  risGet (foldl parseRisLine record lines) tag =
  foldl (risAdd tag) (risGet record tag) (risValuesOf tag lines).
Proof.
  induction lines as [|line lines IH]; intros record tag; [done|].
  cbn [foldl]. rewrite IH, parseRisLine_get. unfold risValuesOf.
  cbn [omap list_omap]. fold (risValuesOf tag lines).
  destruct (matchRisLine line) as [[t rest]|]; [|done].
  by destruct (String.eqb t tag).
Qed.

Lemma risAdd_multi tag vs : ∀ l,
  risMultiTag tag = true →
  foldl (risAdd tag) (Some (RisList l)) vs = Some (RisList (l ++ vs)).
Proof.
  induction vs as [|v vs IH]; intros l Hm; simpl.
  - by rewrite app_nil_r.
  - unfold risAdd at 2. rewrite Hm, IH by done. by rewrite <- app_assoc.
Qed.

Lemma risAdd_single_text tag vs s :
  risMultiTag tag = false → s ≠ "" →
  foldl (risAdd tag) (Some (RisText s)) vs = Some (RisText s).
Proof.
  intros Hm Hs. induction vs as [|v vs IH]; simpl; [done|].
  unfold risAdd at 2. rewrite Hm. simpl.
  apply String.eqb_neq in Hs. by rewrite Hs.
Qed.

Lemma risAdd_single tag vs : ∀ cur,
  risMultiTag tag = false → risTruthy cur = false → vs ≠ [] →
  foldl (risAdd tag) cur vs =
  Some (RisText (default "" (firstNonEmpty vs))).
Proof.
  induction vs as [|v vs IH]; intros cur Hm Hcur Hne; [done|].
  simpl. unfold risAdd at 2. rewrite Hm, Hcur.
  unfold firstNonEmpty. simpl.
  destruct (String.eqb v "") eqn:Hv; simpl.
  - apply String.eqb_eq in Hv as ->.
    destruct vs as [|v' vs]; [done|].
    by rewrite IH.
  - apply String.eqb_neq in Hv. by apply risAdd_single_text.
Qed.

Lemma foldl_parseRisLine_nonempty lines : ∀ record,
  foldl parseRisLine record lines = [] ↔
  record = [] ∧ Forall (λ line, matchRisLine line = None) lines.
Proof.
  induction lines as [|line lines IH]; intros record; simpl.
  - split; [by intros -> | by intros [-> _]].
  - rewrite IH, Forall_cons. unfold parseRisLine.
    destruct (matchRisLine line) as [[t rest]|]; [|tauto].
    split; [|by intros (_ & ? & _)]. intros [Hempty _]. exfalso.
    revert Hempty. destruct (risMultiTag t).
    + apply map_set_nonempty.
    + destruct (risTruthy (risGet record t)) eqn:Htr.
      * intros ->. done.
      * apply map_set_nonempty.
Qed.
Lemma parseRisRecord_get recordText record tag :
  parseRisRecord recordText = Some record →
  risGet record tag =
  match risValuesOf tag (splitLines recordText []) with
  | [] => None
  | v :: vs =>
    if risMultiTag tag then Some (RisList (v :: vs))
    else Some (RisText (default "" (firstNonEmpty (v :: vs))))
  end.
Proof.
  unfold parseRisRecord.
  destruct (Nat.ltb _ _); [|done]. intros [= <-].
  rewrite foldl_parseRisLine_get.
  change (risGet [] tag) with (@None RisValue).
  destruct (risValuesOf tag _) as [|v vs]; [done|].
  destruct (risMultiTag tag) eqn:Hm.
  - cbn [foldl]. unfold risAdd at 2. rewrite Hm. simpl.
    by rewrite risAdd_multi.
  - by rewrite risAdd_single.
Qed.

Lemma parseRisRecord_None recordText :
  parseRisRecord recordText = None ↔
  Forall (λ line, matchRisLine line = None) (splitLines recordText []).
Proof.
  unfold parseRisRecord.
  pose proof (foldl_parseRisLine_nonempty (splitLines recordText []) [])
    as Hempty.
  destruct (foldl parseRisLine [] _) as [|kv record]; simpl.
  - split; [intros _; by apply Hempty | done].
  - split; [done|]. intros Hall.
    by destruct Hempty as [_ Hempty]; discriminate Hempty.
Qed.

Lemma risValuesOf_no_match tag lines :
  Forall (λ line, matchRisLine line = None) lines →
  risValuesOf tag lines = [].
Proof.
  induction 1 as [|line lines Hline _ IH]; [done|].
  unfold risValuesOf in *. cbn [omap list_omap]. by rewrite Hline.
Qed.

Lemma firstNonEmpty_default vs :
  (let s := default "" (firstNonEmpty vs) in
   if String.eqb s "" then None else Some s) = firstNonEmpty vs.
Proof.
  unfold firstNonEmpty.
  induction vs as [|v vs IH]; [done|]. simpl.
  destruct (String.eqb v "") eqn:Hv; simpl; [done|]. by rewrite Hv.
Qed.

Lemma parseRisRecord_text recordText record tag :
  parseRisRecord recordText = Some record →
  risMultiTag tag = false →
  textOf (risGet record tag) =
  firstNonEmpty (risValuesOf tag (splitLines recordText [])).
Proof.
  intros Hparse Hm. rewrite (parseRisRecord_get _ _ _ Hparse), Hm.
  destruct (risValuesOf tag _) as [|v vs]; [done|].
  apply (firstNonEmpty_default (v :: vs)).
Qed.

Lemma parseRisRecord_list recordText record tag :
  parseRisRecord recordText = Some record →
  risMultiTag tag = true →
  listOf (risGet record tag) =
  match risValuesOf tag (splitLines recordText []) with
  | [] => None
  | vs => Some vs
  end.
Proof.
  intros Hparse Hm. rewrite (parseRisRecord_get _ _ _ Hparse), Hm.
  by destruct (risValuesOf tag _).
Qed.
End RisRecord.

(** X25.  [parseRisRecord] reads a record line by line.  It answers [null]
    exactly when no line of the record has the form of a tag line.  The
    tags [AU], [A1] and [KW] keep all their values, in order; every other
    tag keeps its first value that is not empty, later values being
    ignored, or the empty string if all its values are empty. *)
Theorem parseRisRecord_values (recordText : list ascii) (tag : string) :
  let lines := splitLines recordText [] in
  (parseRisRecord recordText = None ↔
   Forall (λ line, matchRisLine line = None) lines)
  ∧ (∀ record, parseRisRecord recordText = Some record →
       risGet record tag =
       match risValuesOf tag lines with
       | [] => None
       | v :: vs =>
         if risMultiTag tag then Some (RisList (v :: vs))
         else Some (RisText (default "" (firstNonEmpty (v :: vs))))
       end).
Proof.
  intros lines. split.
  - apply parseRisRecord_None.
  - intros record Hparse. by apply parseRisRecord_get.
Qed.

(** X26.  What a RIS record becomes.  The title of the study is the first
    [TI] value that is not empty or else the first such [T1] value, and a
    record with neither gives no study.  The authors are all the [AU]
    values in order, the [A1] values being read only when there is no
    [AU] line.  The year is the first four digits in a row of the first
    non-empty [PY] value (else [Y1]), or the current year when there are
    none; the journal falls back to [JO], [JF], [T2] and then to
    [Unknown]; the identifier is the digest of title, authors and year. *)
Theorem risRecord_study (sha256hex : string → string) (currentYear : Z)
    (recordText : list ascii) (sourceFile : string) :
  let lines := splitLines recordText [] in
  let first tag := firstNonEmpty (risValuesOf tag lines) in
  match
    match parseRisRecord recordText with
    | None => None
    | Some parsed => risRecordToStudy sha256hex currentYear parsed sourceFile
    end
  with
  | None => first "TI" = None ∧ first "T1" = None
  | Some s =>
    Some (title s) = orElse (first "TI") (first "T1")
    ∧ title s ≠ ""
    ∧ authors s =
      match risValuesOf "AU" lines with
      | [] => risValuesOf "A1" lines
      | au => au
      end
    ∧ year s =
      default currentYear
        (firstYear (list_ascii_of_string
           (default "" (orElse (first "PY") (first "Y1")))))
    ∧ journal s =
      default "Unknown"
        (orElse (first "JO") (orElse (first "JF") (first "T2")))
    ∧ doi s = first "DO"
    ∧ abstract s = orElse (first "AB") (first "N2")
    ∧ source_file s = sourceFile
    ∧ study_id s =
      generateStudyId sha256hex (title s) (authors s) (year s)
  end.
Proof.
  intros lines first.
  destruct (parseRisRecord recordText) as [parsed|] eqn:Hparse.
  - assert (Htext : ∀ tag, risMultiTag tag = false →
              textOf (risGet parsed tag) = first tag)
      by (intros tag; by apply parseRisRecord_text).
    assert (Hlist : ∀ tag, risMultiTag tag = true →
              listOf (risGet parsed tag) =
              match risValuesOf tag lines with [] => None | vs => Some vs end)
      by (intros tag; by apply parseRisRecord_list).
    unfold risRecordToStudy.
    rewrite !Htext, !Hlist by done.
    destruct (orElse (first "TI") (first "T1")) as [t|] eqn:Htitle.
    + cbn [title authors year journal doi abstract source_file study_id].
      repeat split.
      * intros ->. unfold orElse, first, firstNonEmpty in Htitle.
        destruct (find _ (risValuesOf "TI" lines)) eqn:Hti.
        -- injection Htitle as ->. by apply find_some in Hti as [_ ?].
        -- by apply find_some in Htitle as [_ ?].
      * destruct (risValuesOf "AU" lines); [|done]. simpl.
        by destruct (risValuesOf "A1" lines).
    + unfold orElse in Htitle. by destruct (first "TI").
  - apply parseRisRecord_None in Hparse.
    unfold first. by rewrite !risValuesOf_no_match.
Qed.

Section Medline.

Lemma drop_spaces_head l :
  match drop_spaces l with
  | [] => True
  | c :: _ => is_space c = false
  end.
Proof.
  induction l as [|c l IH]; [done|]. simpl.
  destruct (is_space c) eqn:Hc; [done|]. by simpl.
Qed.

Lemma trim_chars_head l :
  match trim_chars l with
  | [] => True
  | c :: _ => is_space c = false
  end.
Proof.
  rewrite trim_chars_drop_end.
  pose proof (drop_spaces_head l) as Hhead.
  destruct (drop_spaces l) as [|c l']; [done|].
  cbn [drop_end forallb]. rewrite Hhead. by simpl.
Qed.

(** A string without white space at its start does not start with six
    spaces. *)
Lemma no_continuation line :
  startsWith continuationMark (trim_chars line) = false.
Proof.
  pose proof (trim_chars_head line) as Hhead.
  destruct (trim_chars line) as [|c l]; [done|].
  simpl. destruct (bool_decide_reflect (" "%char = c)) as [<-|]; done.
Qed.

Lemma parseMedlineLine_spec st line :
  parseMedlineLine st line =
  match matchMedlineLine line with
  | Some (tag, value) =>
    {| ml_record := medlineFlush st; currentTag := tag;
       currentValue := value |}
  | None => st
  end.
Proof.
  unfold parseMedlineLine. by rewrite no_continuation.
Qed.

Lemma matchMedlineLine_tag line tag value :
  matchMedlineLine line = Some (tag, value) → String.eqb tag "" = false.
Proof.
  unfold matchMedlineLine. destruct (spanUpper line) as [u r].
  destruct (Nat.leb 2 (length u)) eqn:Hlen; [|done].
  destruct (Nat.leb (length u) 4); [|done]. simpl.
  destruct (drop_spaces r) as [|c r']; [done|].
  destruct (_ && _); [|done]. intros [= <- _].
  destruct u as [|a u]; [done|]. done.
Qed.

(** Flushing commutes with the loop: what the loop leaves to be flushed is
    what pushing the value of each tag line gives. *)
Lemma medlineFlush_foldl lines : ∀ st,
  medlineFlush (foldl parseMedlineLine st lines) =
  foldl (λ record line,
           match matchMedlineLine line with
           | Some (tag, value) => medlinePush record tag value
           | None => record
           end) (medlineFlush st) lines.
Proof.
  induction lines as [|line lines IH]; intros st; [done|].
  cbn [foldl]. rewrite IH, parseMedlineLine_spec.
  destruct (matchMedlineLine line) as [[tag value]|] eqn:Hline; [|done].
  f_equal. unfold medlineFlush at 1.
  cbn [currentTag ml_record currentValue].
  by rewrite (matchMedlineLine_tag _ _ _ Hline).
Qed.

Lemma medlinePush_lookup record t value tag :
  lookupEntry (medlinePush record t value) tag =
  if String.eqb t tag
  then Some (default [] (lookupEntry record tag)
             ++ [string_of_list_ascii (trim_chars value)])
  else lookupEntry record tag.
Proof.
  unfold medlinePush. destruct (String.eqb t tag) eqn:Ht.
  - apply String.eqb_eq in Ht as ->. by rewrite lookup_map_set_eq.
  - apply String.eqb_neq in Ht. by rewrite lookup_map_set_ne.
Qed.

Lemma medline_pushes_lookup tag lines : ∀ record,
  lookupEntry
    (foldl (λ record line,
              match matchMedlineLine line with
              | Some (tag, value) => medlinePush record tag value
              | None => record
              end) record lines) tag =
  match medlineValuesOf tag lines with
  | [] => lookupEntry record tag
  | vs => Some (default [] (lookupEntry record tag) ++ vs)
  end.
Proof.
  induction lines as [|line lines IH]; intros record; [done|].
  cbn [foldl]. rewrite IH. unfold medlineValuesOf.
  cbn [omap list_omap]. fold (medlineValuesOf tag lines).
  destruct (matchMedlineLine line) as [[t value]|]; [|done].
  rewrite medlinePush_lookup.
  destruct (String.eqb t tag); [|done].
  destruct (medlineValuesOf tag lines) as [|v vs]; [done|].
  simpl. by rewrite <- app_assoc.
Qed.

Lemma medline_pushes_empty lines : ∀ record,
  foldl (λ record line,
           match matchMedlineLine line with
           | Some (tag, value) => medlinePush record tag value
           | None => record
           end) record lines = [] ↔
  record = [] ∧ Forall (λ line, matchMedlineLine line = None) lines.
Proof.
  induction lines as [|line lines IH]; intros record; cbn [foldl].
  - split; [by intros -> | by intros [-> _]].
  - rewrite IH, Forall_cons.
    destruct (matchMedlineLine line) as [[t value]|]; [|tauto].
    split; [|by intros (_ & ? & _)]. intros [Hempty _].
    by apply map_set_nonempty in Hempty.
Qed.

Lemma medline_pushes_filter lines : ∀ record,
  foldl (λ record line,
           match matchMedlineLine line with
           | Some (tag, value) => medlinePush record tag value
           | None => record
           end) record
    (filter (λ line, is_Some (matchMedlineLine line)) lines) =
  foldl (λ record line,
           match matchMedlineLine line with
           | Some (tag, value) => medlinePush record tag value
           | None => record
           end) record lines.
Proof.
  induction lines as [|line lines IH]; intros record; [done|].
  destruct (matchMedlineLine line) as [[t value]|] eqn:Hline.
  - rewrite filter_cons_True by (by rewrite Hline).
    cbn [foldl]. by rewrite Hline, IH.
  - rewrite filter_cons_False by (rewrite Hline; by intros [? ?]).
    cbn [foldl]. by rewrite Hline, IH.
Qed.
End Medline.

(** X27.  [parseMedlineRecord] reads tag lines only.  Its test for a
    continuation line asks whether the trimmed line starts with six spaces,
    which no trimmed line does, so the lines that are not tag lines have no
    effect: every value is the trimmed text that follows the hyphen on its
    tag line, and a value that continues on further lines is cut to its
    first line.  The result is [null] exactly when the record has no tag
    line. *)
Theorem parseMedlineRecord_tag_lines_only (recordText : list ascii)
    (tag : string) :
  let lines := splitLines recordText [] in
  parseMedlineRecord recordText =
  parseMedlineLines (filter (λ line, is_Some (matchMedlineLine line)) lines)
  ∧ (parseMedlineRecord recordText = None ↔
     Forall (λ line, matchMedlineLine line = None) lines)
  ∧ (∀ record, parseMedlineRecord recordText = Some record →
       lookupEntry record tag =
       match medlineValuesOf tag lines with
       | [] => None
       | vs => Some vs
       end).
Proof.
  intros lines. unfold parseMedlineRecord, parseMedlineLines. fold lines.
  rewrite !medlineFlush_foldl, medline_pushes_filter.
  split; [done|].
  change (medlineFlush _) with (@nil (string * list string)).
  pose proof (medline_pushes_empty lines []) as Hempty.
  pose proof (medline_pushes_lookup tag lines []) as Hlookup.
  destruct (foldl _ [] lines) as [|kv record].
  - simpl. split; [|done]. split; [intros _; by apply Hempty|done].
  - simpl. split.
    + split; [done|]. intros Hall.
      by destruct Hempty as [_ Hempty]; discriminate Hempty.
    + intros ? [= <-]. rewrite Hlookup.
      by destruct (medlineValuesOf tag lines).
Qed.

Section RisRecords.

Lemma concat_head (groups : list (list (list ascii))) line rest :
  Forall (λ g, g ≠ []) groups →
  concat groups = line :: rest →
  ∃ g gs, groups = (line :: g) :: gs.
Proof.
  intros Hne Hcat. destruct groups as [|g gs]; [done|].
  apply Forall_cons in Hne as [Hg _].
  destruct g as [|l g]; [done|].
  simpl in Hcat. injection Hcat as -> _. eauto.
Qed.

Lemma risRecordsLoop_groups lines : ∀ cur done,
  ∃ groups,
    risRecordsLoop lines cur (joinLines <$> done) =
      joinLines <$> (done ++ groups)
    ∧ concat groups = cur ++ lines
    ∧ Forall (λ g, g ≠ []) groups
    ∧ (Forall (λ l, startsWith risTypeTag (trim_chars l) = false)
         (tail cur) →
       Forall (λ g, Forall (λ l, startsWith risTypeTag (trim_chars l)
                                 = false) (tail g)) groups)
    ∧ Forall (λ g, ∃ l, head g = Some l
                        ∧ startsWith risTypeTag (trim_chars l) = true)
        (tail groups).
Proof.
  induction lines as [|line rest IH]; intros cur done; cbn [risRecordsLoop].
  - destruct cur as [|l cur].
    + exists []. simpl. by rewrite app_nil_r.
    + exists [l :: cur]. cbn [length Nat.ltb Nat.leb].
      rewrite fmap_app. cbn [concat tail]. rewrite !app_nil_r.
      repeat split; auto.
  - destruct (startsWith risTypeTag (trim_chars line)
              && Nat.ltb 0 (length cur)) eqn:Hnew.
    + apply andb_true_iff in Hnew as [Htype Hcur].
      destruct cur as [|l cur]; [done|].
      destruct (IH [line] (done ++ [l :: cur]))
        as (groups & Hloop & Hcat & Hne & Htail & Hhead).
      exists ((l :: cur) :: groups).
      rewrite fmap_app in Hloop. cbn [fmap list_fmap] in Hloop.
      rewrite Hloop, <- app_assoc. cbn [concat app tail].
      split; [done|]. split; [by rewrite Hcat|].
      split; [by constructor|]. split.
      * intros Hcur'. constructor; [done|]. by apply Htail.
      * destruct (concat_head _ _ _ Hne Hcat) as (g & gs & ->).
        constructor; [by exists line|done].
    + destruct (IH (cur ++ [line]) done)
        as (groups & Hloop & Hcat & Hne & Htail & Hhead).
      exists groups. rewrite <- app_assoc in Hcat.
      repeat split; try done.
      intros Hcur'. apply Htail.
      destruct cur as [|l cur]; [done|]. cbn [app tail] in *.
      apply Forall_app. split; [done|]. constructor; [|done].
      apply andb_false_iff in Hnew as [?|?]; done.
Qed.
End RisRecords.

(** X28.  [splitRisRecords] cuts the lines of the file into groups and
    joins each group into a record, keeping the records that are not
    blank.  No line is lost or moved; a group never holds a [TY] line
    after its first line, and every group but the first starts with one.
    So the lines before the first [TY] line form a record of their own,
    and the end-of-record tag plays no part. *)
Theorem splitRisRecords_groups (content : list ascii) :
  ∃ groups : list (list (list ascii)),
    splitRisRecords content =
      filter (λ r, nonBlank r = true) (joinLines <$> groups)
    ∧ concat groups = splitLines content []
    ∧ Forall (λ g, g ≠ []) groups
    ∧ Forall (λ g, Forall (λ l, startsWith risTypeTag (trim_chars l)
                              = false) (tail g)) groups
    ∧ Forall (λ g, ∃ l, head g = Some l
                        ∧ startsWith risTypeTag (trim_chars l) = true)
        (tail groups).
Proof.
  destruct (risRecordsLoop_groups (splitLines content []) [] [])
    as (groups & Hloop & Hcat & Hne & Htail & Hhead).
  exists groups. unfold splitRisRecords.
  change (@nil (list ascii)) with (joinLines <$> []) at 2.
  rewrite Hloop. repeat split; try done. by apply Htail.
Qed.

